(** * Terrain generation and chunk store of the flight simulator

    A shallow embedding of [terrain-generation.js] (the square-diamond
    height-map generator with edge constraints and 3x3 median smoothing)
    and of the chunk bookkeeping of [flight-sim.js] ([chunkHeights],
    [addTerrainChunk], [generateNeighboringChunks], and the meshes built by
    [addTerrainMesh]).

    JavaScript Numbers are kept abstract behind the interface [JSNumber];
    the theorems about the structure of the generated grids hold for every
    implementation of it.  Module [IEEE] below instantiates the interface
    with IEEE 754 binary64 arithmetic and binary32 storage, and is used to
    run the code on concrete inputs. *)

From Stdlib Require Import ZArith List Bool Ascii String Lia.
From Stdlib Require Import Floats.SpecFloat.
From stdpp Require Import base option list gmap strings pretty.

Local Open Scope Z_scope.

(** ** Outcomes of running JavaScript code *)

(** [RangeError] and [TypeError] are the two exceptions the modelled code can
    raise ([new Array(len)] with an invalid length, and indexing
    [undefined]).  [FuelExhausted] is not a JavaScript outcome: it marks a
    recursion of the model that ran out of fuel, and is shown never to
    happen. *)
Inductive Failure : Type := RangeError | TypeError | FuelExhausted.

Inductive result (A : Type) : Type :=
  | Ok (a : A)
  | Throw (e : Failure).
Arguments Ok {A} a.
Arguments Throw {A} e.

(** State and exception monad: the state is whatever the JavaScript code
    mutates (a grid under construction, the position in the stream of
    random numbers, the chunk store). *)
Definition M (S A : Type) : Type := S -> result (A * S).

Definition ret {S A} (a : A) : M S A := fun s => Ok (a, s).

Definition bind {S A B} (m : M S A) (f : A -> M S B) : M S B :=
  fun s => match m s with
           | Ok (a, s') => f a s'
           | Throw e => Throw e
           end.

Definition throw {S A} (e : Failure) : M S A := fun _ => Throw e.

Definition get {S} : M S S := fun s => Ok (s, s).
Definition put {S} (s : S) : M S unit := fun _ => Ok (tt, s).

Declare Scope js_scope.
Delimit Scope js_scope with js.
Notation "'let!' x ':=' m 'in' k" := (bind m (fun x => k))
  (at level 10, x name, m at level 100, k at level 200) : js_scope.
Notation "m '>>;' k" := (bind m (fun _ => k))
  (at level 100, k at level 200, right associativity) : js_scope.
Local Open Scope js_scope.

(** [for (const a of l) body(a)] *)
Fixpoint forEach {S A} (l : list A) (body : A -> M S unit) : M S unit :=
  match l with
  | [] => ret tt
  | a :: l' => body a >>; forEach l' body
  end.

(** The values taken by the loop variable of
    [for (let i = lo; i < hi; i += step)], for a positive [step]. *)
Definition steps (lo hi step : Z) : list Z :=
  (fun k : nat => lo + Z.of_nat k * step) <$>
    seq 0 (Z.to_nat ((hi - lo + step - 1) / step)).

(** ** JavaScript Numbers *)

Class JSNumber (num : Type) : Type := {
  (** the Number with the given integer value *)
  ofInt : Z -> num;
  jsNaN : num;
  jsAdd : num -> num -> num;
  jsSub : num -> num -> num;
  jsMul : num -> num -> num;
  jsDiv : num -> num -> num;
  isNaN : num -> bool;
  (** the conversion done by a store into a [Float32Array] *)
  fround : num -> num;
  (** the order used by [%TypedArray%.prototype.sort] without comparator *)
  numLe : num -> num -> bool;
  (** [Number::toString], used by [Array.prototype.sort] without comparator *)
  toString : num -> string;
}.

(** Lexicographic order on strings by code unit, as in the default
    comparison of [Array.prototype.sort]. *)
Definition strLe (a b : string) : bool :=
  match String.compare a b with
  | Gt => false
  | _ => true
  end.

(** A stable sort: both JavaScript sorts are stable, so for a total preorder
    the result is the one of insertion sort. *)
Section Sort.
Context {A : Type} (le : A -> A -> bool).

Fixpoint insertSorted (x : A) (l : list A) : list A :=
  match l with
  | [] => [x]
  | y :: l' => if le x y then x :: y :: l' else y :: insertSorted x l'
  end.

Definition stableSort (l : list A) : list A := foldr insertSorted [] l.
End Sort.

(** Reading index [i] of a JavaScript array: [None] is [undefined]. *)
Definition zget {A} (l : list A) (i : Z) : option A :=
  if i <? 0 then None else l !! Z.to_nat i.

(** A Number or [undefined]. *)
Abbreviation jsval num := (option num) (only parsing).

(** A [Float32Array] of fixed length: every element is a Number. *)
Abbreviation Float32Array num := (list num) (only parsing).

(** An [Array] of [Float32Array] rows: the height map. *)
Abbreviation Heightfield num := (list (list num)) (only parsing).

(** A plain [Array] holding Numbers (or [undefined]): an edge constraint.
    A [Float32Array] row handed over as a constraint is read the same way,
    see [rowEdge]. *)
Abbreviation EdgeVector num := (list (option num)) (only parsing).

Section Terrain.
Context {num : Type} {NUM : JSNumber num}.

(** [ToNumber] on a Number or [undefined]. *)
Definition toNumber (v : jsval num) : num :=
  match v with
  | Some n => n
  | None => jsNaN
  end.

(** *** Arrays *)

(** [new Float32Array(n)] *)
Definition newFloat32Array (n : Z) : Float32Array num :=
  replicate (Z.to_nat n) (ofInt 0).

(** [a[i]] on a [Float32Array]: [undefined] out of range. *)
Definition f32get (a : Float32Array num) (i : Z) : jsval num := zget a i.

(** [a[i] = v] on a [Float32Array]: the value is converted to float32;
    a store out of range is ignored. *)
Definition f32set (a : Float32Array num) (i : Z) (v : jsval num) : Float32Array num :=
  if i <? 0 then a else <[Z.to_nat i := fround (toNumber v)]> a.

Definition rowEdge (row : Float32Array num) : EdgeVector num := Some <$> row.

(** [c[i]] on an edge constraint *)
Definition edgeGet (c : EdgeVector num) (i : Z) : jsval num :=
  match zget c i with
  | Some v => v
  | None => None
  end.

(** [g[x][y]]: indexing the [undefined] row [g[x]] is a [TypeError]. *)
Definition gridGet (g : Heightfield num) (x y : Z) : result (jsval num) :=
  match zget g x with
  | Some row => Ok (f32get row y)
  | None => Throw TypeError
  end.

(** [g[x][y] = v] *)
Definition gridSet (g : Heightfield num) (x y : Z) (v : jsval num)
  : result (Heightfield num) :=
  match zget g x with
  | Some row => Ok (<[Z.to_nat x := f32set row y v]> g)
  | None => Throw TypeError
  end.

(** *** Helpers of terrain-generation.js *)

(** [filterUndefined]: keeps [n] when [n === 0 || n], that is, when [n] is
    a Number other than NaN. *)
Definition keeps (v : jsval num) : option num :=
  match v with
  | Some n => if isNaN n then None else Some n
  | None => None
  end.

Definition filterUndefined (array : list (jsval num)) : list num :=
  omap keeps array.

Definition average (array : list (jsval num)) : num :=
  let array := filterUndefined array in
  jsDiv (fold_left jsAdd array (ofInt 0)) (ofInt (Z.of_nat (length array))).

(** [array.sort()] on a plain Array of Numbers: the elements are ordered
    by their strings (each is paired with its string once, then the pairs
    are sorted on it). *)
Definition arraySort (array : list num) : list num :=
  snd <$> stableSort (fun a b => strLe (fst a) (fst b))
            ((fun x => (toString x, x)) <$> array).

(** [block.sort()] on a [Float32Array]: by numeric value. *)
Definition typedSort (block : Float32Array num) : Float32Array num :=
  stableSort numLe block.

Definition median (array : list (jsval num)) : jsval num :=
  let array := arraySort (filterUndefined array) in
  let len := Z.of_nat (length array) in
  if Z.rem len 2 =? 1 then zget array ((len - 1) / 2)
  else Some (jsDiv (jsAdd (toNumber (zget array (len / 2 - 1)))
                          (toNumber (zget array (len / 2))))
                   (ofInt 2)).

(** [extractTop(terrain)]: [terrain[0]] *)
Definition extractTop (terrain : Heightfield num) : option (Float32Array num) :=
  zget terrain 0.

(** [extractBottom(terrain)]: [terrain[terrain.length - 1]] *)
Definition extractBottom (terrain : Heightfield num) : option (Float32Array num) :=
  zget terrain (Z.of_nat (length terrain) - 1).

(** [extractLeft(terrain)]: [terrain.map(row => row[row.length - 1])] *)
Definition extractLeft (terrain : Heightfield num) : EdgeVector num :=
  (fun row => f32get row (Z.of_nat (length row) - 1)) <$> terrain.

(** [extractRight(terrain)]: [terrain.map(row => row[0])] *)
Definition extractRight (terrain : Heightfield num) : EdgeVector num :=
  (fun row => f32get row 0) <$> terrain.

(** [c && cond], for a constraint [c] that is an array or [null] *)
Definition andCond (c : option (EdgeVector num)) (cond : bool)
  : option (EdgeVector num) :=
  match c with
  | Some e => if cond then Some e else None
  | None => None
  end.
End Terrain.

(** ** generateTerrain *)

Section Generator.
Context {num : Type} {NUM : JSNumber num}.

(** The values returned by the successive calls of [Math.random()]. *)
Variable random : nat -> num.

(** What the body of [generateTerrain] mutates while it builds the map:
    its local [map] and the number of values already taken from
    [Math.random]. *)
Record GenState : Type := { hmap : Heightfield num; next : nat }.

(** [rand(scale)]: [Math.random() * scale * 2 - scale] *)
Definition rand (scale : num) : M GenState num :=
  fun s => Ok (jsSub (jsMul (jsMul (random (next s)) scale) (ofInt 2)) scale,
               {| hmap := hmap s; next := S (next s) |}).

(** [map[x][y]] *)
Definition readMap (x y : Z) : M GenState (jsval num) :=
  fun s => match gridGet (hmap s) x y with
           | Ok v => Ok (v, s)
           | Throw e => Throw e
           end.

(** [map[x][y] = v] *)
Definition writeMap (x y : Z) (v : jsval num) : M GenState unit :=
  fun s => match gridSet (hmap s) x y v with
           | Ok g => Ok (tt, {| hmap := g; next := next s |})
           | Throw e => Throw e
           end.

Section Closure.
(** The variables the inner functions of [generateTerrain] close over. *)
Variables (roughness : num) (top bottom left right : option (EdgeVector num)).
Variables (size max : Z).

Definition square (x y sz : Z) : M GenState num :=
  if x <? sz then
    let! a := readMap (x + sz) (y - sz) in
    let! b := readMap (x + sz) (y + sz) in
    ret (average [a; b])
  else if max - sz <? x then
    let! a := readMap (x + sz) (y - sz) in
    let! b := readMap (x + sz) (y + sz) in
    ret (average [a; b])
  else
    let! a := readMap (x - sz) (y - sz) in
    let! b := readMap (x + sz) (y - sz) in
    let! c := readMap (x + sz) (y + sz) in
    let! d := readMap (x - sz) (y + sz) in
    ret (average [a; b; c; d]).

Definition diamond (x y sz : Z) : M GenState num :=
  if x <? sz then
    let! a := readMap x (y - sz) in
    let! b := readMap (x + sz) y in
    let! c := readMap x (y + sz) in
    ret (average [a; b; c])
  else if max - sz <? x then
    let! a := readMap x (y - sz) in
    let! b := readMap x (y + sz) in
    let! c := readMap (x - sz) y in
    ret (average [a; b; c])
  else
    let! a := readMap x (y - sz) in
    let! b := readMap (x + sz) y in
    let! c := readMap x (y + sz) in
    let! d := readMap (x - sz) y in
    ret (average [a; b; c; d]).

(** The right-hand side of the assignment in the second loop of
    [divide]. *)
Definition edgeOrDiamond (scl : num) (x y half : Z) : M GenState (jsval num) :=
  match andCond top (x =? 0) with
  | Some t => ret (edgeGet t y)
  | None =>
  match andCond bottom (x =? max) with
  | Some b => ret (edgeGet b y)
  | None =>
  match andCond left (y =? max) with
  | Some l => ret (edgeGet l x)
  | None =>
  match andCond right (y =? 0) with
  | Some r => ret (edgeGet r x)
  | None =>
      let! r := rand scl in
      let! d := diamond x y half in
      ret (Some (jsAdd r d))
  end end end end.

(** The two loops of [divide(sz)]: the square step, then the diamond
    step. *)
Definition divideLoops (sz : Z) : M GenState unit :=
  let half := sz / 2 in
  let scl := jsMul roughness (ofInt sz) in
  forEach (steps half max sz) (fun y =>
    forEach (steps half max sz) (fun x =>
      let! r := rand scl in
      let! a := square x y half in
      writeMap x y (Some (jsAdd r a)))) >>;
  forEach (steps 0 (max + 1) half) (fun y =>
    forEach (steps (Z.rem (y + half) sz) (max + 1) sz) (fun x =>
      let! v := edgeOrDiamond scl x y half in
      writeMap x y v)).

(** [divide(sz)].  The recursion halves [sz]; [fuel] bounds its depth.
    ([sz] is a power of two whenever [half >= 1], so that the integer
    quotient is the half.) *)
Fixpoint divide (fuel : nat) (sz : Z) : M GenState unit :=
  let half := sz / 2 in
  if half <? 1 then ret tt else
  match fuel with
  | O => throw FuelExhausted
  | S fuel' => divideLoops sz >>; divide fuel' half
  end.

(** One corner: [first ? first[i] : second ? second[j] : rand(scale)] *)
Definition corner (scale : num) (first : option (EdgeVector num)) (i : Z)
    (second : option (EdgeVector num)) (j : Z) : M GenState (jsval num) :=
  match first with
  | Some e => ret (edgeGet e i)
  | None =>
      match second with
      | Some e => ret (edgeGet e j)
      | None => let! r := rand scale in ret (Some r)
      end
  end.

(** "Start with random values in the corners" *)
Definition seedCorners : M GenState unit :=
  let scale := jsDiv (jsMul roughness (ofInt size)) (ofInt 2) in
  let! c := corner scale top 0 right 0 in writeMap 0 0 c >>;
  let! c := corner scale bottom 0 right max in writeMap max 0 c >>;
  let! c := corner scale bottom max left max in writeMap max max c >>;
  let! c := corner scale top max left 0 in writeMap 0 max c.

(** The body of [generateTerrain] up to and including [divide(max)]. *)
Definition buildMap : M GenState unit :=
  seedCorners >>; divide (Z.to_nat max) max.

(** "Force the top, bottom, left, and right edges to match the provided
    values": the four loops at the end of [generateTerrain], on
    [smoothed]. *)
Definition writeSmoothed (x y : Z) (v : jsval num) : M (Heightfield num) unit :=
  fun g => match gridSet g x y v with
           | Ok g' => Ok (tt, g')
           | Throw e => Throw e
           end.

Definition forceTop : M (Heightfield num) unit :=
  match top with
  | Some t => forEach (steps 0 size 1) (fun y => writeSmoothed 0 y (edgeGet t y))
  | None => ret tt
  end.

Definition forceBottom : M (Heightfield num) unit :=
  match bottom with
  | Some b => forEach (steps 0 size 1) (fun y => writeSmoothed max y (edgeGet b y))
  | None => ret tt
  end.

Definition forceLeft : M (Heightfield num) unit :=
  match left with
  | Some l => forEach (steps 0 size 1) (fun x => writeSmoothed x max (edgeGet l x))
  | None => ret tt
  end.

Definition forceRight : M (Heightfield num) unit :=
  match right with
  | Some r => forEach (steps 0 size 1) (fun x => writeSmoothed x 0 (edgeGet r x))
  | None => ret tt
  end.

Definition forceEdges : M (Heightfield num) unit :=
  forceTop >>; forceBottom >>; forceLeft >>; forceRight.
End Closure.
End Generator.

Arguments GenState num : clear implicits.

(** ** median3Filter *)

Section Median3Filter.
Context {num : Type} {NUM : JSNumber num}.

(** What [median3Filter] mutates: the result [dst] and the scratch
    [block], which is allocated once and reused by every iteration. *)
Record FilterState : Type := { dst : Heightfield num; block : Float32Array num }.

(** Lifting an expression that can throw but changes nothing. *)
Definition liftR {S A} (r : result A) : M S A :=
  fun s => match r with
           | Ok a => Ok (a, s)
           | Throw e => Throw e
           end.

(** [dst[x][y] = v] *)
Definition writeDst (x y : Z) (v : jsval num) : M FilterState unit :=
  fun s => match gridSet (dst s) x y v with
           | Ok g => Ok (tt, {| dst := g; block := block s |})
           | Throw e => Throw e
           end.

(** [block[i] = v] *)
Definition writeBlock (i : Z) (v : jsval num) : M FilterState unit :=
  fun s => Ok (tt, {| dst := dst s; block := f32set (block s) i v |}).

(** [block.sort()] *)
Definition sortBlock : M FilterState unit :=
  fun s => Ok (tt, {| dst := dst s; block := typedSort (block s) |}).

(** [block[i]] *)
Definition readBlock (i : Z) : M FilterState (jsval num) :=
  fun s => Ok (f32get (block s) i, s).

Section Body.
Variable src : Heightfield num.

(** [src[x][y]] *)
Definition readSrc (x y : Z) : M FilterState (jsval num) :=
  liftR (gridGet src x y).

(** [dst[x][y] = median(src[p1]..., ...)] for the listed cells of [src],
    read in order. *)
Fixpoint readAll (cells : list (Z * Z)) : M FilterState (list (jsval num)) :=
  match cells with
  | [] => ret []
  | (x, y) :: cells' =>
      let! v := readSrc x y in
      let! vs := readAll cells' in
      ret (v :: vs)
  end.

Definition medianInto (x y : Z) (cells : list (Z * Z)) : M FilterState unit :=
  let! vs := readAll cells in writeDst x y (median vs).

(** "Core of the 'image'" *)
Definition filterCore (N : Z) : M FilterState unit :=
  forEach (steps 0 (N - 2) 1) (fun y =>
    forEach (steps 0 (N - 2) 1) (fun x =>
      forEach (steps 0 3 1) (fun cy =>
        forEach (steps 0 3 1) (fun cx =>
          let! v := readSrc (y + cy) (x + cx) in
          writeBlock (cy * 3 + cx) v)) >>;
      sortBlock >>;
      let! m := readBlock 4 in
      writeDst (y + 1) (x + 1) m)).

(** "Corners" *)
Definition filterCorners (n : Z) : M FilterState unit :=
  medianInto 0 0 [(0, 0); (1, 0); (0, 1); (1, 1)] >>;
  medianInto n 0 [(n, 0); (n, 1); (n - 1, 0); (n - 1, 1)] >>;
  medianInto 0 n [(0, n); (1, n); (0, n - 1); (1, n - 1)] >>;
  medianInto n n [(n, n); (n, n - 1); (n - 1, n); (n - 1, n - 1)].

(** "Edges" *)
Definition filterEdges (n : Z) : M FilterState unit :=
  forEach (steps 1 n 1) (fun y =>
    medianInto y 0 [(y - 1, 0); (y, 0); (y + 1, 0);
                    (y - 1, 1); (y, 1); (y + 1, 1)] >>;
    medianInto y n [(y - 1, n); (y, n); (y + 1, n);
                    (y - 1, n - 1); (y, n - 1); (y + 1, n - 1)]) >>;
  forEach (steps 1 n 1) (fun x =>
    medianInto 0 x [(0, x - 1); (0, x); (0, x + 1);
                    (1, x - 1); (1, x); (1, x + 1)] >>;
    medianInto n x [(n, x - 1); (n, x); (n, x + 1);
                    (n - 1, x - 1); (n - 1, x); (n - 1, x + 1)]).

Definition median3Filter : result (Heightfield num) :=
  let N := Z.of_nat (length src) in
  let n := N - 1 in
  let start := {| dst := replicate (Z.to_nat N) (newFloat32Array N);
                  block := newFloat32Array (3 * 3) |} in
  match (filterCore N >>; filterCorners n >>; filterEdges n) start with
  | Ok (_, s) => Ok (dst s)
  | Throw e => Throw e
  end.
End Body.
End Median3Filter.

Arguments FilterState num : clear implicits.

(** ** generateTerrain, whole *)

Section GenerateTerrain.
Context {num : Type} {NUM : JSNumber num}.
Variable random : nat -> num.

(** [Math.pow(2, detail) + 1] for an integer [detail], when the result is an
    integer: for [detail < -52] the sum rounds to 1, and for the other
    negative [detail] it has a fractional part.  (From [detail = 53] on the
    sum rounds to [2^detail]; such a length is refused by [arrayLength]
    whichever of the two it is.) *)
Definition sizeOf (detail : Z) : option Z :=
  if detail <? -52 then Some 1
  else if detail <? 0 then None
  else Some (2 ^ detail + 1).

(** [new Array(size)] raises a [RangeError] unless [size] is an integer
    below [2^32]. *)
Definition arrayLength (detail : Z) : result Z :=
  match sizeOf detail with
  | Some size => if size <? 2 ^ 32 then Ok size else Throw RangeError
  | None => Throw RangeError
  end.

(** The state is the number of values already taken from [Math.random]. *)
Definition generateTerrain (detail : Z) (roughness : num)
    (top bottom left right : option (EdgeVector num)) : M nat (Heightfield num) :=
  fun n =>
    match arrayLength detail with
    | Throw e => Throw e
    | Ok size =>
        let max := size - 1 in
        let map := replicate (Z.to_nat size) (newFloat32Array size) in
        match buildMap random roughness top bottom left right size max
                {| hmap := map; next := n |} with
        | Throw e => Throw e
        | Ok (_, s) =>
            match median3Filter (hmap s) with
            | Throw e => Throw e
            | Ok smoothed =>
                match forceEdges top bottom left right size max smoothed with
                | Throw e => Throw e
                | Ok (_, smoothed') => Ok (smoothed', next s)
                end
            end
        end
    end.
End GenerateTerrain.

(** ** IEEE 754 Numbers

    The instance of [JSNumber] used to run the code: a Number is a binary64
    value of [SpecFloat], always kept in the canonical form of that format,
    and a [Float32Array] element is the binary32 value nearest to it (ties
    to even), read back as a binary64. *)

Module IEEE.
Definition ofZ (z : Z) : spec_float := binary_normalize 53 1024 z 0 false.

Definition add : spec_float -> spec_float -> spec_float := SFadd 53 1024.
Definition sub : spec_float -> spec_float -> spec_float := SFsub 53 1024.
Definition mul : spec_float -> spec_float -> spec_float := SFmul 53 1024.
Definition div : spec_float -> spec_float -> spec_float := SFdiv 53 1024.

Definition is_nan (x : spec_float) : bool :=
  match x with
  | S754_nan => true
  | _ => false
  end.

(** Rounding to binary32, in the canonical form of binary32. *)
Definition round32 (x : spec_float) : spec_float :=
  match x with
  | S754_finite s m e => binary_round 24 128 s m e
  | _ => x
  end.

(** The same value in the canonical form of binary64 (exact). *)
Definition widen (x : spec_float) : spec_float :=
  match x with
  | S754_finite s m e => binary_round 53 1024 s m e
  | _ => x
  end.

Definition to_f32 (x : spec_float) : spec_float := widen (round32 x).

(** The order of [%TypedArray%.prototype.sort]: by value, with [-0] before
    [+0] and NaN last. *)
Definition typed_le (a b : spec_float) : bool :=
  match SFcompare a b with
  | Some Lt => true
  | Some Gt => false
  | Some Eq =>
      match a, b with
      | S754_zero false, S754_zero true => false
      | _, _ => true
      end
  | None => is_nan b
  end.

(** *** Number::toString

    For a positive finite [v = m * 2^e]: the decimal [s * 10^(n-k)] with
    the fewest digits [k] that converts back to [v], the nearest to [v]
    among those (the even [s] on a tie), laid out as ECMAScript
    prescribes. *)

(** [v] and the ends of the set of reals that round to [v], all three as
    multiples of [1 / den]; [incl] tells whether the ends belong to it. *)
Record Neighbourhood : Type :=
  { val : Z; lo : Z; hi : Z; den : Z; incl : bool }.

Definition neighbourhood (m : positive) (e : Z) : Neighbourhood :=
  let narrow := (Pos.eqb m (2 ^ 52)) && (-1074 <? e) in
  let sh := Z.max (2 - e) 0 in       (* unit: 2^-sh, at most 2^(e-2) *)
  let unit := 2 ^ (e + sh) in        (* 2^e in that unit *)
  let v := Zpos m * unit in
  {| val := v;
     lo := v - (if narrow then unit / 4 else unit / 2);
     hi := v + unit / 2;
     den := 2 ^ sh;
     incl := Z.even (Zpos m) |}.

(** [floor (x / (d * 10^p))] *)
Definition floorScaled (x d p : Z) : Z :=
  if 0 <=? p then x / (d * 10 ^ p) else (x * 10 ^ (- p)) / d.

(** [ceil (x / (d * 10^p))] *)
Definition ceilScaled (x d p : Z) : Z := - floorScaled (- x) d p.

(** [|s * 10^p - val / den|] as a fraction *)
Definition distance (nb : Neighbourhood) (s p : Z) : Z * Z :=
  if 0 <=? p then (Z.abs (s * 10 ^ p * den nb - val nb), den nb)
  else (Z.abs (s * den nb - val nb * 10 ^ (- p)), den nb * 10 ^ (- p)).

(** Is the first candidate to be preferred: nearer, or as near and even *)
Definition better (nb : Neighbourhood) (c1 c2 : Z * Z) : bool :=
  let '(a, b) := distance nb (fst c1) (snd c1) in
  let '(c, d) := distance nb (fst c2) (snd c2) in
  match a * d ?= c * b with
  | Lt => true
  | Gt => false
  | Eq => Z.even (fst c1)
  end.

(** The candidates [(s, p)] with [k] digits and [n = p + k]: the ends of
    the range of fitting [s], and the two integers around [val / 10^p]. *)
Definition candidatesAt (nb : Neighbourhood) (k n : Z) : list (Z * Z) :=
  let p := n - k in
  let sLo := if incl nb then ceilScaled (lo nb) (den nb) p
             else floorScaled (lo nb) (den nb) p + 1 in
  let sHi := if incl nb then floorScaled (hi nb) (den nb) p
             else ceilScaled (hi nb) (den nb) p - 1 in
  let sLo := Z.max sLo (10 ^ (k - 1)) in
  let sHi := Z.min sHi (10 ^ k - 1) in
  if sHi <? sLo then [] else
  let t := floorScaled (val nb) (den nb) p in
  (fun s => (s, p)) <$>
    filter (fun s => sLo <= s <= sHi) [sLo; t; t + 1; sHi].

Definition best (nb : Neighbourhood) (cs : list (Z * Z)) : option (Z * Z) :=
  foldr (fun c acc =>
           match acc with
           | Some c' => if better nb c' c then Some c' else Some c
           | None => Some c
           end) None cs.

(** The decimal exponent [n0] of [val / den], with
    [10^(n0-1) <= val / den < 10^n0], is one of the four integers from
    [a - 1] on, for the estimate [a] below; a candidate has its [n] among
    [n0 - 1], [n0] and [n0 + 1]. *)
Definition below (nb : Neighbourhood) (n : Z) : bool :=
  if 0 <=? n then val nb <? 10 ^ n * den nb
  else val nb * 10 ^ (- n) <? den nb.

Definition exponentWindow (nb : Neighbourhood) (m : positive) (e : Z) : list Z :=
  let a := ((Z.log2 (Zpos m) + 1 + e) * 30103) / 100000 in
  let n0 := if below nb (a - 1) then a - 1
            else if below nb a then a
            else if below nb (a + 1) then a + 1
            else a + 2 in
  [n0 - 1; n0; n0 + 1].

Fixpoint shortest (fuel : nat) (nb : Neighbourhood) (window : list Z) (k : Z)
  : option (Z * Z * Z) :=
  match fuel with
  | O => None
  | S fuel' =>
      match best nb (window ≫= candidatesAt nb k) with
      | Some (s, p) => Some (s, p + k, k)
      | None => shortest fuel' nb window (k + 1)
      end
  end.

Definition zeros (n : Z) : string :=
  string_of_list_ascii (replicate (Z.to_nat n) "0"%char).

Definition exponentPart (n : Z) : string :=
  let sign : string := if 0 <=? n - 1 then "+" else "-" in
  let digits : string := pretty (Z.abs (n - 1)) in
  "e" +:+ sign +:+ digits.

Definition layout (s n k : Z) : string :=
  let digits : string := pretty s in
  if (k <=? n) && (n <=? 21) then digits +:+ zeros (n - k)
  else if (0 <? n) && (n <=? 21) then
    substring 0 (Z.to_nat n) digits +:+ "." +:+
    substring (Z.to_nat n) (Z.to_nat (k - n)) digits
  else if (-6 <? n) && (n <=? 0) then
    "0." +:+ zeros (- n) +:+ digits
  else if k =? 1 then digits +:+ exponentPart n
  else substring 0 1 digits +:+ "." +:+
       substring 1 (Z.to_nat (k - 1)) digits +:+ exponentPart n.

Definition to_string (x : spec_float) : string :=
  match x with
  | S754_nan => "NaN"
  | S754_zero _ => "0"
  | S754_infinity s => if s then "-Infinity" else "Infinity"
  | S754_finite sgn m e =>
      let body :=
        let nb := neighbourhood m e in
        match shortest 17 nb (exponentWindow nb m e) 1 with
        | Some (s, n, k) => layout s n k
        | None => "?"
        end in
      if sgn then "-" +:+ body else body
  end.

#[global] Instance number : JSNumber spec_float :=
  {| ofInt := ofZ;
     jsNaN := S754_nan;
     jsAdd := add;
     jsSub := sub;
     jsMul := mul;
     jsDiv := div;
     isNaN := is_nan;
     fround := to_f32;
     numLe := typed_le;
     toString := to_string |}.
End IEEE.

(** ** flight-sim.js: the chunk store *)

Section ChunkStore.
Context {num : Type} {NUM : JSNumber num}.
Variable random : nat -> num.

(** The module-level state the terrain code works on: the object
    [chunkHeights], and how many values [Math.random] has produced. *)
Record World : Type :=
  { chunkHeights : gmap string (list (list num)); drawn : nat }.

(** The template string [`${x},${y}`] for integer coordinates: the decimal
    digits, with a minus sign for a negative one.  This is what the
    template string prints for the integers that are Numbers of their
    own, those of magnitude below [2^53]; the chunk coordinates are taken
    to be such integers. *)
Definition chunkKey (x y : Z) : string := pretty x +:+ "," +:+ pretty y.

Definition neighborDirections : list (Z * Z) :=
  [(0, 0); (1, 0); (-1, 0);
   (0, 1); (0, -1);
   (1, 1); (-1, -1);
   (1, -1); (-1, 1)].

(** The number of values of [Math.random] three.js takes for the [uuid]
    of an object it creates. *)
Definition uuidDraws : nat := 4.

(** What [addTerrainMesh(x, y)] does to this state.  It builds the mesh
    shown on screen from [chunkHeights[key]], which it only reads (the
    mesh is modelled in [Scene.addTerrainMesh] below); the two three.js
    objects it creates, [new THREE.PlaneGeometry(...)] and
    [new THREE.Mesh(...)], each get a [uuid]. *)
Definition addTerrainMesh (x y : Z) : M World unit :=
  fun w =>
    let key := chunkKey x y in
    match chunkHeights w !! key with
    | None => Ok (tt, w)
    | Some _ =>
        Ok (tt, {| chunkHeights := chunkHeights w;
                   drawn := (drawn w + uuidDraws + uuidDraws)%nat |})
    end.

(** [addTerrainChunk(x, y)] *)
Definition addTerrainChunk (x y : Z) : M World unit :=
  fun w =>
    let key := chunkKey x y in
    match chunkHeights w !! key with
    | Some _ => Ok (tt, w)
    | None =>
        let topIndex := chunkKey x (y + 1) in
        let bottomIndex := chunkKey x (y - 1) in
        let leftIndex := chunkKey (x - 1) y in
        let rightIndex := chunkKey (x + 1) y in
        let topEdge :=
          match chunkHeights w !! topIndex with
          | Some c => rowEdge <$> extractBottom c
          | None => None
          end in
        let bottomEdge :=
          match chunkHeights w !! bottomIndex with
          | Some c => rowEdge <$> extractTop c
          | None => None
          end in
        let leftEdge :=
          match chunkHeights w !! leftIndex with
          | Some c => Some (extractRight c)
          | None => None
          end in
        let rightEdge :=
          match chunkHeights w !! rightIndex with
          | Some c => Some (extractLeft c)
          | None => None
          end in
        match generateTerrain random 5 (ofInt 5)
                topEdge bottomEdge leftEdge rightEdge (drawn w) with
        | Throw e => Throw e
        | Ok (newTerrain, n) =>
            addTerrainMesh x y
              {| chunkHeights := <[key := newTerrain]> (chunkHeights w);
                 drawn := n |}
        end
    end.

Definition generateNeighboringChunks (x y : Z) : M World unit :=
  addTerrainChunk x y >>;
  forEach neighborDirections (fun d => addTerrainChunk (x + fst d) (y + snd d)).
End ChunkStore.

Arguments World num : clear implicits.

(** ** flight-sim.js: the terrain meshes *)

Module Scene.
Section Scene.
Context {num : Type} {NUM : JSNumber num}.
Variable random : nat -> num.

Definition SQUARE_SIZE : Z := 2000.

(** What [addTerrainMesh] hands to three.js for one chunk: the number of
    segments of the [PlaneGeometry] in each direction, the calls
    [geometry.attributes.position.setZ(vertexIndex, z)] in the order they
    are made, and the arguments of [mesh.position.set].  (The rotation and
    the shadow flags are the same for every mesh and are left out.) *)
Record Mesh : Type := {
  segments : Z;
  heights : list (Z * jsval num);
  position : Z * Z * Z;
}.

(** The terrain state of the program: the store, and the meshes added to
    [SCENE], oldest first. *)
Record State : Type := { world : World num; scene : list Mesh }.

(** [geometry.attributes.position.setZ(vertexIndex, z)] *)
Definition setZ (vertexIndex : Z) (z : jsval num) : M (list (Z * jsval num)) unit :=
  fun calls => Ok (tt, calls ++ [(vertexIndex, z)]).

(** The two loops of [addTerrainMesh]. *)
Definition setHeights (terrainData : Heightfield num) (size : Z)
  : M (list (Z * jsval num)) unit :=
  forEach (steps 0 (size + 1) 1) (fun i =>
    forEach (steps 0 (size + 1) 1) (fun j =>
      let vertexIndex := i * (size + 1) + j in
      let! z := liftR (gridGet terrainData i j) in
      setZ vertexIndex z)).

(** [addTerrainMesh(x, y)].  The geometry and the mesh it creates each
    take [uuidDraws] values from [Math.random], before the loops
    run. *)
Definition addTerrainMesh (x y : Z) : M State unit :=
  fun s =>
    let key := chunkKey x y in
    match chunkHeights (world s) !! key with
    | None => Ok (tt, s)
    | Some terrainData =>
        let size := Z.of_nat (length terrainData) - 1 in
        let w := {| chunkHeights := chunkHeights (world s);
                    drawn := (drawn (world s) + uuidDraws + uuidDraws)%nat |} in
        match setHeights terrainData size [] with
        | Throw e => Throw e
        | Ok (_, calls) =>
            let mesh := {| segments := size;
                           heights := calls;
                           position := (x * SQUARE_SIZE, -100, y * SQUARE_SIZE) |} in
            Ok (tt, {| world := w; scene := scene s ++ [mesh] |})
        end
    end.

(** [addTerrainChunk(x, y)], with its call of [addTerrainMesh]. *)
Definition addTerrainChunk (x y : Z) : M State unit :=
  fun s =>
    let w := world s in
    let key := chunkKey x y in
    match chunkHeights w !! key with
    | Some _ => Ok (tt, s)
    | None =>
        let topIndex := chunkKey x (y + 1) in
        let bottomIndex := chunkKey x (y - 1) in
        let leftIndex := chunkKey (x - 1) y in
        let rightIndex := chunkKey (x + 1) y in
        let topEdge :=
          match chunkHeights w !! topIndex with
          | Some c => rowEdge <$> extractBottom c
          | None => None
          end in
        let bottomEdge :=
          match chunkHeights w !! bottomIndex with
          | Some c => rowEdge <$> extractTop c
          | None => None
          end in
        let leftEdge :=
          match chunkHeights w !! leftIndex with
          | Some c => Some (extractRight c)
          | None => None
          end in
        let rightEdge :=
          match chunkHeights w !! rightIndex with
          | Some c => Some (extractLeft c)
          | None => None
          end in
        match generateTerrain random 5 (ofInt 5)
                topEdge bottomEdge leftEdge rightEdge (drawn w) with
        | Throw e => Throw e
        | Ok (newTerrain, n) =>
            addTerrainMesh x y
              {| world := {| chunkHeights := <[key := newTerrain]> (chunkHeights w);
                             drawn := n |};
                 scene := scene s |}
        end
    end.

Definition generateNeighboringChunks (x y : Z) : M State unit :=
  addTerrainChunk x y >>;
  forEach neighborDirections (fun d => addTerrainChunk (x + fst d) (y + snd d)).
End Scene.

Arguments Mesh num : clear implicits.
Arguments State num : clear implicits.
End Scene.

(** * Vocabulary of the statements *)

(** Total correctness in the monad: from a state satisfying [P] the
    computation returns, without exception, a value and a state satisfying
    [Q]. *)
Definition hoare {S A} (P : S -> Prop) (m : M S A) (Q : A -> S -> Prop) : Prop :=
  forall s, P s -> exists a s', m s = Ok (a, s') /\ Q a s'.

(** A grid of [n] rows of [n] elements. *)
Definition squareGrid {num : Type} (n : Z) (g : list (list num)) : Prop :=
  Z.of_nat (length g) = n /\ Forall (fun row => Z.of_nat (length row) = n) g.

(** The element at [(x, y)], when both indices are in range. *)
Definition cellAt {num : Type} (g : list (list num)) (x y : Z) : option num :=
  match zget g x with
  | Some row => zget row y
  | None => None
  end.

(** The map under construction is a [size] by [size] grid. *)
Definition mapOk {num : Type} (size : Z) (s : GenState num) : Prop :=
  squareGrid size (hmap s).

(** The result under construction is an [N] by [N] grid with the property
    [GP]. *)
Definition dstOk {num : Type} (N : Z) (GP : list (list num) -> Prop)
    (s : FilterState num) : Prop :=
  squareGrid N (dst s) /\ GP (dst s).

(** What a store into a [Float32Array] leaves in the array. *)
Definition stored {num : Type} {NUM : JSNumber num} (v : option num) : num :=
  fround (toNumber v).

(** The value left in a cell by the four loops that force the edges, in
    their order: each later loop overwrites the earlier ones. *)
Definition forcedCell {num : Type} {NUM : JSNumber num}
    (top bottom left right : option (list (option num))) (max : Z)
    (i j : Z) (old : num) : num :=
  let v1 := match top with
            | Some t => if i =? 0 then stored (edgeGet t j) else old
            | None => old
            end in
  let v2 := match bottom with
            | Some b => if i =? max then stored (edgeGet b j) else v1
            | None => v1
            end in
  let v3 := match left with
            | Some l => if j =? max then stored (edgeGet l i) else v2
            | None => v2
            end in
  match right with
  | Some r => if j =? 0 then stored (edgeGet r i) else v3
  | None => v3
  end.

(** A Number that a [Float32Array] holds unchanged. *)
Definition isFloat32 {num : Type} {NUM : JSNumber num} (v : option num) : Prop :=
  exists x, v = Some x /\ fround x = x.

(** An edge constraint fit for a grid of side [size]: [size] Numbers that are
    float32 values, as the elements of a [Float32Array] are. *)
Definition validEdge {num : Type} {NUM : JSNumber num} (size : Z)
    (e : list (option num)) : Prop :=
  Z.of_nat (length e) = size /\ Forall isFloat32 e.

Definition validConstraint {num : Type} {NUM : JSNumber num} (size : Z)
    (c : option (list (option num))) : Prop :=
  match c with
  | Some e => validEdge size e
  | None => True
  end.

(** The constraint [c], if there is one, has [v] at index [i]. *)
Definition agreesAt {num : Type} {NUM : JSNumber num}
    (c : option (list (option num))) (i : Z) (v : option num) : Prop :=
  match c with
  | Some e => edgeGet e i = v
  | None => True
  end.

(** [rand(scale)] when [Math.random()] returns [r] *)
Definition randValue {num : Type} {NUM : JSNumber num} (scale r : num) : num :=
  jsSub (jsMul (jsMul r scale) (ofInt 2)) scale.

(** The seed of a corner: the element [i] of the constraint [first] if it is
    provided, else the element [j] of [second] if that one is, else
    [rand(scale)] on draw number [k]. *)
Definition seedValue {num : Type} {NUM : JSNumber num} (random : nat -> num)
    (scale : num) (first : option (list (option num))) (i : Z)
    (second : option (list (option num))) (j : Z) (k : nat) : option num :=
  match first with
  | Some e => edgeGet e i
  | None =>
      match second with
      | Some e => edgeGet e j
      | None => Some (randValue scale (random k))
      end
  end.

(** How many random numbers that takes. *)
Definition seedDraws {num : Type} (first second : option (list (option num))) : nat :=
  match first, second with
  | None, None => 1
  | _, _ => 0
  end.

(** The median by numeric order, as the specification has it: the middle
    element of the values sorted by value, or the mean of the two middle
    ones. *)
Definition numericMedian {num : Type} {NUM : JSNumber num} (values : list num) : num :=
  let sorted := stableSort numLe values in
  let len := Z.of_nat (length sorted) in
  if Z.rem len 2 =? 1 then toNumber (zget sorted ((len - 1) / 2))
  else jsDiv (jsAdd (toNumber (zget sorted (len / 2 - 1)))
                    (toNumber (zget sorted (len / 2))))
             (ofInt 2).

(** Every element of the grid is a float32. *)
Definition float32Grid {num : Type} {NUM : JSNumber num} (g : list (list num)) : Prop :=
  forall i j v, cellAt g i j = Some v -> fround v = v.

Fixpoint commaFree (s : string) : Prop :=
  match s with
  | EmptyString => True
  | String c s' => c <> ","%char /\ commaFree s'
  end.

(** The constraints [addTerrainChunk(x, y)] takes from the store. *)
Definition topEdgeOf {num : Type} (w : World num) (x y : Z)
  : option (list (option num)) :=
  match chunkHeights w !! chunkKey x (y + 1) with
  | Some c => rowEdge <$> extractBottom c
  | None => None
  end.

Definition bottomEdgeOf {num : Type} (w : World num) (x y : Z)
  : option (list (option num)) :=
  match chunkHeights w !! chunkKey x (y - 1) with
  | Some c => rowEdge <$> extractTop c
  | None => None
  end.

Definition leftEdgeOf {num : Type} (w : World num) (x y : Z)
  : option (list (option num)) :=
  match chunkHeights w !! chunkKey (x - 1) y with
  | Some c => Some (extractRight c)
  | None => None
  end.

Definition rightEdgeOf {num : Type} (w : World num) (x y : Z)
  : option (list (option num)) :=
  match chunkHeights w !! chunkKey (x + 1) y with
  | Some c => Some (extractLeft c)
  | None => None
  end.

(** The chunks requested by [generateNeighboringChunks(x, y)], in order. *)
Definition requested (x y : Z) : list (Z * Z) :=
  [(x, y); (x + 0, y + 0); (x + 1, y + 0); (x + -1, y + 0);
   (x + 0, y + 1); (x + 0, y + -1);
   (x + 1, y + 1); (x + -1, y + -1);
   (x + 1, y + -1); (x + -1, y + 1)].

(** The stores the program can be in: empty at first, then changed by
    requests for chunks only ([generateNeighboringChunks] is a sequence of
    such requests). *)
Inductive reachable {num : Type} {NUM : JSNumber num} (random : nat -> num)
  : World num -> Prop :=
  | reachable_start (n : nat) :
      reachable random {| chunkHeights := ∅; drawn := n |}
  | reachable_request (w w' : World num) (x y : Z) :
      reachable random w -> addTerrainChunk random x y w = Ok (tt, w') ->
      reachable random w'.

(** A stored chunk: 33 by 33 float32 values. *)
Definition chunkOk {num : Type} {NUM : JSNumber num} (c : list (list num)) : Prop :=
  squareGrid 33 c /\ float32Grid c.

(** The neighbouring chunks present agree along their common border: across
    a vertical border everywhere, across a horizontal border everywhere but
    in the two end cells. *)
Definition seamless {num : Type} {NUM : JSNumber num} (w : World num) : Prop :=
  (forall k c, chunkHeights w !! k = Some c -> chunkOk c) /\
  (forall x y a b,
     chunkHeights w !! chunkKey x y = Some a ->
     chunkHeights w !! chunkKey (x + 1) y = Some b ->
     extractLeft b = extractRight a) /\
  (forall x y a t,
     chunkHeights w !! chunkKey x y = Some a ->
     chunkHeights w !! chunkKey x (y + 1) = Some t ->
     forall j, 0 < j < 32 -> cellAt a 0 j = cellAt t 32 j).

(** ** Inputs of the examples *)

(** The Numbers with the given integer values, as an array. *)
Definition numbers (l : list Z) : list (option spec_float) :=
  (fun z => Some (IEEE.ofZ z)) <$> l.

(** [a / b] *)
Definition ratio (a b : Z) : spec_float := IEEE.div (IEEE.ofZ a) (IEEE.ofZ b).

(** [Math.random()] returning 0.5 at every call, so that [rand] returns 0. *)
Definition evenDraws (k : nat) : spec_float := ratio 1 2.

(** [Math.random()] returning the listed values, then 0.5. *)
Definition listedDraws (l : list spec_float) (k : nat) : spec_float :=
  nth k l (ratio 1 2).

(** Draws for which the map of a call with [detail = 1] and [roughness = 8] is
    [[0, 2, 0], [10, 12, 4], [0, 4, 0]]. *)
Definition skewedDraws : nat -> spec_float :=
  listedDraws [ratio 1 2; ratio 1 2; ratio 1 2; ratio 1 2;
               ratio 7 8; ratio 11 16; ratio 7 16].

(** Draws that differ from call to call: [(37 k + 11) mod 64 / 64]. *)
Definition variedDraws (k : nat) : spec_float :=
  ratio ((Z.of_nat k * 37 + 11) mod 64) 64.

(** The right constraint [[0.1, 6, 7]]: its first element is not a float32. *)
Definition tenthFirst : list (option spec_float) :=
  [Some (ratio 1 10); Some (IEEE.ofZ 6); Some (IEEE.ofZ 7)].

(** The store before any chunk is requested. *)
Definition emptyWorld : World spec_float := {| chunkHeights := ∅; drawn := 0 |}.

(** A store holding one chunk, at (0, 0). *)
Definition oneChunk : World spec_float :=
  {| chunkHeights := {[ chunkKey 0 0 := [[IEEE.ofZ 1]] ]}; drawn := 0 |}.

(** ** Further vocabulary *)

(** An integer that is a Number of its own: of magnitude below [2^53]. *)
Definition safeInteger (z : Z) : Prop := - 2 ^ 53 < z < 2 ^ 53.

(** The values [src[x][y]] of the listed cells, in order. *)
Definition readCells {num : Type} (src : list (list num)) (cells : list (Z * Z))
  : list (option num) :=
  (fun c => cellAt src (fst c) (snd c)) <$> cells.

(** The cells copied into [block] for the 3 by 3 window whose first cell is
    [(y, x)], by increasing index [cy * 3 + cx]. *)
Definition window (y x : Z) : list (Z * Z) :=
  [(y, x); (y, x + 1); (y, x + 2);
   (y + 1, x); (y + 1, x + 1); (y + 1, x + 2);
   (y + 2, x); (y + 2, x + 1); (y + 2, x + 2)].

(** The arguments of the call of [median] that computes the border cell
    [(i, j)] of a grid whose last index is [n]. *)
Definition medianCells (n i j : Z) : list (Z * Z) :=
  if i =? 0 then
    if j =? 0 then [(0, 0); (1, 0); (0, 1); (1, 1)]
    else if j =? n then [(0, n); (1, n); (0, n - 1); (1, n - 1)]
    else [(0, j - 1); (0, j); (0, j + 1); (1, j - 1); (1, j); (1, j + 1)]
  else if i =? n then
    if j =? 0 then [(n, 0); (n, 1); (n - 1, 0); (n - 1, 1)]
    else if j =? n then [(n, n); (n, n - 1); (n - 1, n); (n - 1, n - 1)]
    else [(n, j - 1); (n, j); (n, j + 1); (n - 1, j - 1); (n - 1, j); (n - 1, j + 1)]
  else if j =? 0 then
    [(i - 1, 0); (i, 0); (i + 1, 0); (i - 1, 1); (i, 1); (i + 1, 1)]
  else
    [(i - 1, n); (i, n); (i + 1, n); (i - 1, n - 1); (i, n - 1); (i + 1, n - 1)].

(** The cell [(i, j)] of [median3Filter(src)] as a function of [src] alone. *)
Definition smoothedCell {num : Type} {NUM : JSNumber num} (src : list (list num))
    (n i j : Z) : num :=
  if (0 <? i) && (i <? n) && (0 <? j) && (j <? n) then
    stored (zget (typedSort (stored <$> readCells src (window (i - 1) (j - 1)))) 4)
  else
    stored (median (readCells src (medianCells n i j))).

(** The cell [(i, j)] of [g] already holds its final value. *)
Definition settledAt {num : Type} {NUM : JSNumber num} (src : list (list num)) (n : Z)
    (g : list (list num)) (i j : Z) : Prop :=
  cellAt g i j = Some (smoothedCell src n i j).

Definition filterInv {num : Type} (N : Z) (s : FilterState num) : Prop :=
  squareGrid N (dst s) /\ length (block s) = 9%nat.

Definition keepsSettled {num : Type} {NUM : JSNumber num} (src : list (list num))
    (n : Z) (s s' : FilterState num) : Prop :=
  forall i j, settledAt src n (dst s) i j -> settledAt src n (dst s') i j.

(** The calls of [setZ] that give every vertex of a plane of [N] by [N]
    vertices the height of the cell of [c] with the same row-major
    index: vertex [i * N + j] gets [c[i][j]]. *)
Definition rowMajorHeights {num : Type} (N : Z) (c : list (list num))
    (calls : list (Z * option num)) : Prop :=
  Z.of_nat (length calls) = N * N /\
  forall i j, 0 <= i < N -> 0 <= j < N ->
    calls !! Z.to_nat (i * N + j) = Some (i * N + j, cellAt c i j).

(** The states of the terrain the program can be in: no chunk and no mesh
    at first, then changed by requests for chunks only. *)
Inductive sceneReachable {num : Type} {NUM : JSNumber num} (random : nat -> num)
  : Scene.State num -> Prop :=
  | scene_start (n : nat) :
      sceneReachable random
        {| Scene.world := {| chunkHeights := ∅; drawn := n |}; Scene.scene := [] |}
  | scene_request (s s' : Scene.State num) (x y : Z) :
      sceneReachable random s -> Scene.addTerrainChunk random x y s = Ok (tt, s') ->
      sceneReachable random s'.

(** The mesh of the chunk at [(x, y)]. *)
Definition meshAt (x y : Z) : Z * Z * Z :=
  (x * Scene.SQUARE_SIZE, -100, y * Scene.SQUARE_SIZE).

(** The scene shows the store: every mesh is the mesh of a stored chunk,
    with the heights of that chunk. *)
Definition sceneShowsStore {num : Type} (s : Scene.State num) : Prop :=
  NoDup (Scene.position <$> Scene.scene s) /\
  (forall x y, meshAt x y ∈ Scene.position <$> Scene.scene s <->
               is_Some (chunkHeights (Scene.world s) !! chunkKey x y)) /\
  forall m, m ∈ Scene.scene s ->
    exists x y c,
      Scene.position m = meshAt x y /\
      chunkHeights (Scene.world s) !! chunkKey x y = Some c /\
      Scene.segments m = 32 /\
      rowMajorHeights 33 c (Scene.heights m).

(** The first [n] calls are those for the vertices [0 .. n-1], in order. *)
Definition heightsUpTo {num : Type} (N : Z) (c : list (list num)) (n : nat)
    (calls : list (Z * option num)) : Prop :=
  length calls = n /\
  forall k, (k < n)%nat ->
    calls !! k = Some (Z.of_nat k, cellAt c (Z.of_nat k / N) (Z.of_nat k mod N)).

(** 1 for a constraint that is provided, 0 for [null]. *)
Definition provided {A : Type} (c : option A) : Z :=
  match c with
  | Some _ => 1
  | None => 0
  end.

(** [c && cond] as a truth value. *)
Definition holds {A : Type} (c : option A) (cond : bool) : bool :=
  match c with
  | Some _ => cond
  | None => false
  end.

(** The cell [(x, y)] lies on the edge of a provided constraint: the four
    tests of the second loop of [divide]. *)
Definition onConstrainedEdge {A : Type} (top bottom left right : option A)
    (max x y : Z) : bool :=
  holds top (x =? 0) || holds bottom (x =? max) ||
  holds left (y =? max) || holds right (y =? 0).

(** The map [[0, 2, 0], [10, 12, 4], [0, 4, 0]]. *)
Definition skewedMap : list (list spec_float) :=
  [IEEE.ofZ <$> [0; 2; 0]; IEEE.ofZ <$> [10; 12; 4]; IEEE.ofZ <$> [0; 4; 0]].

(** A value that [filterUndefined] drops: [undefined] or NaN. *)
Definition dropped (v : option spec_float) : Prop := keeps v = None.

(** A finite Number that is not negative (and not [-0]), as [Math.random()]
    returns. *)
Definition nonNegative (r : spec_float) : Prop :=
  match r with
  | S754_zero false | S754_finite false _ _ => True
  | _ => False
  end.

(** Every cell of the grid is [+0]. *)
Definition allZero (g : list (list spec_float)) : Prop :=
  forall i j v, cellAt g i j = Some v -> v = IEEE.ofZ 0.

(** The map under construction is a [size] by [size] grid of zeros. *)
Definition zeroMap (size : Z) (s : GenState spec_float) : Prop :=
  squareGrid size (hmap s) /\ allZero (hmap s).

(** * Properties *)

(** ** Reasoning about the monad *)

Section MonadFacts.
Context {S : Type}.

Lemma hoare_ret {A} (P : S -> Prop) (a : A) (Q : A -> S -> Prop) :
  (forall s, P s -> Q a s) -> hoare P (ret a) Q.
Proof. intros H s Hs. exists a, s. split; [reflexivity | auto]. Qed.

Lemma hoare_bind {A B} (P : S -> Prop) (m : M S A) (Q : A -> S -> Prop)
    (f : A -> M S B) (R : B -> S -> Prop) :
  hoare P m Q -> (forall a, hoare (Q a) (f a) R) -> hoare P (bind m f) R.
Proof.
  intros Hm Hf s Hs. destruct (Hm s Hs) as (a & s1 & E1 & Q1).
  destruct (Hf a s1 Q1) as (b & s2 & E2 & R2).
  exists b, s2. split; [| assumption]. unfold bind. rewrite E1. exact E2.
Qed.

Lemma hoare_weaken {A} (P P' : S -> Prop) (m : M S A) (Q Q' : A -> S -> Prop) :
  hoare P' m Q' -> (forall s, P s -> P' s) -> (forall a s, Q' a s -> Q a s) ->
  hoare P m Q.
Proof.
  intros H HP HQ s Hs. destruct (H s (HP s Hs)) as (a & s' & E & Q1).
  exists a, s'. auto.
Qed.

Lemma hoare_forEach {A} (I : S -> Prop) (l : list A) (body : A -> M S unit) :
  (forall a, a ∈ l -> hoare I (body a) (fun _ => I)) ->
  hoare I (forEach l body) (fun _ => I).
Proof.
  induction l as [| a l IH]; intros Hbody; simpl.
  - apply hoare_ret. auto.
  - eapply hoare_bind.
    + apply Hbody. left.
    + intros u. apply IH. intros b Hb. apply Hbody. right. exact Hb.
Qed.

Lemma hoare_liftR {A} (I : S -> Prop) (r : result A) (Q : A -> S -> Prop) :
  (exists a, r = Ok a /\ forall s, I s -> Q a s) -> hoare I (liftR r) Q.
Proof.
  intros (a & -> & H) s Hs. exists a, s. split; [reflexivity | auto].
Qed.
End MonadFacts.

(** ** Loop indices *)

Lemma elem_of_steps (lo hi step x : Z) :
  0 < step -> x ∈ steps lo hi step ->
  exists k, 0 <= k /\ x = lo + k * step /\ x < hi.
Proof.
  intros Hstep Hx. unfold steps in Hx.
  apply list_elem_of_fmap in Hx as (k & -> & Hk).
  apply elem_of_seq in Hk. exists (Z.of_nat k). split; [lia |]. split; [reflexivity |].
  destruct Hk as [_ Hk]. simpl in Hk.
  assert (Hc : Z.of_nat k < (hi - lo + step - 1) / step) by lia.
  assert (Hd := Z.mul_div_le (hi - lo + step - 1) step Hstep).
  nia.
Qed.

Lemma steps_unit (n : Z) : steps 0 n 1 = Z.of_nat <$> seq 0 (Z.to_nat n).
Proof.
  unfold steps. replace ((n - 0 + 1 - 1) / 1) with n by (rewrite Z.div_1_r; lia).
  apply list_fmap_ext. intros _ k _. lia.
Qed.

(** ** Arrays *)

Lemma zget_lookup {A} (l : list A) (i : Z) :
  0 <= i -> zget l i = l !! Z.to_nat i.
Proof. intros H. unfold zget. destruct (Z.ltb_spec i 0); [lia | reflexivity]. Qed.

Lemma zget_neg {A} (l : list A) (i : Z) : i < 0 -> zget l i = None.
Proof. intros H. unfold zget. destruct (Z.ltb_spec i 0); [reflexivity | lia]. Qed.

Lemma zget_is_Some {A} (l : list A) (i : Z) :
  0 <= i < Z.of_nat (length l) -> is_Some (zget l i).
Proof.
  intros H. rewrite zget_lookup by lia. apply lookup_lt_is_Some. lia.
Qed.

Lemma zget_Some_range {A} (l : list A) (i : Z) (x : A) :
  zget l i = Some x -> 0 <= i < Z.of_nat (length l).
Proof.
  unfold zget. destruct (Z.ltb_spec i 0) as [Hi | Hi]; [discriminate |].
  intros Hx. apply lookup_lt_Some in Hx. lia.
Qed.

Section Grids.
Context {num : Type} {NUM : JSNumber num}.

Lemma length_f32set (a : list num) (i : Z) (v : option num) :
  length (f32set a i v) = length a.
Proof. unfold f32set. destruct (i <? 0); [reflexivity | apply length_insert]. Qed.

Lemma zget_f32set (a : list num) (i j : Z) (v : option num) :
  zget (f32set a i v) j =
  match zget a j with
  | Some old => Some (if j =? i then fround (toNumber v) else old)
  | None => None
  end.
Proof.
  unfold f32set, zget. destruct (Z.ltb_spec j 0) as [Hj | Hj]; [reflexivity |].
  destruct (Z.ltb_spec i 0) as [Hi | Hi].
  - destruct (a !! Z.to_nat j); [| reflexivity].
    destruct (Z.eqb_spec j i); [lia | reflexivity].
  - destruct (Z.eqb_spec j i) as [-> | Hne].
    + destruct (a !! Z.to_nat i) eqn:E.
      * apply list_lookup_insert_eq. eapply lookup_lt_Some; eauto.
      * apply lookup_ge_None. rewrite length_insert. apply lookup_ge_None. exact E.
    + rewrite list_lookup_insert_ne by lia. destruct (a !! Z.to_nat j); reflexivity.
Qed.

Lemma squareGrid_new (n : Z) :
  0 <= n -> squareGrid n (replicate (Z.to_nat n) (newFloat32Array n)).
Proof.
  intros Hn. split.
  - rewrite length_replicate. lia.
  - apply Forall_replicate. unfold newFloat32Array. rewrite length_replicate. lia.
Qed.

Lemma gridGet_ok (n : Z) (g : list (list num)) (x y : Z) :
  squareGrid n g -> 0 <= x < n -> exists v, gridGet g x y = Ok v.
Proof.
  intros [Hlen _] Hx. unfold gridGet.
  destruct (zget_is_Some g x) as [row ->]; [lia |]. eauto.
Qed.

Lemma gridSet_ok (n : Z) (g : list (list num)) (x y : Z) (v : option num) :
  squareGrid n g -> 0 <= x < n ->
  exists g', gridSet g x y v = Ok g' /\ squareGrid n g'.
Proof.
  intros [Hlen Hrows] Hx. unfold gridSet.
  destruct (zget_is_Some g x) as [row Hrow]; [lia |]. rewrite Hrow.
  eexists. split; [reflexivity |]. split.
  - rewrite length_insert. exact Hlen.
  - apply Forall_insert; [exact Hrows |]. rewrite length_f32set.
    rewrite zget_lookup in Hrow by lia.
    eapply Forall_lookup_1 in Hrows; eauto.
Qed.

Lemma gridSet_length (g g' : list (list num)) (x y : Z) (v : option num) :
  gridSet g x y v = Ok g' -> length g' = length g.
Proof.
  unfold gridSet. destruct (zget g x); [| discriminate].
  intros [= <-]. apply length_insert.
Qed.

(** A store changes the cell it addresses, if there is one, and no other. *)
Lemma gridSet_cellAt (g g' : list (list num)) (x y : Z) (v : option num) (i j : Z) :
  gridSet g x y v = Ok g' ->
  cellAt g' i j =
  match cellAt g i j with
  | Some old => Some (if (i =? x) && (j =? y) then fround (toNumber v) else old)
  | None => None
  end.
Proof.
  unfold gridSet. destruct (zget g x) as [row |] eqn:Hrow; [| discriminate].
  intros [= <-]. unfold cellAt.
  pose proof (zget_Some_range _ _ _ Hrow) as Hx.
  destruct (Z.ltb_spec i 0) as [Hi | Hi].
  { rewrite !zget_neg by lia. reflexivity. }
  rewrite !(zget_lookup _ i) by lia.
  destruct (Z.eqb_spec i x) as [-> | Hne].
  - rewrite list_lookup_insert_eq by lia.
    rewrite zget_lookup in Hrow by lia. rewrite Hrow.
    rewrite zget_f32set. simpl. reflexivity.
  - rewrite list_lookup_insert_ne by lia.
    destruct (g !! Z.to_nat i) as [r |]; [| reflexivity].
    simpl. destruct (zget r j); reflexivity.
Qed.

Lemma cellAt_is_Some (n : Z) (g : list (list num)) (i j : Z) :
  squareGrid n g -> 0 <= i < n -> 0 <= j < n -> is_Some (cellAt g i j).
Proof.
  intros [Hlen Hrows] Hi Hj. unfold cellAt.
  destruct (zget_is_Some g i) as [row Hrow]; [lia |]. rewrite Hrow.
  apply zget_is_Some. rewrite zget_lookup in Hrow by lia.
  eapply Forall_lookup_1 in Hrows; eauto. simpl in Hrows. lia.
Qed.
End Grids.

(** ** The generator raises no exception *)

Section GeneratorSafety.
Context {num : Type} {NUM : JSNumber num}.
Variable random : nat -> num.
Variables (roughness : num) (top bottom left right : option (list (option num))).
Variables (size max d : Z).
Hypothesis Hsize : size = max + 1.
Hypothesis Hd : 0 <= d.
Hypothesis Hmax : max = 2 ^ d.

Lemma max_pos : 1 <= max.
Proof. rewrite Hmax. pose proof (Z.pow_pos_nonneg 2 d). lia. Qed.

Lemma rand_ok (scale : num) : hoare (@mapOk num size) (rand random scale) (fun _ => (@mapOk num size)).
Proof. intros s Hs. eexists _, _. split; [reflexivity | exact Hs]. Qed.

Lemma readMap_ok (x y : Z) :
  0 <= x <= max -> hoare (@mapOk num size) (readMap x y) (fun _ => (@mapOk num size)).
Proof.
  intros Hx s Hs. unfold readMap.
  destruct (gridGet_ok size (hmap s) x y Hs) as [v ->]; [lia |]. eauto.
Qed.

Lemma writeMap_ok (x y : Z) (v : option num) :
  0 <= x <= max -> hoare (@mapOk num size) (writeMap x y v) (fun _ => (@mapOk num size)).
Proof.
  intros Hx s Hs. unfold writeMap.
  destruct (gridSet_ok size (hmap s) x y v Hs) as (g' & -> & Hg'); [lia |].
  eexists _, _. split; [reflexivity | exact Hg'].
Qed.

Ltac step := eapply hoare_bind; [| intros ?].
Ltac finish := apply hoare_ret; auto.
Ltac reads := repeat (step; [apply readMap_ok; lia |]); finish.

Lemma square_ok (x y half : Z) :
  half <= x <= max - half -> 1 <= half ->
  hoare (@mapOk num size) (square max x y half) (fun _ => (@mapOk num size)).
Proof.
  intros Hx Hhalf. unfold square.
  destruct (Z.ltb_spec x half); [lia |].
  destruct (Z.ltb_spec (max - half) x); [lia |].
  reads.
Qed.

Lemma diamond_ok (x y half : Z) :
  0 <= x <= max -> 1 <= half -> 2 * half <= max ->
  hoare (@mapOk num size) (diamond max x y half) (fun _ => (@mapOk num size)).
Proof.
  intros Hx Hhalf Hfit. unfold diamond.
  destruct (Z.ltb_spec x half); [reads |].
  destruct (Z.ltb_spec (max - half) x); reads.
Qed.

Lemma edgeOrDiamond_ok (scl : num) (x y half : Z) :
  0 <= x <= max -> 1 <= half -> 2 * half <= max ->
  hoare (@mapOk num size) (edgeOrDiamond random top bottom left right max scl x y half)
    (fun _ => (@mapOk num size)).
Proof.
  intros Hx Hhalf Hfit. unfold edgeOrDiamond.
  destruct (andCond top _); [finish |].
  destruct (andCond bottom _); [finish |].
  destruct (andCond left _); [finish |].
  destruct (andCond right _); [finish |].
  step; [apply rand_ok |]. step; [apply diamond_ok; lia |]. finish.
Qed.

Lemma half_pow2 (k : Z) : 1 <= k -> 2 ^ k / 2 = 2 ^ (k - 1).
Proof.
  intros Hk. replace (2 ^ k) with (2 ^ (k - 1) * 2).
  - apply Z.div_mul. lia.
  - rewrite Z.mul_comm, <- Z.pow_succ_r by lia. f_equal. lia.
Qed.

Lemma divideLoops_ok (k : Z) :
  1 <= k <= d ->
  hoare (@mapOk num size) (divideLoops random roughness top bottom left right max (2 ^ k))
    (fun _ => (@mapOk num size)).
Proof.
  intros Hk. unfold divideLoops. rewrite (half_pow2 k) by lia.
  assert (Hpow : 2 ^ k = 2 * 2 ^ (k - 1)).
  { rewrite <- Z.pow_succ_r by lia. f_equal. lia. }
  assert (Hmul : max = 2 ^ (d - k) * 2 ^ k).
  { rewrite Hmax, <- Z.pow_add_r by lia. f_equal. lia. }
  pose proof (Z.pow_pos_nonneg 2 (d - k)) as Hc.
  pose proof (Z.pow_pos_nonneg 2 (k - 1)) as Hh.
  set (half := 2 ^ (k - 1)) in *. set (c := 2 ^ (d - k)) in *.
  step.
  { apply hoare_forEach. intros y _. apply hoare_forEach. intros x Hx.
    apply elem_of_steps in Hx as (i & Hi & -> & Hlt); [| lia].
    assert (i < c) by nia.
    step; [apply rand_ok |]. step; [apply square_ok; nia |].
    apply writeMap_ok. nia. }
  apply hoare_forEach. intros y Hy. apply hoare_forEach. intros x Hx.
  apply elem_of_steps in Hy as (j & Hj & -> & Hylt); [| lia].
  apply elem_of_steps in Hx as (i & Hi & -> & Hlt); [| lia].
  assert (Hrem : 0 <= Z.rem (0 + j * half + half) (2 ^ k)).
  { apply Z.rem_nonneg; nia. }
  step; [apply edgeOrDiamond_ok; nia |].
  apply writeMap_ok. nia.
Qed.

(** The fuel handed to [divide] is never used up. *)
Lemma divide_ok (fuel : nat) : forall k sz,
  sz = 2 ^ k -> 0 <= k <= d -> sz <= Z.of_nat fuel ->
  hoare (@mapOk num size) (divide random roughness top bottom left right max fuel sz)
    (fun _ => (@mapOk num size)).
Proof.
  induction fuel as [| fuel IH]; intros k sz -> Hk Hfuel.
  { pose proof (Z.pow_pos_nonneg 2 k). lia. }
  simpl. destruct (Z.ltb_spec (2 ^ k / 2) 1) as [Hsmall | Hbig]; [finish |].
  assert (Hk1 : 1 <= k).
  { destruct (Z.eq_dec k 0) as [-> | ]; [| lia].
    change (2 ^ 0 / 2) with 0 in Hbig. lia. }
  step; [apply divideLoops_ok; lia |].
  rewrite (half_pow2 k Hk1) in *.
  pose proof (Z.pow_pos_nonneg 2 (k - 1)).
  assert (2 ^ k = 2 * 2 ^ (k - 1)).
  { rewrite <- Z.pow_succ_r by lia. f_equal. lia. }
  apply (IH (k - 1)); [reflexivity | lia | lia].
Qed.

Lemma corner_ok (scale : num) (first : option (list (option num))) (i : Z)
    (second : option (list (option num))) (j : Z) :
  hoare (@mapOk num size) (corner random scale first i second j) (fun _ => (@mapOk num size)).
Proof.
  unfold corner. destruct first; [finish |]. destruct second; [finish |].
  step; [apply rand_ok |]. finish.
Qed.

Lemma seedCorners_ok :
  hoare (@mapOk num size) (seedCorners random roughness top bottom left right size max)
    (fun _ => (@mapOk num size)).
Proof.
  pose proof max_pos. unfold seedCorners.
  do 3 (step; [apply corner_ok |]; (step; [apply writeMap_ok; lia |])).
  step; [apply corner_ok |]. apply writeMap_ok; lia.
Qed.

Lemma buildMap_ok :
  hoare (@mapOk num size) (buildMap random roughness top bottom left right size max)
    (fun _ => (@mapOk num size)).
Proof.
  unfold buildMap. step; [apply seedCorners_ok |].
  pose proof max_pos. apply (divide_ok _ d); [exact Hmax | lia | lia].
Qed.
End GeneratorSafety.

(** ** The median filter raises no exception *)

Section FilterSafety.
Context {num : Type} {NUM : JSNumber num}.
Variables (src : list (list num)) (N : Z).
Hypothesis Hsrc : squareGrid N src.
Hypothesis HN : 2 <= N.

(** A property of grids that stores preserve, to be carried along. *)
Variable GP : list (list num) -> Prop.
Hypothesis GP_set : forall g x y v g', GP g -> gridSet g x y v = Ok g' -> GP g'.
Hypothesis GP_new : GP (replicate (Z.to_nat N) (newFloat32Array N)).

Ltac step := eapply hoare_bind; [| intros ?].

Lemma readSrc_ok (x y : Z) :
  0 <= x < N -> hoare (dstOk N GP) (readSrc src x y) (fun _ => (dstOk N GP)).
Proof.
  intros Hx. apply hoare_liftR.
  destruct (gridGet_ok N src x y Hsrc Hx) as [v ->]. eauto.
Qed.

Lemma writeDst_ok (x y : Z) (v : option num) :
  0 <= x < N -> hoare (dstOk N GP) (writeDst x y v) (fun _ => (dstOk N GP)).
Proof.
  intros Hx s [Hs Hp]. unfold writeDst.
  destruct (gridSet_ok N (dst s) x y v Hs Hx) as (g' & E & Hg').
  rewrite E. eexists _, _. split; [reflexivity |].
  split; [exact Hg' | exact (GP_set _ _ _ _ _ Hp E)].
Qed.

Lemma writeBlock_ok (i : Z) (v : option num) :
  hoare (dstOk N GP) (writeBlock i v) (fun _ => (dstOk N GP)).
Proof. intros s Hs. eexists _, _. split; [reflexivity | exact Hs]. Qed.

Lemma sortBlock_ok : hoare (dstOk N GP) sortBlock (fun _ => (dstOk N GP)).
Proof. intros s Hs. eexists _, _. split; [reflexivity | exact Hs]. Qed.

Lemma readBlock_ok (i : Z) : hoare (dstOk N GP) (readBlock i) (fun _ => (dstOk N GP)).
Proof. intros s Hs. eexists _, _. split; [reflexivity | exact Hs]. Qed.

Lemma readAll_ok (cells : list (Z * Z)) :
  Forall (fun c => 0 <= fst c < N) cells ->
  hoare (dstOk N GP) (readAll src cells) (fun _ => (dstOk N GP)).
Proof.
  induction 1 as [| [x y] cells Hc _ IH]; simpl.
  - apply hoare_ret. auto.
  - step; [apply readSrc_ok; exact Hc |]. step; [exact IH |].
    apply hoare_ret. auto.
Qed.

Lemma medianInto_ok (x y : Z) (cells : list (Z * Z)) :
  0 <= x < N -> Forall (fun c => 0 <= fst c < N) cells ->
  hoare (dstOk N GP) (medianInto src x y cells) (fun _ => (dstOk N GP)).
Proof.
  intros Hx Hc. unfold medianInto.
  step; [apply readAll_ok; exact Hc |]. apply writeDst_ok. exact Hx.
Qed.

Ltac rows := repeat (apply Forall_cons_2; [simpl; lia |]); apply Forall_nil_2.

Lemma filterCore_ok : hoare (dstOk N GP) (filterCore src N) (fun _ => (dstOk N GP)).
Proof.
  unfold filterCore. apply hoare_forEach. intros y Hy.
  apply hoare_forEach. intros x Hx.
  apply elem_of_steps in Hy as (j & Hj & -> & Hylt); [| lia].
  step.
  { apply hoare_forEach. intros cy Hcy. apply hoare_forEach. intros cx _.
    apply elem_of_steps in Hcy as (i & Hi & -> & Hlt); [| lia].
    step; [apply readSrc_ok; lia |]. apply writeBlock_ok. }
  step; [apply sortBlock_ok |]. step; [apply readBlock_ok |].
  apply writeDst_ok. lia.
Qed.

Lemma filterCorners_ok : hoare (dstOk N GP) (filterCorners src (N - 1)) (fun _ => (dstOk N GP)).
Proof.
  unfold filterCorners.
  do 3 (step; [apply medianInto_ok; [lia | rows] |]).
  apply medianInto_ok; [lia | rows].
Qed.

Lemma filterEdges_ok : hoare (dstOk N GP) (filterEdges src (N - 1)) (fun _ => (dstOk N GP)).
Proof.
  unfold filterEdges. step.
  - apply hoare_forEach. intros y Hy.
    apply elem_of_steps in Hy as (j & Hj & -> & Hylt); [| lia].
    step; apply medianInto_ok; try lia; rows.
  - apply hoare_forEach. intros x Hx.
    step; apply medianInto_ok; try lia; rows.
Qed.

Lemma median3Filter_ok :
  exists smoothed,
    median3Filter src = Ok smoothed /\ squareGrid N smoothed /\ GP smoothed.
Proof.
  unfold median3Filter. destruct Hsrc as [Hlen _]. rewrite Hlen.
  set (start := {| dst := _; block := _ |}).
  assert (H0 : (dstOk N GP) start) by (split; [apply squareGrid_new; lia | exact GP_new]).
  assert (H : hoare (dstOk N GP)
                (filterCore src N >>; filterCorners src (N - 1) >>;
                 filterEdges src (N - 1)) (fun _ => (dstOk N GP))).
  { step; [apply filterCore_ok |]. step; [apply filterCorners_ok |].
    apply filterEdges_ok. }
  destruct (H start H0) as (u & s' & -> & Hs1 & Hs2). eauto.
Qed.
End FilterSafety.
(** ** More on loops *)

Lemma bind_Ok {S A B} (m : M S A) (f : A -> M S B) (s s' : S) (b : B) :
  bind m f s = Ok (b, s') -> exists a s1, m s = Ok (a, s1) /\ f a s1 = Ok (b, s').
Proof.
  unfold bind. destruct (m s) as [[a s1] |]; [eauto | discriminate].
Qed.

Section MonadLoops.
Context {S A : Type}.

(** A loop whose iterations each establish a fact that later iterations
    keep: at the end all the facts hold. *)
Lemma forEach_settles (I : S -> Prop) (R : S -> S -> Prop) (Q : A -> S -> Prop)
    (l : list A) (body : A -> M S unit) :
  (forall s, R s s) ->
  (forall s1 s2 s3, R s1 s2 -> R s2 s3 -> R s1 s3) ->
  (forall a s s', Q a s -> R s s' -> Q a s') ->
  (forall a, a ∈ l -> forall s, I s ->
     exists s', body a s = Ok (tt, s') /\ I s' /\ R s s' /\ Q a s') ->
  forall s, I s ->
    exists s', forEach l body s = Ok (tt, s') /\ I s' /\ R s s' /\
               forall a, a ∈ l -> Q a s'.
Proof.
  intros Rrefl Rtrans Qstable. induction l as [| a l IH]; intros Hbody s Hs.
  - exists s. split; [reflexivity |]. split; [exact Hs |]. split; [apply Rrefl |].
    intros a Ha. inversion Ha.
  - destruct (Hbody a ltac:(left) s Hs) as (s1 & E1 & I1 & R1 & Q1).
    destruct (IH (fun b Hb => Hbody b ltac:(right; exact Hb)) s1 I1)
      as (s2 & E2 & I2 & R2 & Q2).
    exists s2. split; [simpl; unfold bind; rewrite E1; exact E2 |].
    split; [exact I2 |]. split; [eauto |].
    intros b Hb. apply elem_of_cons in Hb as [-> | Hb]; eauto.
Qed.
End MonadLoops.

Lemma elem_of_steps_unit (lo hi x : Z) : lo <= x < hi -> x ∈ steps lo hi 1.
Proof.
  intros H. unfold steps. apply list_elem_of_fmap. exists (Z.to_nat (x - lo)).
  split; [lia |]. apply elem_of_seq. rewrite Z.div_1_r. lia.
Qed.

Lemma length_insertSorted {A} (le : A -> A -> bool) (x : A) (l : list A) :
  length (insertSorted le x l) = Datatypes.S (length l).
Proof.
  induction l as [| y l IH]; simpl; [reflexivity |].
  destruct (le x y); simpl; [reflexivity | rewrite IH; reflexivity].
Qed.

Lemma length_stableSort {A} (le : A -> A -> bool) (l : list A) :
  length (stableSort le l) = length l.
Proof.
  induction l as [| x l IH]; simpl; [reflexivity |].
  unfold stableSort in *. simpl. rewrite length_insertSorted, IH. reflexivity.
Qed.

Lemma elem_of_insertSorted {A} (le : A -> A -> bool) (x y : A) (l : list A) :
  y ∈ insertSorted le x l <-> y = x \/ y ∈ l.
Proof.
  induction l as [| z l IH]; simpl.
  - rewrite list_elem_of_singleton. split; [auto | intros [? | H]; [auto | inversion H]].
  - destruct (le x z).
    + rewrite elem_of_cons. reflexivity.
    + rewrite !elem_of_cons, IH. tauto.
Qed.

Lemma elem_of_stableSort {A} (le : A -> A -> bool) (y : A) (l : list A) :
  y ∈ stableSort le l <-> y ∈ l.
Proof.
  induction l as [| x l IH]; [reflexivity |].
  unfold stableSort in *. simpl. rewrite elem_of_insertSorted, elem_of_cons, IH.
  reflexivity.
Qed.

(** ** The values of the median filter *)

Section FilterValues.
Context {num : Type} {NUM : JSNumber num}.
Variables (src : list (list num)) (N : Z).
Hypothesis Hsrc : squareGrid N src.
Hypothesis HN : 2 <= N.

Lemma readSrc_run (x y : Z) (s : FilterState num) :
  0 <= x < N -> readSrc src x y s = Ok (cellAt src x y, s).
Proof.
  intros Hx. unfold readSrc, liftR, gridGet, cellAt.
  destruct (zget_is_Some src x) as [row ->]; [destruct Hsrc; lia |]. reflexivity.
Qed.

Lemma readAll_run (cells : list (Z * Z)) (s : FilterState num) :
  Forall (fun c => 0 <= fst c < N) cells ->
  readAll src cells s = Ok (readCells src cells, s).
Proof.
  induction 1 as [| [x y] cells Hc _ IH]; [reflexivity |].
  simpl. unfold bind. rewrite readSrc_run by exact Hc. rewrite IH. reflexivity.
Qed.

Lemma writeDst_settles (x y : Z) (v : option num) (s : FilterState num) :
  filterInv N s -> 0 <= x < N -> 0 <= y < N ->
  stored v = smoothedCell src (N - 1) x y ->
  exists s', writeDst x y v s = Ok (tt, s') /\ filterInv N s' /\
             keepsSettled src (N - 1) s s' /\ settledAt src (N - 1) (dst s') x y.
Proof.
  intros [Hg Hb] Hx Hy Hv. unfold writeDst.
  destruct (gridSet_ok N (dst s) x y v Hg Hx) as (g' & E & Hg'). rewrite E.
  eexists. split; [reflexivity |]. split; [split; assumption |]. simpl. split.
  - intros i j Hij. unfold settledAt in *. simpl.
    rewrite (gridSet_cellAt _ _ _ _ _ i j E), Hij.
    destruct (Z.eqb_spec i x) as [-> | ?]; [| reflexivity].
    destruct (Z.eqb_spec j y) as [-> | ?]; [| reflexivity].
    simpl. f_equal. exact Hv.
  - unfold settledAt. simpl. rewrite (gridSet_cellAt _ _ _ _ _ x y E).
    destruct (cellAt_is_Some N (dst s) x y Hg Hx Hy) as [old ->].
    rewrite !Z.eqb_refl. simpl. f_equal. exact Hv.
Qed.

Lemma medianInto_settles (x y : Z) (cells : list (Z * Z)) (s : FilterState num) :
  filterInv N s -> 0 <= x < N -> 0 <= y < N ->
  Forall (fun c => 0 <= fst c < N) cells ->
  smoothedCell src (N - 1) x y = stored (median (readCells src cells)) ->
  exists s', medianInto src x y cells s = Ok (tt, s') /\ filterInv N s' /\
             keepsSettled src (N - 1) s s' /\ settledAt src (N - 1) (dst s') x y.
Proof.
  intros Hs Hx Hy Hc Hv. unfold medianInto, bind. rewrite readAll_run by exact Hc.
  apply writeDst_settles; auto.
Qed.

(** The two inner loops of the core copy the window into [block]. *)
Lemma fillBlock_run (y x : Z) (s : FilterState num) :
  length (block s) = 9%nat -> 0 <= y -> y + 2 < N ->
  forEach (steps 0 3 1) (fun cy =>
    forEach (steps 0 3 1) (fun cx =>
      let! v := readSrc src (y + cy) (x + cx) in
      writeBlock (cy * 3 + cx) v)) s
  = Ok (tt, {| dst := dst s; block := stored <$> readCells src (window y x) |}).
Proof.
  intros Hb Hy0 Hy2. destruct s as [g b]. simpl in Hb.
  do 10 (destruct b as [| ? b]; try discriminate).
  change (steps 0 3 1) with [0 + 0 * 1; 0 + 1 * 1; 0 + 2 * 1]. simpl forEach.
  unfold bind.
  repeat (rewrite readSrc_run by lia; unfold writeBlock; simpl).
  unfold ret. rewrite !Z.add_0_r. reflexivity.
Qed.

Lemma keepsSettled_refl (s : FilterState num) : keepsSettled src (N - 1) s s.
Proof. intros i j H. exact H. Qed.

Lemma keepsSettled_trans (s1 s2 s3 : FilterState num) :
  keepsSettled src (N - 1) s1 s2 -> keepsSettled src (N - 1) s2 s3 ->
  keepsSettled src (N - 1) s1 s3.
Proof. intros H1 H2 i j H. apply H2, H1, H. Qed.

Ltac decide_cell :=
  unfold smoothedCell, medianCells;
  repeat match goal with
         | |- context [?a <? ?b] => destruct (Z.ltb_spec a b); try lia
         | |- context [?a =? ?b] => destruct (Z.eqb_spec a b); try lia
         end;
  simpl; try reflexivity.

Ltac in_rows := repeat (apply Forall_cons_2; [simpl; lia |]); apply Forall_nil_2.

(** One iteration of the core: the window is copied, sorted, and its
    middle element stored. *)
Lemma coreCell_settles (y x : Z) (s : FilterState num) :
  filterInv N s -> 0 <= y < N - 2 -> 0 <= x < N - 2 ->
  exists s',
    (forEach (steps 0 3 1) (fun cy =>
       forEach (steps 0 3 1) (fun cx =>
         let! v := readSrc src (y + cy) (x + cx) in
         writeBlock (cy * 3 + cx) v)) >>;
     sortBlock >>;
     let! m := readBlock 4 in
     writeDst (y + 1) (x + 1) m) s = Ok (tt, s') /\
    filterInv N s' /\ keepsSettled src (N - 1) s s' /\
    settledAt src (N - 1) (dst s') (y + 1) (x + 1).
Proof.
  intros [Hg Hb] Hy Hx. unfold bind at 1.
  rewrite (fillBlock_run y x s Hb) by lia.
  unfold bind, sortBlock, readBlock. simpl.
  set (s1 := {| dst := dst s;
                block := typedSort (stored <$> readCells src (window y x)) |}).
  destruct (writeDst_settles (y + 1) (x + 1) (f32get (block s1) 4) s1)
    as (s' & E & Hs' & K & Q); try lia.
  - split; [exact Hg |]. unfold s1, typedSort. cbn [block].
    rewrite length_stableSort, length_fmap. reflexivity.
  - unfold smoothedCell.
    destruct (Z.ltb_spec 0 (y + 1)); [| lia].
    destruct (Z.ltb_spec (y + 1) (N - 1)); [| lia].
    destruct (Z.ltb_spec 0 (x + 1)); [| lia].
    destruct (Z.ltb_spec (x + 1) (N - 1)); [| lia].
    simpl. replace (y + 1 - 1) with y by lia. replace (x + 1 - 1) with x by lia.
    reflexivity.
  - exists s'. split; [exact E |]. split; [exact Hs' |]. split; [exact K | exact Q].
Qed.

Lemma filterCore_settles (s : FilterState num) :
  filterInv N s ->
  exists s',
    filterCore src N s = Ok (tt, s') /\ filterInv N s' /\
    keepsSettled src (N - 1) s s' /\
    forall i j, 0 < i < N - 1 -> 0 < j < N - 1 -> settledAt src (N - 1) (dst s') i j.
Proof.
  intros Hs. unfold filterCore.
  destruct (forEach_settles (filterInv N) (keepsSettled src (N - 1))
              (fun y s => forall x, x ∈ steps 0 (N - 2) 1 ->
                          settledAt src (N - 1) (dst s) (y + 1) (x + 1))
              (steps 0 (N - 2) 1)
              (fun y => forEach (steps 0 (N - 2) 1) (fun x =>
                 forEach (steps 0 3 1) (fun cy =>
                   forEach (steps 0 3 1) (fun cx =>
                     let! v := readSrc src (y + cy) (x + cx) in
                     writeBlock (cy * 3 + cx) v)) >>;
                 sortBlock >>;
                 let! m := readBlock 4 in
                 writeDst (y + 1) (x + 1) m))
              keepsSettled_refl keepsSettled_trans) with (s := s)
    as (s' & E & Hs' & K & Q).
  - intros y s1 s2 Q1 K12 x Hx. apply K12, Q1, Hx.
  - intros y Hy s1 Hs1.
    apply elem_of_steps in Hy as (k & Hk & -> & Hylt); [| lia].
    apply (forEach_settles (filterInv N) (keepsSettled src (N - 1))
             (fun x s => settledAt src (N - 1) (dst s) (0 + k * 1 + 1) (x + 1)));
      [apply keepsSettled_refl | apply keepsSettled_trans | | | exact Hs1].
    + intros x s2 s3 Q2 K23. apply K23, Q2.
    + intros x Hx s2 Hs2.
      apply elem_of_steps in Hx as (k' & Hk' & -> & Hxlt); [| lia].
      apply coreCell_settles; [exact Hs2 | lia | lia].
  - exact Hs.
  - exists s'. split; [exact E |]. split; [exact Hs' |]. split; [exact K |].
    intros i j Hi Hj.
    specialize (Q (i - 1) ltac:(apply elem_of_steps_unit; lia)
                  (j - 1) ltac:(apply elem_of_steps_unit; lia)).
    replace (i - 1 + 1) with i in Q by lia. replace (j - 1 + 1) with j in Q by lia.
    exact Q.
Qed.

Lemma filterCorners_settles (s : FilterState num) :
  filterInv N s ->
  exists s',
    filterCorners src (N - 1) s = Ok (tt, s') /\ filterInv N s' /\
    keepsSettled src (N - 1) s s' /\
    settledAt src (N - 1) (dst s') 0 0 /\
    settledAt src (N - 1) (dst s') (N - 1) 0 /\
    settledAt src (N - 1) (dst s') 0 (N - 1) /\
    settledAt src (N - 1) (dst s') (N - 1) (N - 1).
Proof.
  intros Hs. unfold filterCorners, bind.
  destruct (medianInto_settles 0 0 [(0, 0); (1, 0); (0, 1); (1, 1)] s)
    as (s1 & -> & H1 & K1 & Q1); [exact Hs | lia | lia | in_rows | decide_cell |].
  destruct (medianInto_settles (N - 1) 0
              [(N - 1, 0); (N - 1, 1); (N - 1 - 1, 0); (N - 1 - 1, 1)] s1)
    as (s2 & -> & H2 & K2 & Q2); [exact H1 | lia | lia | in_rows | decide_cell |].
  destruct (medianInto_settles 0 (N - 1)
              [(0, N - 1); (1, N - 1); (0, N - 1 - 1); (1, N - 1 - 1)] s2)
    as (s3 & -> & H3 & K3 & Q3); [exact H2 | lia | lia | in_rows | decide_cell |].
  destruct (medianInto_settles (N - 1) (N - 1)
              [(N - 1, N - 1); (N - 1, N - 1 - 1); (N - 1 - 1, N - 1);
               (N - 1 - 1, N - 1 - 1)] s3)
    as (s4 & -> & H4 & K4 & Q4); [exact H3 | lia | lia | in_rows | decide_cell |].
  exists s4. split; [reflexivity |]. split; [exact H4 |].
  split; [eauto using keepsSettled_trans |].
  split; [apply K4, K3, K2, Q1 |]. split; [apply K4, K3, Q2 |].
  split; [apply K4, Q3 | exact Q4].
Qed.

Lemma filterEdges_settles (s : FilterState num) :
  filterInv N s ->
  exists s',
    filterEdges src (N - 1) s = Ok (tt, s') /\ filterInv N s' /\
    keepsSettled src (N - 1) s s' /\
    forall k, 0 < k < N - 1 ->
      settledAt src (N - 1) (dst s') k 0 /\ settledAt src (N - 1) (dst s') k (N - 1) /\
      settledAt src (N - 1) (dst s') 0 k /\ settledAt src (N - 1) (dst s') (N - 1) k.
Proof.
  intros Hs. unfold filterEdges. unfold bind at 1.
  destruct (forEach_settles (filterInv N) (keepsSettled src (N - 1))
              (fun y s => settledAt src (N - 1) (dst s) y 0 /\
                          settledAt src (N - 1) (dst s) y (N - 1))
              (steps 1 (N - 1) 1)
              (fun y =>
                 medianInto src y 0 [(y - 1, 0); (y, 0); (y + 1, 0);
                                     (y - 1, 1); (y, 1); (y + 1, 1)] >>;
                 medianInto src y (N - 1)
                   [(y - 1, N - 1); (y, N - 1); (y + 1, N - 1);
                    (y - 1, N - 1 - 1); (y, N - 1 - 1); (y + 1, N - 1 - 1)])
              keepsSettled_refl keepsSettled_trans) with (s := s)
    as (s1 & -> & H1 & K1 & Q1).
  - intros y s1 s2 [Qa Qb] K12. split; apply K12; assumption.
  - intros y Hy s1 Hs1.
    apply elem_of_steps in Hy as (k & Hk & -> & Hylt); [| lia].
    set (y := 1 + k * 1) in *. unfold bind.
    destruct (medianInto_settles y 0 [(y - 1, 0); (y, 0); (y + 1, 0);
                                      (y - 1, 1); (y, 1); (y + 1, 1)] s1)
      as (s2 & -> & H2 & K2 & Q2);
      [exact Hs1 | lia | lia | in_rows | decide_cell |].
    destruct (medianInto_settles y (N - 1)
                [(y - 1, N - 1); (y, N - 1); (y + 1, N - 1);
                 (y - 1, N - 1 - 1); (y, N - 1 - 1); (y + 1, N - 1 - 1)] s2)
      as (s3 & -> & H3 & K3 & Q3);
      [exact H2 | lia | lia | in_rows | decide_cell |].
    exists s3. split; [reflexivity |]. split; [exact H3 |].
    split; [eauto using keepsSettled_trans |]. split; [apply K3, Q2 | exact Q3].
  - exact Hs.
  - destruct (forEach_settles (filterInv N) (keepsSettled src (N - 1))
                (fun x s => settledAt src (N - 1) (dst s) 0 x /\
                            settledAt src (N - 1) (dst s) (N - 1) x)
                (steps 1 (N - 1) 1)
                (fun x =>
                   medianInto src 0 x [(0, x - 1); (0, x); (0, x + 1);
                                       (1, x - 1); (1, x); (1, x + 1)] >>;
                   medianInto src (N - 1) x
                     [(N - 1, x - 1); (N - 1, x); (N - 1, x + 1);
                      (N - 1 - 1, x - 1); (N - 1 - 1, x); (N - 1 - 1, x + 1)])
                keepsSettled_refl keepsSettled_trans) with (s := s1)
      as (s2 & -> & H2 & K2 & Q2).
    + intros x s2 s3 [Qa Qb] K23. split; apply K23; assumption.
    + intros x Hx s2 Hs2.
      apply elem_of_steps in Hx as (k & Hk & -> & Hxlt); [| lia].
      set (x := 1 + k * 1) in *. unfold bind.
      destruct (medianInto_settles 0 x [(0, x - 1); (0, x); (0, x + 1);
                                        (1, x - 1); (1, x); (1, x + 1)] s2)
        as (s3 & -> & H3 & K3 & Q3);
        [exact Hs2 | lia | lia | in_rows | decide_cell |].
      destruct (medianInto_settles (N - 1) x
                  [(N - 1, x - 1); (N - 1, x); (N - 1, x + 1);
                   (N - 1 - 1, x - 1); (N - 1 - 1, x); (N - 1 - 1, x + 1)] s3)
        as (s4 & -> & H4 & K4 & Q4);
        [exact H3 | lia | lia | in_rows | decide_cell |].
      exists s4. split; [reflexivity |]. split; [exact H4 |].
      split; [eauto using keepsSettled_trans |]. split; [apply K4, Q3 | exact Q4].
    + exact H1.
    + exists s2. split; [reflexivity |]. split; [exact H2 |].
      split; [eauto using keepsSettled_trans |].
      intros k Hk.
      destruct (Q1 k ltac:(apply elem_of_steps_unit; lia)) as [Qa Qb].
      destruct (Q2 k ltac:(apply elem_of_steps_unit; lia)) as [Qc Qd].
      split; [apply K2, Qa |]. split; [apply K2, Qb |]. split; assumption.
Qed.

Lemma median3Filter_values :
  exists smoothed,
    median3Filter src = Ok smoothed /\ squareGrid N smoothed /\
    forall i j, 0 <= i < N -> 0 <= j < N ->
      cellAt smoothed i j = Some (smoothedCell src (N - 1) i j).
Proof.
  unfold median3Filter. destruct Hsrc as [Hlen _]. rewrite Hlen.
  set (start := {| dst := _; block := _ |}).
  assert (H0 : filterInv N start).
  { split; [apply squareGrid_new; lia | reflexivity]. }
  unfold bind.
  destruct (filterCore_settles start H0) as (s1 & -> & H1 & _ & Q1).
  destruct (filterCorners_settles s1 H1) as (s2 & -> & H2 & K2 & Q2).
  destruct (filterEdges_settles s2 H2) as (s3 & -> & H3 & K3 & Q3).
  exists (dst s3). split; [reflexivity |]. split; [apply H3 |].
  intros i j Hi Hj. change (settledAt src (N - 1) (dst s3) i j).
  destruct Q2 as (C00 & Cn0 & C0n & Cnn).
  destruct (Z.eq_dec i 0) as [-> | Hi0]; [| destruct (Z.eq_dec i (N - 1)) as [-> | Hin]];
    (destruct (Z.eq_dec j 0) as [-> | Hj0]; [| destruct (Z.eq_dec j (N - 1)) as [-> | Hjn]]);
    try (apply K3; assumption).
  - apply (Q3 j); lia.
  - apply (Q3 j); lia.
  - apply (Q3 i); lia.
  - apply (Q3 i); lia.
  - apply K3, K2, Q1; lia.
Qed.
End FilterValues.

(** ** Forcing the edges *)

Lemma forEach_app {S A} (l1 l2 : list A) (body : A -> M S unit) (s : S) :
  forEach (l1 ++ l2) body s =
  match forEach l1 body s with
  | Ok (_, s') => forEach l2 body s'
  | Throw e => Throw e
  end.
Proof.
  revert s. induction l1 as [| a l1 IH]; intros s; simpl; [reflexivity |].
  unfold bind. destruct (body a s) as [[u s'] | e]; [apply IH | reflexivity].
Qed.

Section ForceEdges.
Context {num : Type} {NUM : JSNumber num}.

Variable size : Z.

(** A loop that stores [val k] at [(px k, py k)] for [k = 0 .. n-1], when
    [sel] recovers [k] from the cell. *)
Lemma writes_spec (px py : Z -> Z) (val : Z -> option num)
    (sel : Z -> Z -> option Z) (n : nat) (g : list (list num)) :
  squareGrid size g ->
  (forall k, 0 <= k < Z.of_nat n -> 0 <= px k < size) ->
  (forall k i j, px k = i /\ py k = j <-> sel i j = Some k) ->
  exists g',
    forEach (Z.of_nat <$> seq 0 n)
      (fun k => writeSmoothed (px k) (py k) (val k)) g = Ok (tt, g') /\
    squareGrid size g' /\
    forall i j,
      cellAt g' i j =
      (fun old => match sel i j with
                  | Some k => if (0 <=? k) && (k <? Z.of_nat n)
                              then stored (val k) else old
                  | None => old
                  end) <$> cellAt g i j.
Proof.
  intros Hg Hpx Hsel. induction n as [| n IH].
  - exists g. split; [reflexivity |]. split; [exact Hg |].
    intros i j. destruct (cellAt g i j) as [old |]; [| reflexivity]. simpl.
    destruct (sel i j) as [k |] eqn:E; [| reflexivity].
    destruct (Z.leb_spec 0 k), (Z.ltb_spec k (Z.of_nat 0)); simpl;
      try reflexivity; lia.
  - destruct IH as (g1 & E1 & Hg1 & Hcell1); [intros; apply Hpx; lia |].
    rewrite seq_S, fmap_app, forEach_app, E1. simpl.
    unfold bind, writeSmoothed.
    destruct (gridSet_ok size g1 (px (Z.of_nat n)) (py (Z.of_nat n))
                (val (Z.of_nat n)) Hg1) as (g2 & E2 & Hg2); [apply Hpx; lia |].
    rewrite E2. exists g2. split; [reflexivity |]. split; [exact Hg2 |].
    intros i j. rewrite (gridSet_cellAt _ _ _ _ _ i j E2), Hcell1.
    destruct (cellAt g i j) as [old |]; [| reflexivity]. simpl. f_equal.
    destruct (sel i j) as [k |] eqn:E.
    + destruct (decide (k = Z.of_nat n)) as [-> | Hne].
      * apply Hsel in E as [<- <-]. rewrite !Z.eqb_refl. simpl.
        destruct (Z.leb_spec 0 (Z.of_nat n)),
                 (Z.ltb_spec (Z.of_nat n) (Z.of_nat (S n)));
          simpl; try reflexivity; lia.
      * assert (Hno : (i =? px (Z.of_nat n)) && (j =? py (Z.of_nat n)) = false).
        { apply andb_false_iff.
          destruct (Z.eqb_spec i (px (Z.of_nat n))) as [Ex | Ex]; [| auto].
          destruct (Z.eqb_spec j (py (Z.of_nat n))) as [Ey | Ey]; [| auto].
          exfalso. apply Hne.
          assert (sel i j = Some (Z.of_nat n)) by (apply Hsel; split; congruence).
          congruence. }
        rewrite Hno.
        destruct (Z.leb_spec 0 k), (Z.ltb_spec k (Z.of_nat n)),
                 (Z.ltb_spec k (Z.of_nat (S n))); simpl; try reflexivity; lia.
    + destruct (Z.eqb_spec i (px (Z.of_nat n))) as [Ex | Ex];
        destruct (Z.eqb_spec j (py (Z.of_nat n))) as [Ey | Ey]; simpl;
        try reflexivity.
      assert (sel i j = Some (Z.of_nat n)) by (apply Hsel; split; congruence).
      congruence.
Qed.

Hypothesis Hsize : 0 <= size.

(** [for (let y = 0; y < size; y++) { g[r][y] = c[y]; }] *)
Lemma writeRow_spec (r : Z) (c : list (option num)) (g : list (list num)) :
  squareGrid size g -> 0 <= r < size ->
  exists g',
    forEach (steps 0 size 1) (fun y => writeSmoothed r y (edgeGet c y)) g
      = Ok (tt, g') /\
    squareGrid size g' /\
    forall i j,
      cellAt g' i j =
      (fun old => if i =? r then stored (edgeGet c j) else old) <$> cellAt g i j.
Proof.
  intros Hg Hr. rewrite steps_unit.
  destruct (writes_spec (fun _ => r) (fun k => k) (fun k => edgeGet c k)
              (fun i j => if i =? r then Some j else None) (Z.to_nat size) g Hg)
    as (g' & E & Hg' & Hcell).
  { intros; lia. }
  { intros k i j. destruct (Z.eqb_spec i r); split; intros H0;
      try (destruct H0; subst; congruence); try congruence.
    injection H0 as ->. auto. }
  exists g'. split; [exact E |]. split; [exact Hg' |].
  intros i j. rewrite Hcell.
  destruct (cellAt g i j) as [old |] eqn:Ec; [| reflexivity]. simpl. f_equal.
  destruct (Z.eqb_spec i r) as [-> | ]; [| reflexivity].
  assert (0 <= j < size).
  { unfold cellAt in Ec. destruct Hg as [Hlen Hrows].
    destruct (zget g r) as [row |] eqn:Erow; [| discriminate].
    apply zget_Some_range in Ec. apply zget_Some_range in Erow as Hr'.
    rewrite zget_lookup in Erow by lia.
    eapply Forall_lookup_1 in Hrows; eauto. simpl in Hrows. lia. }
  destruct (Z.leb_spec 0 j), (Z.ltb_spec j (Z.of_nat (Z.to_nat size)));
    simpl; try reflexivity; lia.
Qed.

(** [for (let x = 0; x < size; x++) { g[x][c] = e[x]; }] *)
Lemma writeColumn_spec (col : Z) (e : list (option num)) (g : list (list num)) :
  squareGrid size g ->
  exists g',
    forEach (steps 0 size 1) (fun x => writeSmoothed x col (edgeGet e x)) g
      = Ok (tt, g') /\
    squareGrid size g' /\
    forall i j,
      cellAt g' i j =
      (fun old => if j =? col then stored (edgeGet e i) else old) <$> cellAt g i j.
Proof.
  intros Hg. rewrite steps_unit.
  destruct (writes_spec (fun k => k) (fun _ => col) (fun k => edgeGet e k)
              (fun i j => if j =? col then Some i else None) (Z.to_nat size) g Hg)
    as (g' & E & Hg' & Hcell).
  { intros; lia. }
  { intros k i j. destruct (Z.eqb_spec j col); split; intros H0;
      try (destruct H0; subst; congruence); try congruence.
    injection H0 as ->. auto. }
  exists g'. split; [exact E |]. split; [exact Hg' |].
  intros i j. rewrite Hcell.
  destruct (cellAt g i j) as [old |] eqn:Ec; [| reflexivity]. simpl. f_equal.
  destruct (Z.eqb_spec j col) as [-> | ]; [| reflexivity].
  assert (0 <= i < size).
  { unfold cellAt in Ec. destruct Hg as [Hlen Hrows].
    destruct (zget g i) as [row |] eqn:Erow; [| discriminate].
    apply zget_Some_range in Erow. lia. }
  destruct (Z.leb_spec 0 i), (Z.ltb_spec i (Z.of_nat (Z.to_nat size)));
    simpl; try reflexivity; lia.
Qed.

Variables (top bottom left right : option (list (option num))).
Variable max : Z.
Hypothesis Hmax : size = max + 1.

Lemma forceEdges_spec (g : list (list num)) :
  squareGrid size g -> 1 <= size ->
  exists g',
    forceEdges top bottom left right size max g = Ok (tt, g') /\
    squareGrid size g' /\
    forall i j,
      cellAt g' i j = forcedCell top bottom left right max i j <$> cellAt g i j.
Proof.
  intros Hg Hpos. unfold forceEdges, bind.
  assert (H1 : exists g1, forceTop top size g = Ok (tt, g1) /\ squareGrid size g1 /\
            forall i j, cellAt g1 i j =
              (fun old => match top with
                          | Some t => if i =? 0 then stored (edgeGet t j) else old
                          | None => old
                          end) <$> cellAt g i j).
  { unfold forceTop. destruct top as [t |].
    - apply writeRow_spec; [exact Hg | lia].
    - exists g. split; [reflexivity |]. split; [exact Hg |].
      intros i j. destruct (cellAt g i j); reflexivity. }
  destruct H1 as (g1 & -> & Hg1 & Hc1).
  assert (H2 : exists g2, forceBottom bottom size max g1 = Ok (tt, g2) /\
            squareGrid size g2 /\
            forall i j, cellAt g2 i j =
              (fun old => match bottom with
                          | Some b => if i =? max then stored (edgeGet b j) else old
                          | None => old
                          end) <$> cellAt g1 i j).
  { unfold forceBottom. destruct bottom as [b |].
    - apply writeRow_spec; [exact Hg1 | lia].
    - exists g1. split; [reflexivity |]. split; [exact Hg1 |].
      intros i j. destruct (cellAt g1 i j); reflexivity. }
  destruct H2 as (g2 & -> & Hg2 & Hc2).
  assert (H3 : exists g3, forceLeft left size max g2 = Ok (tt, g3) /\
            squareGrid size g3 /\
            forall i j, cellAt g3 i j =
              (fun old => match left with
                          | Some l => if j =? max then stored (edgeGet l i) else old
                          | None => old
                          end) <$> cellAt g2 i j).
  { unfold forceLeft. destruct left as [l |].
    - apply writeColumn_spec; exact Hg2.
    - exists g2. split; [reflexivity |]. split; [exact Hg2 |].
      intros i j. destruct (cellAt g2 i j); reflexivity. }
  destruct H3 as (g3 & -> & Hg3 & Hc3).
  assert (H4 : exists g4, forceRight right size g3 = Ok (tt, g4) /\
            squareGrid size g4 /\
            forall i j, cellAt g4 i j =
              (fun old => match right with
                          | Some r => if j =? 0 then stored (edgeGet r i) else old
                          | None => old
                          end) <$> cellAt g3 i j).
  { unfold forceRight. destruct right as [r |].
    - apply writeColumn_spec; exact Hg3.
    - exists g3. split; [reflexivity |]. split; [exact Hg3 |].
      intros i j. destruct (cellAt g3 i j); reflexivity. }
  destruct H4 as (g4 & -> & Hg4 & Hc4).
  exists g4. split; [reflexivity |]. split; [exact Hg4 |].
  intros i j. rewrite Hc4, Hc3, Hc2, Hc1.
  destruct (cellAt g i j) as [old |]; [| reflexivity].
  reflexivity.
Qed.
End ForceEdges.

(** ** generateTerrain as a whole *)

Section GenerateTerrainFacts.
Context {num : Type} {NUM : JSNumber num}.
Variable random : nat -> num.

Lemma arrayLength_valid (detail : Z) :
  0 <= detail < 32 -> arrayLength detail = Ok (2 ^ detail + 1).
Proof.
  intros Hd. unfold arrayLength, sizeOf.
  destruct (Z.ltb_spec detail (-52)); [lia |].
  destruct (Z.ltb_spec detail 0); [lia |].
  assert (2 ^ detail <= 2 ^ 31) by (apply Z.pow_le_mono_r; lia).
  destruct (Z.ltb_spec (2 ^ detail + 1) (2 ^ 32)); [reflexivity | lia].
Qed.

Lemma arrayLength_tiny (detail : Z) :
  detail < -52 -> arrayLength detail = Ok 1.
Proof.
  intros Hd. unfold arrayLength, sizeOf.
  destruct (Z.ltb_spec detail (-52)); [reflexivity | lia].
Qed.

Lemma arrayLength_invalid (detail : Z) :
  -52 <= detail < 0 \/ 32 <= detail -> arrayLength detail = Throw RangeError.
Proof.
  intros Hd. unfold arrayLength, sizeOf.
  destruct (Z.ltb_spec detail (-52)); [lia |].
  destruct (Z.ltb_spec detail 0); [reflexivity |].
  assert (2 ^ 32 <= 2 ^ detail) by (apply Z.pow_le_mono_r; lia).
  destruct (Z.ltb_spec (2 ^ detail + 1) (2 ^ 32)); [lia | reflexivity].
Qed.

(** The three phases of a call with a valid [detail]: all succeed, on grids
    of the right size, and the result is the smoothed grid with the
    constrained edges forced. *)
Theorem generateTerrain_phases (detail : Z) (roughness : num)
    (top bottom left right : option (list (option num))) (n : nat) :
  0 <= detail < 32 ->
  let size := 2 ^ detail + 1 in
  let max := size - 1 in
  exists built smoothed hf,
    buildMap random roughness top bottom left right size max
      {| hmap := replicate (Z.to_nat size) (newFloat32Array size); next := n |}
      = Ok (tt, built) /\
    squareGrid size (hmap built) /\
    median3Filter (hmap built) = Ok smoothed /\
    squareGrid size smoothed /\
    generateTerrain random detail roughness top bottom left right n
      = Ok (hf, next built) /\
    squareGrid size hf /\
    forall i j,
      cellAt hf i j = forcedCell top bottom left right max i j <$> cellAt smoothed i j.
Proof.
  intros Hd size max.
  assert (Hpos : 1 <= 2 ^ detail) by (pose proof (Z.pow_pos_nonneg 2 detail); lia).
  assert (Hmax : max = 2 ^ detail) by (unfold max, size; lia).
  assert (Hsize : size = max + 1) by (unfold max; lia).
  destruct (buildMap_ok random roughness top bottom left right size max detail
              Hsize (proj1 Hd) Hmax
              {| hmap := replicate (Z.to_nat size) (newFloat32Array size); next := n |})
    as ([] & built & Ebuilt & Hbuilt).
  { apply squareGrid_new. lia. }
  destruct (median3Filter_ok (hmap built) size Hbuilt ltac:(lia) (fun _ => True))
    as (smoothed & Esm & Hsm & _); [auto | exact I |].
  destruct (forceEdges_spec size top bottom left right max Hsize smoothed Hsm)
    as (hf & Ehf & Hhf & Hcells); [lia |].
  exists built, smoothed, hf.
  split; [exact Ebuilt |]. split; [exact Hbuilt |]. split; [exact Esm |].
  split; [exact Hsm |]. split; [| split; [exact Hhf | exact Hcells]].
  unfold generateTerrain. rewrite arrayLength_valid by lia.
  fold size. fold max. rewrite Ebuilt, Esm, Ehf. reflexivity.
Qed.
End GenerateTerrainFacts.

(** ** Edges of a grid *)

Section Edges.
Context {num : Type} {NUM : JSNumber num}.

Lemma edgeGet_lookup (e : list (option num)) (i : nat) :
  edgeGet e (Z.of_nat i) = default None (e !! i).
Proof.
  unfold edgeGet. rewrite zget_lookup by lia. rewrite Nat2Z.id.
  destruct (e !! i); reflexivity.
Qed.

Lemma edge_ext (size : Z) (e1 e2 : list (option num)) :
  Z.of_nat (length e1) = size -> Z.of_nat (length e2) = size ->
  (forall i, 0 <= i < size -> edgeGet e1 i = edgeGet e2 i) -> e1 = e2.
Proof.
  intros H1 H2 Hget. apply list_eq. intros i.
  destruct (decide (Z.of_nat i < size)) as [Hi | Hi].
  - specialize (Hget (Z.of_nat i) ltac:(lia)). rewrite !edgeGet_lookup in Hget.
    destruct (lookup_lt_is_Some_2 e1 i ltac:(lia)) as [v1 E1].
    destruct (lookup_lt_is_Some_2 e2 i ltac:(lia)) as [v2 E2].
    rewrite E1, E2 in *. simpl in Hget. congruence.
  - rewrite !(proj2 (lookup_ge_None _ _)) by lia. reflexivity.
Qed.

Lemma stored_validEdge (size : Z) (e : list (option num)) (i : Z) :
  validEdge size e -> 0 <= i < size -> Some (stored (edgeGet e i)) = edgeGet e i.
Proof.
  intros [Hlen Hall] Hi. unfold edgeGet. rewrite zget_lookup by lia.
  destruct (lookup_lt_is_Some_2 e (Z.to_nat i) ltac:(lia)) as [v Ev]. rewrite Ev.
  eapply Forall_lookup_1 in Hall; eauto. destruct Hall as (x & -> & Hx).
  unfold stored. simpl. congruence.
Qed.

Variables (size : Z) (hf : list (list num)).
Hypothesis Hhf : squareGrid size hf.

Lemma length_extractRight : Z.of_nat (length (extractRight hf)) = size.
Proof. unfold extractRight. rewrite length_fmap. apply Hhf. Qed.

Lemma length_extractLeft : Z.of_nat (length (extractLeft hf)) = size.
Proof. unfold extractLeft. rewrite length_fmap. apply Hhf. Qed.

Lemma edgeGet_extractRight (i : Z) :
  0 <= i < size -> edgeGet (extractRight hf) i = cellAt hf i 0.
Proof.
  intros Hi. unfold edgeGet, extractRight, cellAt, f32get.
  rewrite !(zget_lookup _ i) by lia. rewrite list_lookup_fmap.
  destruct (hf !! Z.to_nat i); reflexivity.
Qed.

Lemma edgeGet_extractLeft (i : Z) :
  0 <= i < size -> edgeGet (extractLeft hf) i = cellAt hf i (size - 1).
Proof.
  intros Hi. unfold edgeGet, extractLeft, cellAt, f32get.
  rewrite !(zget_lookup _ i) by lia. rewrite list_lookup_fmap.
  destruct (hf !! Z.to_nat i) as [row |] eqn:E; [| reflexivity]. simpl.
  destruct Hhf as [_ Hrows]. eapply Forall_lookup_1 in Hrows; eauto.
  simpl in Hrows. rewrite Hrows. reflexivity.
Qed.

Lemma extractTop_row : 1 <= size ->
  exists row, extractTop hf = Some row /\ Z.of_nat (length row) = size /\
              forall j, edgeGet (rowEdge row) j = cellAt hf 0 j.
Proof.
  intros Hpos. unfold extractTop, cellAt. destruct Hhf as [Hlen Hrows].
  destruct (zget_is_Some hf 0) as [row E]; [lia |]. rewrite E.
  exists row. split; [reflexivity |]. split.
  - rewrite zget_lookup in E by lia. eapply Forall_lookup_1 in Hrows; eauto.
  - intros j. unfold edgeGet, rowEdge, zget. destruct (j <? 0); [reflexivity |].
    rewrite list_lookup_fmap. destruct (row !! Z.to_nat j); reflexivity.
Qed.

Lemma extractBottom_row : 1 <= size ->
  exists row, extractBottom hf = Some row /\ Z.of_nat (length row) = size /\
              forall j, edgeGet (rowEdge row) j = cellAt hf (size - 1) j.
Proof.
  intros Hpos. unfold extractBottom, cellAt. destruct Hhf as [Hlen Hrows].
  rewrite Hlen.
  destruct (zget_is_Some hf (size - 1)) as [row E]; [lia |]. rewrite E.
  exists row. split; [reflexivity |]. split.
  - rewrite zget_lookup in E by lia. eapply Forall_lookup_1 in Hrows; eauto.
  - intros j. unfold edgeGet, rowEdge, zget. destruct (j <? 0); [reflexivity |].
    rewrite list_lookup_fmap. destruct (row !! Z.to_nat j); reflexivity.
Qed.

Lemma length_rowEdge (row : list num) : length (rowEdge row) = length row.
Proof. apply length_fmap. Qed.
End Edges.

(** ** What generateTerrain returns *)

Section Returned.
Context {num : Type} {NUM : JSNumber num}.
Variable random : nat -> num.

Lemma forcedCell_right (top bottom left : option (list (option num)))
    (r : list (option num)) (max i : Z) (old : num) :
  forcedCell top bottom left (Some r) max i 0 old = stored (edgeGet r i).
Proof. reflexivity. Qed.

Lemma forcedCell_left (top bottom right : option (list (option num)))
    (l : list (option num)) (max i : Z) (old : num) :
  1 <= max ->
  forcedCell top bottom (Some l) right max i max old = stored (edgeGet l i).
Proof.
  intros Hmax. unfold forcedCell. rewrite Z.eqb_refl.
  destruct (Z.eqb_spec max 0); [lia |]. destruct right; reflexivity.
Qed.

Lemma forcedCell_top (bottom left right : option (list (option num)))
    (t : list (option num)) (max j : Z) (old : num) :
  1 <= max -> 0 <= j <= max ->
  forcedCell (Some t) bottom left right max 0 j old =
  match right, left with
  | Some r, _ => if j =? 0 then stored (edgeGet r 0) else
      match left return num with
      | Some l => if j =? max then stored (edgeGet l 0) else stored (edgeGet t j)
      | None => stored (edgeGet t j)
      end
  | None, Some l => if j =? max then stored (edgeGet l 0) else stored (edgeGet t j)
  | None, None => stored (edgeGet t j)
  end.
Proof.
  intros Hmax Hj. unfold forcedCell. change (0 =? 0) with true.
  assert ((0 =? max) = false) as -> by (apply Z.eqb_neq; lia).
  destruct bottom, left, right; reflexivity.
Qed.

Lemma forcedCell_bottom (top left right : option (list (option num)))
    (b : list (option num)) (max j : Z) (old : num) :
  1 <= max -> 0 <= j <= max ->
  forcedCell top (Some b) left right max max j old =
  match right, left with
  | Some r, _ => if j =? 0 then stored (edgeGet r max) else
      match left with
      | Some l => if j =? max then stored (edgeGet l max) else stored (edgeGet b j)
      | None => stored (edgeGet b j)
      end
  | None, Some l => if j =? max then stored (edgeGet l max) else stored (edgeGet b j)
  | None, None => stored (edgeGet b j)
  end.
Proof.
  intros Hmax Hj. unfold forcedCell. rewrite Z.eqb_refl.
  destruct left, right; reflexivity.
Qed.

Lemma forced_edges_exact (detail : Z) (roughness : num)
    (top bottom left right : option (list (option num))) (n : nat) :
  0 <= detail < 32 ->
  let size := 2 ^ detail + 1 in
  let max := size - 1 in
  validConstraint size top -> validConstraint size bottom ->
  validConstraint size left -> validConstraint size right ->
  exists hf n',
    generateTerrain random detail roughness top bottom left right n = Ok (hf, n') /\
    (forall e, right = Some e -> extractRight hf = e) /\
    (forall e, left = Some e -> extractLeft hf = e) /\
    (forall e, top = Some e ->
       (forall j, 0 < j < max -> cellAt hf 0 j = edgeGet e j) /\
       (agreesAt right 0 (edgeGet e 0) -> agreesAt left 0 (edgeGet e max) ->
        rowEdge <$> extractTop hf = Some e)) /\
    (forall e, bottom = Some e ->
       (forall j, 0 < j < max -> cellAt hf max j = edgeGet e j) /\
       (agreesAt right max (edgeGet e 0) -> agreesAt left max (edgeGet e max) ->
        rowEdge <$> extractBottom hf = Some e)).
Proof.
  intros Hd size max Vt Vb Vl Vr.
  destruct (generateTerrain_phases random detail roughness top bottom left right n Hd)
    as (built & smoothed & hf & _ & _ & _ & Hsm & E & Hhf & Hcell).
  fold size in Hsm, Hhf, Hcell. fold max in Hcell.
  assert (Hpos : 1 <= max).
  { unfold max, size. pose proof (Z.pow_pos_nonneg 2 detail). lia. }
  assert (Hsize : size = max + 1) by (unfold max; lia).
  assert (Hold : forall i j, 0 <= i < size -> 0 <= j < size ->
            exists old, cellAt hf i j = Some (forcedCell top bottom left right max i j old)).
  { intros i j Hi Hj. rewrite Hcell.
    destruct (cellAt_is_Some size smoothed i j Hsm Hi Hj) as [old ->]. eauto. }
  exists hf, (next built). split; [exact E |]. repeat split.
  - intros e ->. apply (edge_ext size).
    + apply length_extractRight. exact Hhf.
    + apply Vr.
    + intros i Hi. rewrite (edgeGet_extractRight size hf i Hi).
      destruct (Hold i 0 Hi ltac:(lia)) as [old ->].
      rewrite forcedCell_right. apply (stored_validEdge size); assumption.
  - intros e ->. apply (edge_ext size).
    + apply length_extractLeft. exact Hhf.
    + apply Vl.
    + intros i Hi. rewrite (edgeGet_extractLeft size hf Hhf i Hi).
      replace (size - 1) with max by lia.
      destruct (Hold i max Hi ltac:(lia)) as [old ->].
      rewrite forcedCell_left by lia. apply (stored_validEdge size); assumption.
  - intros j Hj. subst top.
    destruct (Hold 0 j ltac:(lia) ltac:(lia)) as [old ->].
    rewrite forcedCell_top by lia.
    destruct (Z.eqb_spec j 0); [lia |]. destruct (Z.eqb_spec j max); [lia |].
    destruct right, left; apply (stored_validEdge size); (assumption || lia).
  - intros Ar Al. subst top.
    destruct (extractTop_row size hf Hhf ltac:(lia)) as (row & -> & Hlen & Hrow).
    simpl. f_equal. apply (edge_ext size).
    + rewrite length_rowEdge. exact Hlen.
    + apply Vt.
    + intros j Hj. rewrite Hrow.
      destruct (Hold 0 j ltac:(lia) ltac:(lia)) as [old ->].
      rewrite forcedCell_top by lia.
      destruct right as [r |], left as [l |]; simpl in Ar, Al, Vr, Vl;
        repeat match goal with
               | |- context [?a =? ?b] => destruct (Z.eqb_spec a b); subst
               end;
        try (rewrite <- ?Ar, <- ?Al; apply (stored_validEdge size); (assumption || lia)).
  - intros j Hj. subst bottom.
    destruct (Hold max j ltac:(lia) ltac:(lia)) as [old ->].
    rewrite forcedCell_bottom by lia.
    destruct (Z.eqb_spec j 0); [lia |]. destruct (Z.eqb_spec j max); [lia |].
    destruct right, left; apply (stored_validEdge size); (assumption || lia).
  - intros Ar Al. subst bottom.
    destruct (extractBottom_row size hf Hhf ltac:(lia)) as (row & -> & Hlen & Hrow).
    simpl. f_equal. apply (edge_ext size).
    + rewrite length_rowEdge. exact Hlen.
    + apply Vb.
    + intros j Hj. rewrite Hrow. replace (size - 1) with max by lia.
      destruct (Hold max j ltac:(lia) ltac:(lia)) as [old ->].
      rewrite forcedCell_bottom by lia.
      destruct right as [r |], left as [l |]; simpl in Ar, Al, Vr, Vl;
        repeat match goal with
               | |- context [?a =? ?b] => destruct (Z.eqb_spec a b); subst
               end;
        try (rewrite <- ?Ar, <- ?Al; apply (stored_validEdge size); (assumption || lia)).
Qed.

(** C1 (amended).  With constraints of the right length holding float32
    values, a constrained left or right edge comes back exactly; a
    constrained top or bottom edge comes back exactly at every index
    strictly between its two ends, and as a whole when the left and right
    constraints that are present hold the same values as it in the corner
    cells they share with it.  (So an edge taken from one grid and used as
    the only constraint of the next is read back unchanged.) *)
Theorem constrained_edges_exact (detail : Z) (roughness : num)
    (top bottom left right : option (list (option num))) (n : nat) :
  0 <= detail < 32 ->
  let size := 2 ^ detail + 1 in
  let max := size - 1 in
  validConstraint size top -> validConstraint size bottom ->
  validConstraint size left -> validConstraint size right ->
  exists hf n',
    generateTerrain random detail roughness top bottom left right n = Ok (hf, n') /\
    (forall e, right = Some e -> extractRight hf = e) /\
    (forall e, left = Some e -> extractLeft hf = e) /\
    (forall e, top = Some e ->
       (forall j, 0 < j < max -> cellAt hf 0 j = edgeGet e j) /\
       (agreesAt right 0 (edgeGet e 0) -> agreesAt left 0 (edgeGet e max) ->
        rowEdge <$> extractTop hf = Some e)) /\
    (forall e, bottom = Some e ->
       (forall j, 0 < j < max -> cellAt hf max j = edgeGet e j) /\
       (agreesAt right max (edgeGet e 0) -> agreesAt left max (edgeGet e max) ->
        rowEdge <$> extractBottom hf = Some e)).
Proof. apply forced_edges_exact. Qed.
End Returned.

Section ReturnedShape.
Context {num : Type} {NUM : JSNumber num}.
Variable random : nat -> num.

(** C10 (amended).  The four loops that force the edges run in the order
    top, bottom, left, right, each over its whole row or column, and each
    store converts the value to float32: a cell of the result is the
    smoothed value overwritten by each loop that covers it, in that order
    ([forcedCell]).  Hence in a corner cell shared by two provided
    constraints the left or right one, which is written later, decides:
    with top and right provided, cell [0][0] holds the float32 of
    [right[0]], whatever [top[0]] is, and that is [right[0]] itself
    exactly when [right[0]] is a float32. *)
Theorem edges_forced_in_order (detail : Z) (roughness : num)
    (top bottom left right : option (list (option num))) (n : nat) :
  0 <= detail < 32 ->
  let size := 2 ^ detail + 1 in
  let max := size - 1 in
  exists built smoothed hf,
    buildMap random roughness top bottom left right size max
      {| hmap := replicate (Z.to_nat size) (newFloat32Array size); next := n |}
      = Ok (tt, built) /\
    median3Filter (hmap built) = Ok smoothed /\
    generateTerrain random detail roughness top bottom left right n
      = Ok (hf, next built) /\
    squareGrid size smoothed /\
    (forall i j,
       cellAt hf i j = forcedCell top bottom left right max i j <$> cellAt smoothed i j) /\
    (forall r, right = Some r ->
       cellAt hf 0 0 = Some (stored (edgeGet r 0)) /\
       cellAt hf max 0 = Some (stored (edgeGet r max)) /\
       (cellAt hf 0 0 = edgeGet r 0 <-> isFloat32 (edgeGet r 0))) /\
    (forall l, left = Some l ->
       cellAt hf 0 max = Some (stored (edgeGet l 0)) /\
       cellAt hf max max = Some (stored (edgeGet l max))).
Proof.
  intros Hd size max.
  destruct (generateTerrain_phases random detail roughness top bottom left right n Hd)
    as (built & smoothed & hf & Eb & _ & Esm & Hsm & E & Hhf & Hcell).
  fold size in Eb, Hsm, Hhf, Hcell. fold max in Eb, Hcell.
  assert (Hpos : 1 <= max).
  { unfold max, size. pose proof (Z.pow_pos_nonneg 2 detail). lia. }
  assert (Hold : forall i j, 0 <= i < size -> 0 <= j < size ->
            exists old, cellAt hf i j = Some (forcedCell top bottom left right max i j old)).
  { intros i j Hi Hj. rewrite Hcell.
    destruct (cellAt_is_Some size smoothed i j Hsm Hi Hj) as [old ->]. eauto. }
  exists built, smoothed, hf.
  split; [exact Eb |]. split; [exact Esm |].
  split; [exact E |]. split; [exact Hsm |]. split; [exact Hcell |]. split.
  - intros r ->.
    destruct (Hold 0 0) as [old0 E0]; [unfold max in Hpos; lia .. |].
    destruct (Hold max 0) as [old1 E1]; [unfold max in *; lia .. |].
    rewrite forcedCell_right in E0, E1. split; [exact E0 |]. split; [exact E1 |].
    rewrite E0. split.
    + intros H. destruct (edgeGet r 0) as [x |]; [| discriminate].
      exists x. split; [reflexivity |]. injection H as H. exact H.
    + intros (x & Ex & Hx). rewrite Ex. unfold stored. simpl. congruence.
  - intros l ->.
    destruct (Hold 0 max) as [old0 E0]; [unfold max in *; lia .. |].
    destruct (Hold max max) as [old1 E1]; [unfold max in *; lia .. |].
    rewrite forcedCell_left in E0, E1 by lia. split; assumption.
Qed.

(** C4.  For a [detail] from 1 up to 31, the largest for which
    [new Array(size)] is accepted, and whatever the constraints, the result
    is a square array of side [2^detail + 1], and every one of its cells
    has been assigned: it holds the value the median filter computes for
    it from the map built by the square-diamond steps ([smoothedCell]),
    overwritten by the constraints that cover the cell ([forcedCell]). *)
Theorem heightfield_is_square (detail : Z) (roughness : num)
    (top bottom left right : option (list (option num))) (n : nat) :
  1 <= detail < 32 ->
  let size := 2 ^ detail + 1 in
  let max := size - 1 in
  exists built hf,
    buildMap random roughness top bottom left right size max
      {| hmap := replicate (Z.to_nat size) (newFloat32Array size); next := n |}
      = Ok (tt, built) /\
    squareGrid size (hmap built) /\
    generateTerrain random detail roughness top bottom left right n
      = Ok (hf, next built) /\
    Z.of_nat (length hf) = size /\
    Forall (fun row => Z.of_nat (length row) = size) hf /\
    forall i j, 0 <= i < size -> 0 <= j < size ->
      cellAt hf i j =
      Some (forcedCell top bottom left right max i j
              (smoothedCell (hmap built) max i j)).
Proof.
  intros Hd size max.
  destruct (generateTerrain_phases random detail roughness top bottom left right n)
    as (built & smoothed & hf & Eb & Hb & Esm & _ & E & Hhf & Hcell); [lia |].
  fold size in Eb, Hb, Hhf, Hcell. fold max in Eb, Hcell.
  assert (Hpos : 2 <= 2 ^ detail).
  { change 2 with (2 ^ 1) at 1. apply Z.pow_le_mono_r; lia. }
  destruct (median3Filter_values (hmap built) size Hb ltac:(unfold size; lia))
    as (smoothed' & Esm' & _ & Hval).
  rewrite Esm in Esm'. injection Esm' as <-.
  exists built, hf. split; [exact Eb |]. split; [exact Hb |]. split; [exact E |].
  split; [apply Hhf |]. split; [apply Hhf |].
  intros i j Hi Hj. rewrite Hcell, (Hval i j Hi Hj). reflexivity.
Qed.

Lemma filterUndefined_undefined (vs : list (option num)) :
  filterUndefined (None :: vs) = filterUndefined vs.
Proof. reflexivity. Qed.

(** C9.  With [detail = 1] and any constraints the call completes: the
    corners are seeded, [divide] runs its two loops once (its recursive
    call returns at once), the median filter and the forcing of the edges
    follow, and no row outside the 3 by 3 grid is ever indexed, which would
    be a [TypeError].  An index outside a row reads [undefined], which the
    averaging helpers drop. *)
Theorem detail_one_completes (roughness : num)
    (top bottom left right : option (list (option num))) (n : nat) :
  exists seeded built smoothed hf,
    seedCorners random roughness top bottom left right 3 2
      {| hmap := replicate 3 (newFloat32Array 3); next := n |} = Ok (tt, seeded) /\
    divideLoops random roughness top bottom left right 2 2 seeded = Ok (tt, built) /\
    buildMap random roughness top bottom left right 3 2
      {| hmap := replicate 3 (newFloat32Array 3); next := n |} = Ok (tt, built) /\
    median3Filter (hmap built) = Ok smoothed /\
    forceEdges top bottom left right 3 2 smoothed = Ok (tt, hf) /\
    generateTerrain random 1 roughness top bottom left right n = Ok (hf, next built) /\
    squareGrid 3 hf /\
    forall vs : list (option num), average (None :: vs) = average vs.
Proof.
  set (start := {| hmap := replicate 3 (newFloat32Array 3); next := n |}).
  assert (H0 : mapOk 3 start) by (apply (squareGrid_new 3); lia).
  destruct (seedCorners_ok random roughness top bottom left right 3 2 1
              eq_refl ltac:(lia) eq_refl start H0) as ([] & seeded & E1 & H1).
  destruct (divideLoops_ok random roughness top bottom left right 3 2 1
              eq_refl ltac:(lia) eq_refl 1 ltac:(lia) seeded H1)
    as ([] & built & E2 & H2).
  change (2 ^ 1) with 2 in E2.
  destruct (median3Filter_ok (hmap built) 3 H2 ltac:(lia) (fun _ => True))
    as (smoothed & E3 & H3 & _); [auto | exact I |].
  destruct (forceEdges_spec 3 top bottom left right 2 eq_refl smoothed H3 ltac:(lia))
    as (hf & E4 & H4 & _).
  exists seeded, built, smoothed, hf.
  assert (Eb : buildMap random roughness top bottom left right 3 2 start
               = Ok (tt, built)).
  { unfold buildMap, bind. rewrite E1. simpl. unfold bind. rewrite E2. reflexivity. }
  split; [exact E1 |]. split; [exact E2 |]. split; [exact Eb |].
  split; [exact E3 |]. split; [exact E4 |]. split; [| split; [exact H4 | reflexivity]].
  unfold generateTerrain. rewrite (arrayLength_valid 1) by lia.
  change (2 ^ 1 + 1) with 3. change (3 - 1) with 2.
  change (Z.to_nat 3) with 3%nat.
  fold start. rewrite Eb, E3, E4. reflexivity.
Qed.

Lemma tiny_detail_throws (roughness : num)
    (top bottom left right : option (list (option num))) (n : nat) :
  match (let! _ := buildMap random roughness top bottom left right 1 0 in get)
          {| hmap := replicate 1 (newFloat32Array 1); next := n |} with
  | Ok (s, _) => median3Filter (hmap s) = Throw TypeError
  | Throw _ => False
  end.
Proof.
  destruct top, bottom, left, right; reflexivity.
Qed.

(** The outcome of a call, by [detail]. *)
Lemma generateTerrain_outcome (detail : Z) (roughness : num)
    (top bottom left right : option (list (option num))) (n : nat) :
  match generateTerrain random detail roughness top bottom left right n with
  | Ok (hf, _) => 0 <= detail < 32 /\ squareGrid (2 ^ detail + 1) hf
  | Throw e =>
      (detail < 0 \/ 32 <= detail) /\
      e = if detail <? -52 then TypeError else RangeError
  end.
Proof.
  destruct (Z.ltb_spec detail (-52)) as [Htiny | Hge].
  - unfold generateTerrain. rewrite arrayLength_tiny by lia.
    pose proof (tiny_detail_throws roughness top bottom left right n) as H.
    unfold bind, get in H. change (Z.to_nat 1) with 1%nat. change (1 - 1) with 0.
    destruct (buildMap _ _ _ _ _ _ _ _ _) as [[u s] |]; [| contradiction].
    rewrite H. split; [lia | reflexivity].
  - destruct (decide (0 <= detail < 32)) as [Hd | Hd].
    + destruct (generateTerrain_phases random detail roughness top bottom left right n Hd)
        as (built & smoothed & hf & _ & _ & _ & _ & -> & Hhf & _).
      split; assumption.
    + unfold generateTerrain. rewrite arrayLength_invalid by lia.
      split; [lia | reflexivity].
Qed.

(** C3 (amended).  generateTerrain checks none of its arguments.  It
    throws exactly when [detail] is negative or above 31: the [RangeError]
    of [new Array(size)], or, for [detail < -52], where [size] rounds to 1,
    a [TypeError] in the median filter.  For every other [detail], [0]
    included, it returns a grid, whatever the roughness and the lengths of
    the constraints. *)
Theorem failure_only_on_detail (detail : Z) (roughness : num)
    (top bottom left right : option (list (option num))) (n : nat) :
  match generateTerrain random detail roughness top bottom left right n with
  | Ok (hf, _) => 0 <= detail < 32 /\ squareGrid (2 ^ detail + 1) hf
  | Throw e =>
      (detail < 0 \/ 32 <= detail) /\
      e = if detail <? -52 then TypeError else RangeError
  end.
Proof. apply generateTerrain_outcome. Qed.
End ReturnedShape.

(** ** Seeding the corners *)

Section Seeding.
Context {num : Type} {NUM : JSNumber num}.
Variable random : nat -> num.

Lemma corner_run (scale : num) (first : option (list (option num))) (i : Z)
    (second : option (list (option num))) (j : Z) (s : GenState num) :
  corner random scale first i second j s =
  Ok (seedValue random scale first i second j (next s),
      {| hmap := hmap s; next := (next s + seedDraws first second)%nat |}).
Proof.
  destruct s as [g k]. unfold corner, seedValue, seedDraws.
  destruct first; [unfold ret; simpl; rewrite Nat.add_0_r; reflexivity |].
  destruct second; [unfold ret; simpl; rewrite Nat.add_0_r; reflexivity |].
  unfold bind, rand, ret, randValue. simpl. rewrite Nat.add_1_r. reflexivity.
Qed.

(** C6 (amended).  The four corners are seeded in the order [0][0],
    [max][0], [max][max], [0][max].  At each, the top or bottom constraint
    takes precedence over the left or right one: [0][0] takes [top[0]],
    else [right[0]]; [max][0] takes [bottom[0]], else [right[max]];
    [max][max] takes [bottom[max]], else [left[max]]; [0][max] takes
    [top[max]], else [left[0]].  A corner with neither takes
    [Math.random() * scale * 2 - scale] on the next draw, with
    [scale = roughness * size / 2]. *)
Theorem corners_seeded (detail : Z) (roughness : num)
    (top bottom left right : option (list (option num))) (n : nat) :
  0 <= detail < 32 ->
  let size := 2 ^ detail + 1 in
  let max := size - 1 in
  let scale := jsDiv (jsMul roughness (ofInt size)) (ofInt 2) in
  let k1 := n in
  let k2 := (k1 + seedDraws top right)%nat in
  let k3 := (k2 + seedDraws bottom right)%nat in
  let k4 := (k3 + seedDraws bottom left)%nat in
  exists seeded,
    seedCorners random roughness top bottom left right size max
      {| hmap := replicate (Z.to_nat size) (newFloat32Array size); next := n |}
      = Ok (tt, seeded) /\
    next seeded = (k4 + seedDraws top left)%nat /\
    cellAt (hmap seeded) 0 0 = Some (stored (seedValue random scale top 0 right 0 k1)) /\
    cellAt (hmap seeded) max 0 = Some (stored (seedValue random scale bottom 0 right max k2)) /\
    cellAt (hmap seeded) max max =
      Some (stored (seedValue random scale bottom max left max k3)) /\
    cellAt (hmap seeded) 0 max = Some (stored (seedValue random scale top max left 0 k4)).
Proof.
  intros Hd size max scale k1 k2 k3 k4.
  assert (Hpos : 1 <= max).
  { unfold max, size. pose proof (Z.pow_pos_nonneg 2 detail). lia. }
  set (g0 := replicate (Z.to_nat size) (newFloat32Array size)).
  assert (H0 : squareGrid size g0) by (apply squareGrid_new; lia).
  set (c1 := seedValue random scale top 0 right 0 k1).
  set (c2 := seedValue random scale bottom 0 right max k2).
  set (c3 := seedValue random scale bottom max left max k3).
  set (c4 := seedValue random scale top max left 0 k4).
  destruct (gridSet_ok size g0 0 0 c1 H0) as (g1 & E1 & H1); [lia |].
  destruct (gridSet_ok size g1 max 0 c2 H1) as (g2 & E2 & H2); [lia |].
  destruct (gridSet_ok size g2 max max c3 H2) as (g3 & E3 & H3); [lia |].
  destruct (gridSet_ok size g3 0 max c4 H3) as (g4 & E4 & H4); [lia |].
  exists {| hmap := g4; next := (k4 + seedDraws top left)%nat |}.
  split.
  { unfold seedCorners. fold scale. unfold bind.
    rewrite corner_run. unfold writeMap. cbn [hmap next].
    fold g0 k1 c1. rewrite E1.
    rewrite corner_run. cbn [hmap next]. fold k2 c2. rewrite E2.
    rewrite corner_run. cbn [hmap next]. fold k3 c3. rewrite E3.
    rewrite corner_run. cbn [hmap next]. fold k4 c4. rewrite E4.
    reflexivity. }
  split; [reflexivity |]. cbn [hmap].
  assert (Hc : forall i j, 0 <= i < size -> 0 <= j < size ->
            exists old, cellAt g0 i j = Some old).
  { intros i j Hi Hj. destruct (cellAt_is_Some size g0 i j H0 Hi Hj) as [old E].
    eauto. }
  assert (Ne : (max =? 0) = false) by (apply Z.eqb_neq; lia).
  assert (Ne' : (0 =? max) = false) by (apply Z.eqb_neq; lia).
  repeat split.
  - rewrite (gridSet_cellAt _ _ _ _ _ 0 0 E4), (gridSet_cellAt _ _ _ _ _ 0 0 E3),
      (gridSet_cellAt _ _ _ _ _ 0 0 E2), (gridSet_cellAt _ _ _ _ _ 0 0 E1).
    destruct (Hc 0 0) as [old ->]; [lia | lia |].
    rewrite ?Z.eqb_refl, ?Ne, ?Ne'. reflexivity.
  - rewrite (gridSet_cellAt _ _ _ _ _ max 0 E4), (gridSet_cellAt _ _ _ _ _ max 0 E3),
      (gridSet_cellAt _ _ _ _ _ max 0 E2), (gridSet_cellAt _ _ _ _ _ max 0 E1).
    destruct (Hc max 0) as [old ->]; [lia | lia |].
    rewrite ?Z.eqb_refl, ?Ne, ?Ne'. reflexivity.
  - rewrite (gridSet_cellAt _ _ _ _ _ max max E4), (gridSet_cellAt _ _ _ _ _ max max E3),
      (gridSet_cellAt _ _ _ _ _ max max E2), (gridSet_cellAt _ _ _ _ _ max max E1).
    destruct (Hc max max) as [old ->]; [lia | lia |].
    rewrite ?Z.eqb_refl, ?Ne, ?Ne'. reflexivity.
  - rewrite (gridSet_cellAt _ _ _ _ _ 0 max E4), (gridSet_cellAt _ _ _ _ _ 0 max E3),
      (gridSet_cellAt _ _ _ _ _ 0 max E2), (gridSet_cellAt _ _ _ _ _ 0 max E1).
    destruct (Hc 0 max) as [old ->]; [lia | lia |].
    rewrite ?Z.eqb_refl, ?Ne, ?Ne'. reflexivity.
Qed.
End Seeding.

(** ** Keys of the chunk store *)

Lemma pretty_N_char_no_comma (x : N) : pretty_N_char x <> ","%char.
Proof. unfold pretty_N_char. repeat case_match; discriminate. Qed.

Lemma commaFree_pretty_N_go (x : N) : forall s,
  commaFree s -> commaFree (pretty_N_go x s).
Proof.
  induction (N.lt_wf_0 x) as [x _ IH]. intros s Hs.
  destruct (decide (x = 0)%N) as [-> | Hx].
  - rewrite pretty_N_go_0. exact Hs.
  - rewrite pretty_N_go_step by lia. apply IH.
    + apply N.div_lt; lia.
    + split; [apply pretty_N_char_no_comma | exact Hs].
Qed.

Lemma commaFree_pretty_Z (z : Z) : commaFree (pretty z).
Proof.
  assert (HN : forall p : positive, commaFree (pretty p)).
  { intros p. unfold pretty, pretty_positive, pretty, pretty_N.
    destruct (decide (N.pos p = 0%N)); [discriminate |].
    apply commaFree_pretty_N_go. exact I. }
  destruct z as [| p | p]; unfold pretty, pretty_Z.
  - split; [discriminate | exact I].
  - apply HN.
  - split; [discriminate | apply HN].
Qed.

Lemma comma_split (a a' b b' : string) :
  commaFree a -> commaFree a' ->
  a +:+ "," +:+ b = a' +:+ "," +:+ b' -> a = a' /\ b = b'.
Proof.
  revert a'. induction a as [| c a IH]; intros [| c' a'] Ha Ha' E;
    simpl in *.
  - injection E as E. auto.
  - injection E as Ec _. destruct Ha' as [Hc' _]. congruence.
  - injection E as Ec _. destruct Ha as [Hc _]. congruence.
  - injection E as -> E. destruct Ha as [_ Ha], Ha' as [_ Ha'].
    destruct (IH a' Ha Ha' E) as [-> ->]. auto.
Qed.

(** The template string determines the pair of integers. *)
Lemma chunkKey_inj (x y x' y' : Z) :
  chunkKey x y = chunkKey x' y' -> x = x' /\ y = y'.
Proof.
  unfold chunkKey. intros E.
  apply comma_split in E as [Ex Ey]; try apply commaFree_pretty_Z.
  split; eapply (inj pretty); eassumption.
Qed.

(** ** Grids of float32 values *)

Section Float32Grids.
Context {num : Type} {NUM : JSNumber num}.

(** Two facts about the conversion to float32: converting twice is
    converting once, and zero is a float32. *)
Hypothesis fround_idem : forall v : num, fround (fround v) = fround v.
Hypothesis fround_zero : fround (ofInt 0 : num) = ofInt 0.

Lemma float32Grid_set (g : list (list num)) (x y : Z) (v : option num)
    (g' : list (list num)) :
  float32Grid g -> gridSet g x y v = Ok g' -> float32Grid g'.
Proof.
  intros Hg E i j w Hw. rewrite (gridSet_cellAt _ _ _ _ _ i j E) in Hw.
  destruct (cellAt g i j) as [old |] eqn:Eold; [| discriminate].
  injection Hw as <-. destruct ((i =? x) && (j =? y)).
  - apply fround_idem.
  - eapply Hg; eauto.
Qed.

Lemma float32Grid_new (n m : nat) (k : Z) :
  float32Grid (replicate n (replicate m (ofInt 0))).
Proof.
  intros i j v. unfold cellAt, zget.
  destruct (i <? 0); [discriminate |].
  destruct (replicate n _ !! Z.to_nat i) as [row |] eqn:E; [| discriminate].
  apply lookup_replicate in E as [-> _].
  destruct (j <? 0); [discriminate |].
  intros E. apply lookup_replicate in E as [-> _]. exact fround_zero.
Qed.

Lemma stored_float32 (v : option num) : fround (stored v) = stored v.
Proof. apply fround_idem. Qed.

Lemma forcedCell_float32 (top bottom left right : option (list (option num)))
    (max i j : Z) (old : num) :
  fround old = old ->
  fround (forcedCell top bottom left right max i j old) =
  forcedCell top bottom left right max i j old.
Proof.
  intros Hold. unfold forcedCell.
  destruct top, bottom, left, right;
    repeat match goal with
           | |- context [if ?b then _ else _] => destruct b
           end; auto using stored_float32.
Qed.

Variable random : nat -> num.

(** Every cell of a generated grid is a float32. *)
Lemma generateTerrain_float32 (detail : Z) (roughness : num)
    (top bottom left right : option (list (option num))) (n : nat)
    (hf : list (list num)) (n' : nat) :
  generateTerrain random detail roughness top bottom left right n = Ok (hf, n') ->
  squareGrid (2 ^ detail + 1) hf /\ float32Grid hf.
Proof.
  intros E.
  pose proof (generateTerrain_outcome random detail roughness top bottom left right n)
    as Hd.
  rewrite E in Hd. destruct Hd as [Hd Hsq]. split; [exact Hsq |].
  destruct (generateTerrain_phases random detail roughness top bottom left right n Hd)
    as (built & smoothed & hf' & _ & Hb & Esm & Hsm & E' & _ & Hcell).
  rewrite E in E'. injection E' as <- _.
  destruct (median3Filter_ok (hmap built) _ Hb
              ltac:(pose proof (Z.pow_pos_nonneg 2 detail); lia) float32Grid)
    as (smoothed' & Esm' & _ & Hf).
  - intros. eapply float32Grid_set; eauto.
  - apply (float32Grid_new _ _ 0).
  - rewrite Esm in Esm'. injection Esm' as <-.
    intros i j v Hv. rewrite Hcell in Hv.
    destruct (cellAt smoothed i j) as [old |] eqn:Eold; [| discriminate].
    injection Hv as <-. apply forcedCell_float32. eapply Hf; eauto.
Qed.

(** The edges of a square grid of float32 values are valid constraints. *)
Section ExtractedEdges.
Variables (size : Z) (c : list (list num)).
Hypothesis Hsq : squareGrid size c.
Hypothesis Hf : float32Grid c.
Hypothesis Hpos : 1 <= size.

Lemma isFloat32_cell (i j : Z) :
  0 <= i < size -> 0 <= j < size -> isFloat32 (cellAt c i j).
Proof.
  intros Hi Hj. destruct (cellAt_is_Some size c i j Hsq Hi Hj) as [v E].
  exists v. split; [exact E | eapply Hf; eauto].
Qed.

Lemma validEdge_intro (e : list (option num)) :
  Z.of_nat (length e) = size ->
  (forall i, 0 <= i < size -> isFloat32 (edgeGet e i)) -> validEdge size e.
Proof using Type.
  intros Hlen Hall. split; [exact Hlen |]. apply Forall_lookup. intros i v Ev.
  assert (Hi : 0 <= Z.of_nat i < size) by (apply lookup_lt_Some in Ev; lia).
  specialize (Hall _ Hi). rewrite edgeGet_lookup, Ev in Hall. exact Hall.
Qed.

Lemma validEdge_extractRight : validEdge size (extractRight c).
Proof.
  apply validEdge_intro; [apply length_extractRight; exact Hsq |].
  intros i Hi. rewrite (edgeGet_extractRight size c i Hi).
  apply isFloat32_cell; lia.
Qed.

Lemma validEdge_extractLeft : validEdge size (extractLeft c).
Proof.
  apply validEdge_intro; [apply length_extractLeft; exact Hsq |].
  intros i Hi. rewrite (edgeGet_extractLeft size c Hsq i Hi).
  apply isFloat32_cell; lia.
Qed.

Lemma validConstraint_extractTop : validConstraint size (rowEdge <$> extractTop c).
Proof.
  destruct (extractTop_row size c Hsq Hpos) as (row & -> & Hlen & Hrow). simpl.
  apply validEdge_intro; [rewrite length_rowEdge; exact Hlen |].
  intros j Hj. rewrite Hrow. apply isFloat32_cell; lia.
Qed.

Lemma validConstraint_extractBottom :
  validConstraint size (rowEdge <$> extractBottom c).
Proof.
  destruct (extractBottom_row size c Hsq Hpos) as (row & -> & Hlen & Hrow). simpl.
  apply validEdge_intro; [rewrite length_rowEdge; exact Hlen |].
  intros j Hj. rewrite Hrow. apply isFloat32_cell; lia.
Qed.
End ExtractedEdges.
End Float32Grids.

(** ** The chunk store *)

Section StoreFacts.
Context {num : Type} {NUM : JSNumber num}.
Variable random : nat -> num.

Lemma addTerrainChunk_present (x y : Z) (w : World num) (c : list (list num)) :
  chunkHeights w !! chunkKey x y = Some c ->
  addTerrainChunk random x y w = Ok (tt, w).
Proof. intros E. unfold addTerrainChunk. rewrite E. reflexivity. Qed.

Lemma addTerrainChunk_absent (x y : Z) (w : World num) :
  chunkHeights w !! chunkKey x y = None ->
  exists hf n',
    generateTerrain random 5 (ofInt 5) (topEdgeOf w x y) (bottomEdgeOf w x y)
      (leftEdgeOf w x y) (rightEdgeOf w x y) (drawn w) = Ok (hf, n') /\
    addTerrainChunk random x y w =
    Ok (tt, {| chunkHeights := <[chunkKey x y := hf]> (chunkHeights w);
               drawn := (n' + uuidDraws + uuidDraws)%nat |}).
Proof.
  intros E.
  destruct (generateTerrain_phases random 5 (ofInt 5) (topEdgeOf w x y)
              (bottomEdgeOf w x y) (leftEdgeOf w x y) (rightEdgeOf w x y) (drawn w))
    as (built & _ & hf & _ & _ & _ & _ & Eg & _); [lia |].
  exists hf, (next built). split; [exact Eg |].
  unfold addTerrainChunk. rewrite E.
  unfold topEdgeOf, bottomEdgeOf, leftEdgeOf, rightEdgeOf in Eg.
  rewrite Eg. unfold addTerrainMesh. simpl. rewrite lookup_insert_eq. reflexivity.
Qed.

(** A request always completes, keeps every entry as it is, and leaves the
    requested chunk present. *)
Lemma addTerrainChunk_keeps (x y : Z) (w : World num) :
  exists w',
    addTerrainChunk random x y w = Ok (tt, w') /\
    (forall k c, chunkHeights w !! k = Some c -> chunkHeights w' !! k = Some c) /\
    is_Some (chunkHeights w' !! chunkKey x y).
Proof.
  destruct (chunkHeights w !! chunkKey x y) as [c |] eqn:E.
  - exists w. split; [eapply addTerrainChunk_present; eauto |].
    split; [auto | rewrite E; eauto].
  - destruct (addTerrainChunk_absent x y w E) as (hf & n' & _ & ->).
    eexists. split; [reflexivity |]. simpl. split.
    + intros k c Hk. rewrite lookup_insert_ne; [exact Hk | congruence].
    + rewrite lookup_insert_eq. eauto.
Qed.

Lemma forEach_addTerrainChunk_keeps (l : list (Z * Z)) : forall w : World num,
  exists w',
    forEach l (fun c => addTerrainChunk random (fst c) (snd c)) w = Ok (tt, w') /\
    (forall k c, chunkHeights w !! k = Some c -> chunkHeights w' !! k = Some c) /\
    (forall c, c ∈ l -> is_Some (chunkHeights w' !! chunkKey (fst c) (snd c))).
Proof.
  induction l as [| [x y] l IH]; intros w.
  - exists w. split; [reflexivity |]. split; [auto |]. intros c Hc. inversion Hc.
  - destruct (addTerrainChunk_keeps x y w) as (w1 & E1 & K1 & P1).
    destruct (IH w1) as (w2 & E2 & K2 & P2).
    exists w2. split; [| split].
    + simpl. unfold bind. simpl in E1. rewrite E1. exact E2.
    + auto.
    + intros c Hc. apply elem_of_cons in Hc as [-> | Hc]; [| auto].
      simpl. destruct P1 as [c1 Hc1]. rewrite (K2 _ _ Hc1). eauto.
Qed.

Lemma generateNeighboringChunks_requested (x y : Z) :
  generateNeighboringChunks random x y =
  forEach (requested x y) (fun c => addTerrainChunk random (fst c) (snd c)).
Proof. reflexivity. Qed.

Lemma generateNeighboringChunks_keeps (x y : Z) (w : World num) :
  exists w',
    generateNeighboringChunks random x y w = Ok (tt, w') /\
    (forall k c, chunkHeights w !! k = Some c -> chunkHeights w' !! k = Some c) /\
    (forall c, c ∈ requested x y -> is_Some (chunkHeights w' !! chunkKey (fst c) (snd c))).
Proof.
  rewrite generateNeighboringChunks_requested. apply forEach_addTerrainChunk_keeps.
Qed.

(** C7.  A request for a chunk that is present changes nothing, neither
    the store nor the stream of random numbers, so that a second request
    for the same chunk is without effect; and no later request, for a
    chunk or for a neighbourhood, changes or removes an entry. *)
Theorem present_chunk_untouched (w : World num) (x y : Z) (c : list (list num)) :
  chunkHeights w !! chunkKey x y = Some c ->
  addTerrainChunk random x y w = Ok (tt, w) /\
  (forall x' y', exists w',
     addTerrainChunk random x' y' w = Ok (tt, w') /\
     chunkHeights w' !! chunkKey x y = Some c) /\
  (forall x' y', exists w',
     generateNeighboringChunks random x' y' w = Ok (tt, w') /\
     chunkHeights w' !! chunkKey x y = Some c) /\
  (forall (v : World num) x' y', exists v',
     addTerrainChunk random x' y' v = Ok (tt, v') /\
     addTerrainChunk random x' y' v' = Ok (tt, v')).
Proof.
  intros E. split; [eapply addTerrainChunk_present; eauto |]. split; [| split].
  - intros x' y'. destruct (addTerrainChunk_keeps x' y' w) as (w' & E' & K & _).
    eauto.
  - intros x' y'.
    destruct (generateNeighboringChunks_keeps x' y' w) as (w' & E' & K & _). eauto.
  - intros v x' y'. destruct (addTerrainChunk_keeps x' y' v) as (v' & E' & _ & [c' P]).
    exists v'. split; [exact E' |]. eapply addTerrainChunk_present; eauto.
Qed.

(** C8.  [generateNeighboringChunks(x, y)] requests the centre, then the
    nine directions of [neighborDirections] in their order (the first of
    which is the centre again), and completes with all nine chunks around
    [(x, y)] present.  A centre that was missing is generated before any
    other chunk: from the store and the random numbers as the call found
    them. *)
Theorem neighbourhood_complete (w : World num) (x y : Z) :
  generateNeighboringChunks random x y =
    forEach (requested x y) (fun c => addTerrainChunk random (fst c) (snd c)) /\
  exists w',
    generateNeighboringChunks random x y w = Ok (tt, w') /\
    (forall dx dy, -1 <= dx <= 1 -> -1 <= dy <= 1 ->
       is_Some (chunkHeights w' !! chunkKey (x + dx) (y + dy))) /\
    (chunkHeights w !! chunkKey x y = None ->
     exists hf n',
       generateTerrain random 5 (ofInt 5) (topEdgeOf w x y) (bottomEdgeOf w x y)
         (leftEdgeOf w x y) (rightEdgeOf w x y) (drawn w) = Ok (hf, n') /\
       chunkHeights w' !! chunkKey x y = Some hf).
Proof.
  split; [reflexivity |].
  destruct (addTerrainChunk_keeps x y w) as (w1 & E1 & K1 & P1).
  destruct (forEach_addTerrainChunk_keeps
              ((fun d => (x + fst d, y + snd d)) <$> neighborDirections) w1)
    as (w2 & E2 & K2 & P2).
  exists w2. split; [| split].
  - unfold generateNeighboringChunks, bind. rewrite E1.
    rewrite <- E2. clear. generalize w1.
    induction neighborDirections as [| d l IH]; intros v; [reflexivity |].
    simpl. unfold bind. destruct (addTerrainChunk random _ _ v) as [[u v'] |];
      [apply IH | reflexivity].
  - intros dx dy Hdx Hdy.
    apply (P2 (x + dx, y + dy)). apply list_elem_of_fmap.
    exists (dx, dy). split; [reflexivity |].
    assert (Hx : dx = -1 \/ dx = 0 \/ dx = 1) by lia.
    assert (Hy : dy = -1 \/ dy = 0 \/ dy = 1) by lia.
    unfold neighborDirections.
    destruct Hx as [-> | [-> | ->]], Hy as [-> | [-> | ->]];
      repeat (first [left; reflexivity | right]); set_solver.
  - intros Habs. destruct (addTerrainChunk_absent x y w Habs) as (hf & n' & Eg & Ea).
    exists hf, n'. split; [exact Eg |].
    rewrite E1 in Ea. injection Ea as ->. apply K2. simpl. apply lookup_insert_eq.
Qed.
End StoreFacts.

(** ** Seams between stored chunks *)

Section Seams.
Context {num : Type} {NUM : JSNumber num}.
Variable random : nat -> num.

Lemma reachable_neighbourhood (w w' : World num) (x y : Z) :
  reachable random w -> generateNeighboringChunks random x y w = Ok (tt, w') ->
  reachable random w'.
Proof.
  rewrite generateNeighboringChunks_requested. generalize (requested x y).
  intros l. revert w. induction l as [| [a b] l IH]; intros w Hw E.
  - injection E as <-. exact Hw.
  - simpl in E. unfold bind in E.
    destruct (addTerrainChunk random a b w) as [[[] w1] |] eqn:E1; [| discriminate].
    eapply IH; [| exact E]. eapply reachable_request; eauto.
Qed.

Hypothesis fround_idem : forall v : num, fround (fround v) = fround v.
Hypothesis fround_zero : fround (ofInt 0 : num) = ofInt 0.

Lemma edges_valid (w : World num) (x y : Z) :
  (forall k c, chunkHeights w !! k = Some c -> chunkOk c) ->
  validConstraint 33 (topEdgeOf w x y) /\ validConstraint 33 (bottomEdgeOf w x y) /\
  validConstraint 33 (leftEdgeOf w x y) /\ validConstraint 33 (rightEdgeOf w x y).
Proof.
  intros Hok. unfold topEdgeOf, bottomEdgeOf, leftEdgeOf, rightEdgeOf.
  repeat split.
  - destruct (chunkHeights w !! chunkKey x (y + 1)) as [c |] eqn:E; [| exact I].
    destruct (Hok _ _ E) as [Hsq Hf]. apply validConstraint_extractBottom; (assumption || lia).
  - destruct (chunkHeights w !! chunkKey x (y - 1)) as [c |] eqn:E; [| exact I].
    destruct (Hok _ _ E) as [Hsq Hf]. apply validConstraint_extractTop; (assumption || lia).
  - destruct (chunkHeights w !! chunkKey (x - 1) y) as [c |] eqn:E; [| exact I].
    destruct (Hok _ _ E) as [Hsq Hf]. apply validEdge_extractRight; (assumption || lia).
  - destruct (chunkHeights w !! chunkKey (x + 1) y) as [c |] eqn:E; [| exact I].
    destruct (Hok _ _ E) as [Hsq Hf]. apply validEdge_extractLeft; (assumption || lia).
Qed.

Lemma seamless_request (w w' : World num) (x y : Z) :
  seamless w -> addTerrainChunk random x y w = Ok (tt, w') -> seamless w'.
Proof.
  intros (Hok & Hh & Hv) E.
  destruct (chunkHeights w !! chunkKey x y) as [c |] eqn:Ec.
  { rewrite (addTerrainChunk_present random x y w c Ec) in E.
    injection E as <-. exact (conj Hok (conj Hh Hv)). }
  destruct (addTerrainChunk_absent random x y w Ec) as (hf & n' & Eg & Ea).
  rewrite Ea in E. injection E as <-.
  destruct (edges_valid w x y Hok) as (Vt & Vb & Vl & Vr).
  destruct (forced_edges_exact random 5 (ofInt 5) _ _ _ _ (drawn w) ltac:(lia)
              Vt Vb Vl Vr) as (hf' & n'' & Eg' & Hr & Hl & Ht & Hb).
  rewrite Eg in Eg'. injection Eg' as <- <-.
  change (2 ^ 5 + 1 - 1) with 32 in Ht, Hb.
  destruct (generateTerrain_float32 fround_idem fround_zero random _ _ _ _ _ _ _ _ _ Eg)
    as [Hsq Hf32]. change (2 ^ 5 + 1) with 33 in Hsq.
  assert (Hlook : forall x' y' c',
            <[chunkKey x y := hf]> (chunkHeights w) !! chunkKey x' y' = Some c' ->
            (x' = x /\ y' = y /\ c' = hf) \/
            ((x' <> x \/ y' <> y) /\ chunkHeights w !! chunkKey x' y' = Some c')).
  { intros x' y' c' Hc'.
    destruct (decide (chunkKey x y = chunkKey x' y')) as [Ek | Ek].
    - rewrite Ek, lookup_insert_eq in Hc'. injection Hc' as <-.
      apply chunkKey_inj in Ek as [-> ->]. auto.
    - rewrite lookup_insert_ne in Hc' by exact Ek. right. split; [| exact Hc'].
      destruct (decide (x' = x)) as [-> |]; [| auto].
      destruct (decide (y' = y)) as [-> |]; [| auto]. congruence. }
  split; [| split]; simpl.
  - intros k c Hc. destruct (decide (chunkKey x y = k)) as [<- | Ek].
    + rewrite lookup_insert_eq in Hc. injection Hc as <-. split; assumption.
    + rewrite lookup_insert_ne in Hc by exact Ek. eauto.
  - intros x' y' a b Ha Hb'.
    apply Hlook in Ha as [(-> & -> & ->) | [Hne Ha]];
      apply Hlook in Hb' as [(Ex & Ey & ->) | [Hne' Hb']].
    + lia.
    + symmetry. apply Hr. unfold rightEdgeOf. rewrite Hb'. reflexivity.
    + apply Hl. unfold leftEdgeOf. replace (x - 1) with x' by lia.
      subst y'. rewrite Ha. reflexivity.
    + eauto.
  - intros x' y' a t Ha Ht' j Hj.
    apply Hlook in Ha as [(-> & -> & ->) | [Hne Ha]];
      apply Hlook in Ht' as [(Ex & Ey & ->) | [Hne' Ht']].
    + lia.
    + destruct (Hok _ _ Ht') as [Hsqt _].
      destruct (extractBottom_row 33 t Hsqt ltac:(lia)) as (row & Erow & _ & Hrow).
      destruct (Ht (rowEdge row)) as [Hin _].
      { unfold topEdgeOf. rewrite Ht', Erow. reflexivity. }
      rewrite (Hin j Hj), Hrow. reflexivity.
    + destruct (Hok _ _ Ha) as [Hsqa _].
      destruct (extractTop_row 33 a Hsqa ltac:(lia)) as (row & Erow & _ & Hrow).
      destruct (Hb (rowEdge row)) as [Hin _].
      { unfold bottomEdgeOf. replace (y - 1) with y' by lia. subst x'.
        rewrite Ha, Erow. reflexivity. }
      rewrite (Hin j Hj), Hrow. reflexivity.
    + eauto.
Qed.

Lemma reachable_seamless (w : World num) : reachable random w -> seamless w.
Proof.
  induction 1 as [n | w w' x y _ IH E].
  - split; [| split]; simpl; intros *; rewrite lookup_empty; discriminate.
  - eapply seamless_request; eauto.
Qed.

(** C2 (amended).  In every store the program can reach, with "left" the
    last column and "right" the first, as [extractLeft] and [extractRight]
    have them: for chunks present at [(x, y)] and [(x+1, y)], the left edge
    of [(x+1, y)] equals the right edge of [(x, y)], element by element;
    for chunks present at [(x, y)] and [(x, y+1)], the top row of [(x, y)]
    equals the bottom row of [(x, y+1)] at every index strictly between
    the two ends. *)
Theorem seams_match (w : World num) :
  reachable random w ->
  (forall x y a b,
     chunkHeights w !! chunkKey x y = Some a ->
     chunkHeights w !! chunkKey (x + 1) y = Some b ->
     extractLeft b = extractRight a) /\
  (forall x y a t,
     chunkHeights w !! chunkKey x y = Some a ->
     chunkHeights w !! chunkKey x (y + 1) = Some t ->
     forall j, 0 < j < 32 -> cellAt a 0 j = cellAt t 32 j).
Proof.
  intros Hw. destruct (reachable_seamless w Hw) as (_ & Hh & Hv). split; assumption.
Qed.
End Seams.

(** ** Facts about IEEE rounding *)

Lemma digits2_size (p : positive) : digits2_pos p = Pos.size p.
Proof. induction p; simpl; congruence. Qed.

Lemma digits_log2 (p : positive) : Zpos (digits2_pos p) = Z.log2 (Zpos p) + 1.
Proof.
  rewrite digits2_size. destruct p; simpl; try lia.
Qed.

Lemma digits_bounds (p : positive) :
  2 ^ (Zpos (digits2_pos p) - 1) <= Zpos p < 2 ^ Zpos (digits2_pos p).
Proof.
  rewrite digits_log2. replace (Z.log2 (Z.pos p) + 1 - 1) with (Z.log2 (Z.pos p)) by lia.
  pose proof (Z.log2_spec (Zpos p) ltac:(lia)).
  replace (Z.log2 (Z.pos p) + 1) with (Z.succ (Z.log2 (Z.pos p))) by lia. lia.
Qed.

Lemma digits_unique (p : positive) (d : Z) :
  2 ^ (d - 1) <= Zpos p < 2 ^ d -> Zpos (digits2_pos p) = d.
Proof.
  intros H. rewrite digits_log2.
  assert (0 < d).
  { destruct (Z.le_gt_cases d 0) as [Hd |]; [| lia]. exfalso.
    destruct (Z.eq_dec d 0) as [-> | Hne]; [simpl in H; lia |].
    rewrite (Z.pow_neg_r 2 d) in H by lia. lia. }
  assert (Z.log2 (Zpos p) = d - 1); [| lia].
  apply Z.log2_unique; [lia |].
  replace (Z.succ (d - 1)) with d by lia. exact H.
Qed.

Lemma iter_pos_nat {A} (f : A -> A) (n : positive) (x : A) :
  SpecFloat.iter_pos f n x = Nat.iter (Pos.to_nat n) f x.
Proof.
  revert x. induction n as [n IH | n IH |]; intros x; cbn [SpecFloat.iter_pos].
  - rewrite !IH. rewrite Pos2Nat.inj_xI.
    replace (S (2 * Pos.to_nat n)) with (Pos.to_nat n + (Pos.to_nat n + 1))%nat by lia.
    rewrite !Nat.iter_add. reflexivity.
  - rewrite !IH. rewrite Pos2Nat.inj_xO.
    replace (2 * Pos.to_nat n)%nat with (Pos.to_nat n + Pos.to_nat n)%nat by lia.
    rewrite Nat.iter_add. reflexivity.
  - reflexivity.
Qed.

Lemma shr_m_shr_1 (mrs : shr_record) :
  0 <= shr_m mrs -> shr_m (shr_1 mrs) = shr_m mrs / 2.
Proof.
  destruct mrs as [m r s]. simpl. intros Hm.
  destruct m as [| [p | p |] | p]; cbn [shr_1 shr_m]; try reflexivity; try lia.
  - apply Z.div_unique with 1; lia.
  - apply Z.div_unique with 0; lia.
Qed.

Lemma shr_m_iter (k : nat) (mrs : shr_record) :
  0 <= shr_m mrs ->
  shr_m (Nat.iter k shr_1 mrs) = shr_m mrs / 2 ^ Z.of_nat k.
Proof.
  intros Hm. induction k as [| k IH].
  - simpl. rewrite Z.div_1_r. reflexivity.
  - simpl Nat.iter. rewrite shr_m_shr_1.
    + rewrite IH. rewrite Z.div_div by lia. f_equal.
      rewrite Nat2Z.inj_succ, Z.pow_succ_r by lia. lia.
    + rewrite IH. apply Z.div_pos; lia.
Qed.

Lemma digits_shift (m : positive) (k : positive) :
  digits2_pos (Pos.iter xO m k) = (digits2_pos m + k)%positive.
Proof.
  induction k as [| k IH] using Pos.peano_ind.
  - simpl. lia.
  - rewrite Pos.iter_succ. simpl. rewrite IH. lia.
Qed.

Lemma round_nearest_even_bounds (m : Z) (l : location) :
  m <= round_nearest_even m l <= m + 1.
Proof.
  destruct l as [| []]; simpl; try lia. destruct (Z.even m); lia.
Qed.

Section Rounding.
Variables prec emax : Z.
Hypothesis Hprec : 0 < prec.

Lemma fexp_ge_emin (x : Z) : emin prec emax <= fexp prec emax x.
Proof. unfold fexp. lia. Qed.

(** Rounding a mantissa that is already in canonical form changes
    nothing. *)
Lemma binary_round_aux_canonical (s : bool) (m : positive) (e : Z) :
  canonical_mantissa prec emax m e = true ->
  binary_round_aux prec emax s (Zpos m) e loc_Exact =
  if e <=? emax - prec then S754_finite s m e else S754_infinity s.
Proof.
  unfold canonical_mantissa. intros Hc. apply Z.eqb_eq in Hc.
  unfold binary_round_aux, shr_fexp. cbn [Zdigits2 shr_record_of_loc].
  rewrite Hc, Z.sub_diag. cbn [shr shr_m loc_of_shr_record round_nearest_even].
  cbn [Zdigits2]. rewrite Hc, Z.sub_diag. reflexivity.
Qed.

Lemma valid_if_canonical (s : bool) (m : positive) (e : Z) :
  canonical_mantissa prec emax m e = true ->
  valid_binary prec emax
    (if e <=? emax - prec then S754_finite s m e else S754_infinity s) = true.
Proof.
  intros Hc. destruct (e <=? emax - prec) eqn:E; [| reflexivity].
  simpl. unfold bounded. rewrite Hc, E. reflexivity.
Qed.

(** The result of rounding is a member of the format. *)
Lemma binary_round_valid (s : bool) (m : positive) (e : Z) :
  valid_binary prec emax (binary_round prec emax s m e) = true.
Proof.
  unfold binary_round, shl_align.
  set (d0 := Zpos (digits2_pos m)).
  set (f := SpecFloat.fexp prec emax (d0 + e)).
  destruct (f - e) as [| p | p] eqn:Hfe.
  - rewrite binary_round_aux_canonical; [apply valid_if_canonical |];
      unfold canonical_mantissa; fold d0 f; apply Z.eqb_eq; lia.
  - (* the mantissa is too long: it is shifted right and rounded *)
    unfold binary_round_aux, shr_fexp. cbn [Zdigits2 shr_record_of_loc].
    fold d0 f. rewrite Hfe. cbn [shr]. rewrite iter_pos_nat.
    set (mrs1 := Nat.iter (Pos.to_nat p) shr_1 _).
    assert (Hm1 : shr_m mrs1 = Zpos m / 2 ^ Zpos p).
    { unfold mrs1. rewrite shr_m_iter by (simpl; lia).
      rewrite positive_nat_Z. reflexivity. }
    pose proof (round_nearest_even_bounds (shr_m mrs1) (loc_of_shr_record mrs1)) as Hm2.
    set (m2 := round_nearest_even _ _) in *.
    replace (e + Zpos p) with f by lia.
    pose proof (digits_bounds m) as Hd. fold d0 in Hd.
    set (emin := emin prec emax).
    assert (Hf : f = Z.max (d0 + e - prec) emin) by reflexivity.
    assert (Hpow : 0 < 2 ^ Zpos p) by (apply Z.pow_pos_nonneg; lia).
    assert (Hprec1 : 2 ^ prec = 2 * 2 ^ (prec - 1)).
    { rewrite <- Z.pow_succ_r by lia. f_equal. lia. }
    assert (Hp1 : 0 < 2 ^ (prec - 1)) by (apply Z.pow_pos_nonneg; lia).
    assert (Hm1pos : 0 <= shr_m mrs1) by (rewrite Hm1; apply Z.div_pos; lia).
    assert (Hup : m2 <= 2 ^ prec).
    { destruct (Z.le_gt_cases d0 (Zpos p)) as [Hle | Hgt].
      - assert (2 ^ d0 <= 2 ^ Zpos p) by (apply Z.pow_le_mono_r; lia).
        rewrite Z.div_small in Hm1 by lia. lia.
      - assert (shr_m mrs1 < 2 ^ (d0 - Zpos p)).
        { rewrite Hm1. apply Z.div_lt_upper_bound; [lia |].
          rewrite <- Z.pow_add_r by lia. replace (Zpos p + (d0 - Zpos p)) with d0 by lia.
          lia. }
        assert (2 ^ (d0 - Zpos p) <= 2 ^ prec) by (apply Z.pow_le_mono_r; lia).
        lia. }
    assert (Hlow : emin < f -> 2 ^ (prec - 1) <= m2).
    { intros Hgt. assert (HP : Zpos p = d0 - prec) by lia.
      assert (2 ^ (prec - 1) <= shr_m mrs1); [| lia].
      rewrite Hm1. apply Z.div_le_lower_bound; [lia |].
      rewrite <- Z.pow_add_r by lia.
      replace (Zpos p + (prec - 1)) with (d0 - 1) by lia. lia. }
    destruct m2 as [| q | q]; [| | lia].
    + cbn [Zdigits2].
      assert (SpecFloat.fexp prec emax (0 + f) - f <= 0).
      { unfold SpecFloat.fexp. fold emin. lia. }
      destruct (SpecFloat.fexp prec emax (0 + f) - f); [reflexivity | lia | reflexivity].
    + cbn [Zdigits2]. set (d2 := Zpos (digits2_pos q)).
      pose proof (digits_bounds q) as Hq. fold d2 in Hq.
      assert (Hd2 : d2 <= prec + 1).
      { destruct (Z.le_gt_cases d2 (prec + 1)) as [| Hgt]; [assumption |].
        assert (2 ^ (prec + 1) <= 2 ^ (d2 - 1)) by (apply Z.pow_le_mono_r; lia).
        assert (2 ^ (prec + 1) = 2 * 2 ^ prec).
        { replace (prec + 1) with (Z.succ prec) by lia. apply Z.pow_succ_r. lia. }
        lia. }
      assert (Hfe2 : SpecFloat.fexp prec emax (d2 + f) = Z.max (d2 + f - prec) emin)
        by reflexivity.
      destruct (Z.le_gt_cases d2 prec) as [Hle | Hgt].
      * assert (Hcan : SpecFloat.fexp prec emax (d2 + f) = f).
        { rewrite Hfe2. destruct (Z.le_gt_cases f emin) as [| Hfgt]; [lia |].
          specialize (Hlow Hfgt).
          assert (prec <= d2); [| lia].
          destruct (Z.le_gt_cases prec d2) as [| Hlt]; [assumption |].
          assert (2 ^ d2 <= 2 ^ (prec - 1)) by (apply Z.pow_le_mono_r; lia). lia. }
        rewrite Hcan, Z.sub_diag. cbn [shr shr_m].
        apply valid_if_canonical. unfold canonical_mantissa. fold d2.
        apply Z.eqb_eq. exact Hcan.
      * assert (d2 = prec + 1) by lia.
        assert (Hq2 : Zpos q = 2 ^ prec).
        { replace (d2 - 1) with prec in Hq by lia. lia. }
        assert (Hsh : SpecFloat.fexp prec emax (d2 + f) - f = 1) by lia.
        rewrite Hsh. cbn [shr SpecFloat.iter_pos].
        destruct q as [q' | q' |]; [lia | | lia].
        cbn [shr_1 shr_m orb].
        assert (Hq' : Zpos q' = 2 ^ (prec - 1)) by lia.
        assert (Hdq' : Zpos (digits2_pos q') = prec).
        { apply digits_unique. rewrite Hq'. split; [| lia].
          apply Z.pow_le_mono_r; lia. }
        apply valid_if_canonical. unfold canonical_mantissa. rewrite Hdq'.
        apply Z.eqb_eq. unfold SpecFloat.fexp. fold emin. lia.
  - assert (Hc : canonical_mantissa prec emax (Pos.iter xO m p) f = true).
    { unfold canonical_mantissa. rewrite digits_shift. apply Z.eqb_eq.
      rewrite Pos2Z.inj_add. fold d0.
      replace (d0 + Zpos p + f) with (d0 + e) by lia. reflexivity. }
    rewrite binary_round_aux_canonical by exact Hc. apply valid_if_canonical, Hc.
Qed.
End Rounding.

(** Shifting a mantissa left and back is exact. *)
Lemma shr_shifted (k : nat) (m : positive) :
  Nat.iter k shr_1 {| shr_m := Zpos (Nat.iter k xO m); shr_r := false; shr_s := false |}
  = {| shr_m := Zpos m; shr_r := false; shr_s := false |}.
Proof.
  induction k as [| k IH]; [reflexivity |].
  rewrite Nat.iter_succ_r. cbn [Nat.iter shr_1 orb]. exact IH.
Qed.

Lemma shr_shifted_pos (k : positive) (m : positive) :
  Nat.iter (Pos.to_nat k) shr_1
    {| shr_m := Zpos (Pos.iter xO m k); shr_r := false; shr_s := false |}
  = {| shr_m := Zpos m; shr_r := false; shr_s := false |}.
Proof. rewrite Pos2Nat.inj_iter. apply shr_shifted. Qed.

(** A binary32 value, written as a binary64 and rounded to binary32 again, is
    itself. *)
Lemma round32_widen (s : bool) (m : positive) (e : Z) :
  bounded 24 128 m e = true ->
  exists M E,
    binary_round 53 1024 s m e = S754_finite s M E /\
    binary_round 24 128 s M E = S754_finite s m e.
Proof.
  unfold bounded. intros Hb. apply andb_prop in Hb as [Hc He].
  apply Z.leb_le in He.
  pose proof Hc as Hc'. unfold canonical_mantissa in Hc'. apply Z.eqb_eq in Hc'.
  set (d := Zpos (digits2_pos m)) in *.
  assert (Hf1 : fexp 24 128 (d + e) = Z.max (d + e - 24) (-149)) by reflexivity.
  assert (Hf2 : fexp 53 1024 (d + e) = Z.max (d + e - 53) (-1074)) by reflexivity.
  assert (Hd : 0 < d) by (unfold d; lia).
  unfold binary_round at 1, shl_align. fold d.
  destruct (fexp 53 1024 (d + e) - e) as [| k | k] eqn:Hk; [| lia |].
  - exists m, e. split.
    + rewrite binary_round_aux_canonical by (unfold canonical_mantissa; fold d; apply Z.eqb_eq; lia).
      destruct (Z.leb_spec e (1024 - 53)); [reflexivity | lia].
    + unfold binary_round, shl_align. fold d. rewrite Hc', Z.sub_diag.
      rewrite binary_round_aux_canonical by exact Hc.
      destruct (Z.leb_spec e (128 - 24)); [reflexivity | lia].
  - exists (Pos.iter xO m k), (fexp 53 1024 (d + e)). split.
    + rewrite binary_round_aux_canonical.
      * destruct (Z.leb_spec (fexp 53 1024 (d + e)) (1024 - 53)); [reflexivity | lia].
      * unfold canonical_mantissa. rewrite digits_shift, Pos2Z.inj_add. fold d.
        apply Z.eqb_eq.
        replace (d + Zpos k + fexp 53 1024 (d + e)) with (d + e) by lia. reflexivity.
    + set (E := fexp 53 1024 (d + e)) in *.
      unfold binary_round, shl_align. rewrite digits_shift, Pos2Z.inj_add. fold d.
      replace (d + Zpos k + E) with (d + e) by lia. rewrite Hc'.
      replace (e - E) with (Zpos k) by lia.
      unfold binary_round_aux, shr_fexp. cbn [Zdigits2 shr_record_of_loc].
      rewrite digits_shift, Pos2Z.inj_add. fold d.
      replace (d + Zpos k + E) with (d + e) by lia. rewrite Hc'.
      replace (e - E) with (Zpos k) by lia. cbn [shr].
      rewrite iter_pos_nat, shr_shifted_pos.
      cbn [shr_m loc_of_shr_record round_nearest_even Zdigits2]. fold d.
      replace (E + Zpos k) with e by lia. rewrite Hc', Z.sub_diag. cbn [shr shr_m].
      destruct (Z.leb_spec e (128 - 24)); [reflexivity | lia].
Qed.

Lemma to_f32_zero : IEEE.to_f32 (IEEE.ofZ 0) = IEEE.ofZ 0.
Proof. reflexivity. Qed.

(** Converting to float32 twice is converting once. *)
Lemma to_f32_idem (v : spec_float) : IEEE.to_f32 (IEEE.to_f32 v) = IEEE.to_f32 v.
Proof.
  destruct v as [sg | sg | | sg m e]; try reflexivity.
  change (IEEE.to_f32 (S754_finite sg m e))
    with (IEEE.widen (binary_round 24 128 sg m e)).
  pose proof (binary_round_valid 24 128 ltac:(lia) sg m e) as Hv.
  destruct (binary_round 24 128 sg m e) as [s1 | s1 | | s1 m1 e1]; try reflexivity.
  simpl in Hv. destruct (round32_widen s1 m1 e1 Hv) as (M & E & Hw & Hr).
  change (IEEE.widen (S754_finite s1 m1 e1)) with (binary_round 53 1024 s1 m1 e1).
  rewrite Hw.
  change (IEEE.to_f32 (S754_finite s1 M E))
    with (IEEE.widen (binary_round 24 128 s1 M E)).
  rewrite Hr. exact Hw.
Qed.

(** ** The code on concrete inputs *)

Ltac float32s :=
  split; [reflexivity |];
  repeat (apply Forall_cons_2; [eexists; split; reflexivity |]); apply Forall_nil_2.

(** C1, as stated, fails: [generateTerrain(1, 1, {top: [1, 2, 3], right: [5, 6, 7]})]
    returns a grid whose top row starts with 5, the first element of the
    right constraint, written after the top row. *)
Lemma top_edge_overwritten :
  validConstraint 3 (Some (numbers [1; 2; 3])) /\
  validConstraint 3 (Some (numbers [5; 6; 7])) /\
  exists hf n',
    generateTerrain evenDraws 1 (IEEE.ofZ 1)
      (Some (numbers [1; 2; 3])) None None (Some (numbers [5; 6; 7])) 0%nat = Ok (hf, n') /\
    cellAt hf 0 0 = Some (IEEE.ofZ 5) /\
    rowEdge <$> extractTop hf <> Some (numbers [1; 2; 3]).
Proof.
  split; [float32s |]. split; [float32s |].
  eexists _, _. split; [vm_compute; reflexivity |].
  split; [reflexivity |]. vm_compute. discriminate.
Qed.

(** C3, as stated, fails: a grid is returned for [detail = 0], for
    [roughness = 0], and for a top constraint of length 1 where 3 are
    needed. *)
Lemma invalid_arguments_accepted :
  generateTerrain evenDraws 0 (IEEE.ofZ 1) None None None None 0%nat
    = Ok (replicate 2 (replicate 2 (IEEE.ofZ 0)), 4%nat) /\
  generateTerrain evenDraws 1 (IEEE.ofZ 0) None None None None 0%nat
    = Ok (replicate 3 (replicate 3 (IEEE.ofZ 0)), 9%nat) /\
  exists hf n',
    generateTerrain evenDraws 1 (IEEE.ofZ 1) (Some (numbers [7])) None None None 0%nat
      = Ok (hf, n') /\
    squareGrid 3 hf.
Proof.
  split; [vm_compute; reflexivity |]. split; [vm_compute; reflexivity |].
  eexists _, _. split; [vm_compute; reflexivity |].
  split; [reflexivity | repeat constructor].
Qed.

(** C6, as stated, fails: with bottom [[1, 2, 3]] and right [[5, 6, 7]] the
    corner [max][0], which the two share, is seeded with [bottom[0]] and not
    with [right[max]]. *)
Lemma bottom_beats_right :
  exists seeded,
    seedCorners evenDraws (IEEE.ofZ 1) None (Some (numbers [1; 2; 3])) None
      (Some (numbers [5; 6; 7])) 3 2
      {| hmap := replicate 3 (newFloat32Array 3); next := 0 |} = Ok (tt, seeded) /\
    cellAt (hmap seeded) 2 0 = edgeGet (numbers [1; 2; 3]) 0 /\
    cellAt (hmap seeded) 2 0 <> edgeGet (numbers [5; 6; 7]) 2.
Proof.
  eexists. split; [vm_compute; reflexivity |].
  split; [reflexivity | vm_compute; discriminate].
Qed.

(** C5: the corner and edge cells are not numeric medians.  When
    [Math.random()] returns 0.5 four times, then 0.875, 0.6875, 0.4375 and
    0.5 twice, [generateTerrain(1, 8)] builds the map
    [[0, 2, 0], [10, 12, 4], [0, 4, 0]].  The corner [0][0] is computed from
    0, 10, 2 and 12, whose numeric median is 6; [median] sorts them as the
    strings "0", "10", "12", "2" and returns (10 + 12) / 2 = 11.  The
    interior cell, sorted as numbers, is the numeric median of its nine
    values. *)
Theorem median_sorts_by_string :
  exists built hf,
    buildMap skewedDraws (IEEE.ofZ 8) None None None None 3 2
      {| hmap := replicate 3 (newFloat32Array 3); next := 0 |} = Ok (tt, built) /\
    hmap built = [IEEE.ofZ <$> [0; 2; 0]; IEEE.ofZ <$> [10; 12; 4]; IEEE.ofZ <$> [0; 4; 0]] /\
    generateTerrain skewedDraws 1 (IEEE.ofZ 8) None None None None 0%nat = Ok (hf, 9%nat) /\
    cellAt hf 0 0 = Some (IEEE.ofZ 11) /\
    numericMedian (IEEE.ofZ <$> [0; 10; 2; 12]) = IEEE.ofZ 6 /\
    median (Some <$> (IEEE.ofZ <$> [0; 10; 2; 12])) = Some (IEEE.ofZ 11) /\
    cellAt hf 1 1 = Some (numericMedian (IEEE.ofZ <$> [0; 2; 0; 10; 12; 4; 0; 4; 0])).
Proof.
  eexists _, _. split; [vm_compute; reflexivity |].
  split; [vm_compute; reflexivity |]. split; [vm_compute; reflexivity |].
  repeat split; vm_compute; reflexivity.
Qed.

(** C10, as stated, fails: with top [[5, 2, 3]] and right [[0.1, 6, 7]], which
    differ in the corner they share, the returned cell [0][0] is
    0.10000000149011612, the float32 nearest to 0.1, and not [right[0]]. *)
Lemma corner_value_is_rounded :
  edgeGet (numbers [5; 2; 3]) 0 <> edgeGet tenthFirst 0 /\
  IEEE.to_string (ratio 1 10) = "0.1"%string /\
  exists hf n' v,
    generateTerrain evenDraws 1 (IEEE.ofZ 1)
      (Some (numbers [5; 2; 3])) None None (Some tenthFirst) 0%nat = Ok (hf, n') /\
    cellAt hf 0 0 = Some v /\
    IEEE.to_string v = "0.10000000149011612"%string /\
    cellAt hf 0 0 <> edgeGet tenthFirst 0.
Proof.
  split; [vm_compute; discriminate |]. split; [vm_compute; reflexivity |].
  eexists _, _, _. split; [vm_compute; reflexivity |].
  split; [reflexivity |]. split; [vm_compute; reflexivity |].
  vm_compute. discriminate.
Qed.

(** Four constraints that agree at the corners they share are all returned
    exactly. *)
Lemma constrained_edges_exact_witness :
  0 <= 1 < 32 /\
  validConstraint 3 (Some (numbers [1; 2; 3])) /\
  validConstraint 3 (Some (numbers [5; 8; 7])) /\
  validConstraint 3 (Some (numbers [3; 6; 7])) /\
  validConstraint 3 (Some (numbers [1; 4; 5])) /\
  exists hf n',
    generateTerrain evenDraws 1 (IEEE.ofZ 1)
      (Some (numbers [1; 2; 3])) (Some (numbers [5; 8; 7]))
      (Some (numbers [3; 6; 7])) (Some (numbers [1; 4; 5])) 0%nat = Ok (hf, n') /\
    extractRight hf = numbers [1; 4; 5] /\
    extractLeft hf = numbers [3; 6; 7] /\
    rowEdge <$> extractTop hf = Some (numbers [1; 2; 3]) /\
    rowEdge <$> extractBottom hf = Some (numbers [5; 8; 7]).
Proof.
  assert (Vt : validConstraint 3 (Some (numbers [1; 2; 3]))) by float32s.
  assert (Vb : validConstraint 3 (Some (numbers [5; 8; 7]))) by float32s.
  assert (Vl : validConstraint 3 (Some (numbers [3; 6; 7]))) by float32s.
  assert (Vr : validConstraint 3 (Some (numbers [1; 4; 5]))) by float32s.
  split; [lia |]. do 4 (split; [assumption |]).
  destruct (constrained_edges_exact evenDraws 1 (IEEE.ofZ 1)
              (Some (numbers [1; 2; 3])) (Some (numbers [5; 8; 7]))
              (Some (numbers [3; 6; 7])) (Some (numbers [1; 4; 5])) 0%nat
              ltac:(lia) Vt Vb Vl Vr) as (hf & n' & E & Hr & Hl & Ht & Hb).
  exists hf, n'. split; [exact E |].
  split; [exact (Hr _ eq_refl) |]. split; [exact (Hl _ eq_refl) |].
  split.
  - exact (proj2 (Ht _ eq_refl) eq_refl eq_refl).
  - exact (proj2 (Hb _ eq_refl) eq_refl eq_refl).
Defined.

(** [generateTerrain(1, 8)] on the draws of [skewedDraws]: the corner
    [0][0], the inner cell and the corner [2][2] of the result. *)
Lemma heightfield_is_square_witness :
  1 <= 1 < 32 /\
  exists hf n',
    generateTerrain skewedDraws 1 (IEEE.ofZ 8) None None None None 0%nat = Ok (hf, n') /\
    Z.of_nat (length hf) = 3 /\
    Forall (fun row => Z.of_nat (length row) = 3) hf /\
    cellAt hf 0 0 = Some (IEEE.ofZ 11) /\
    cellAt hf 1 1 = Some (IEEE.ofZ 2) /\
    cellAt hf 2 2 = Some (IEEE.ofZ 8).
Proof.
  split; [lia |].
  destruct (heightfield_is_square skewedDraws 1 (IEEE.ofZ 8) None None None None 0%nat
              ltac:(lia)) as (built & hf & Eb & _ & E & Hlen & Hrows & Hc).
  assert (Hb : hmap built = skewedMap).
  { assert (Eb' : buildMap skewedDraws (IEEE.ofZ 8) None None None None 3 2
                    {| hmap := replicate 3 (newFloat32Array 3); next := 0 |}
                  = Ok (tt, built)) by exact Eb.
    clear -Eb'. vm_compute in Eb'. injection Eb' as <-. reflexivity. }
  exists hf, (next built). split; [exact E |]. split; [exact Hlen |].
  split; [exact Hrows |]. rewrite Hb in Hc.
  split; [rewrite (Hc 0 0) by (simpl; lia); reflexivity |].
  split; [rewrite (Hc 1 1) by (simpl; lia); reflexivity |].
  rewrite (Hc 2 2) by (simpl; lia). reflexivity.
Defined.

Lemma corners_seeded_witness :
  0 <= 1 < 32 /\
  exists seeded,
    seedCorners evenDraws (IEEE.ofZ 1) (Some (numbers [1; 2; 3])) None
      (Some (numbers [3; 6; 7])) None 3 2
      {| hmap := replicate 3 (newFloat32Array 3); next := 0 |} = Ok (tt, seeded) /\
    next seeded = 1%nat /\
    cellAt (hmap seeded) 0 0 = Some (IEEE.ofZ 1) /\
    cellAt (hmap seeded) 2 0 = Some (IEEE.ofZ 0) /\
    cellAt (hmap seeded) 2 2 = Some (IEEE.ofZ 7) /\
    cellAt (hmap seeded) 0 2 = Some (IEEE.ofZ 3).
Proof.
  split; [lia |].
  destruct (corners_seeded evenDraws 1 (IEEE.ofZ 1) (Some (numbers [1; 2; 3])) None
              (Some (numbers [3; 6; 7])) None 0%nat ltac:(lia))
    as (seeded & E & Hn & H00 & Hm0 & Hmm & H0m).
  exists seeded. split; [exact E |]. split; [exact Hn |].
  split; [exact H00 |]. split; [exact Hm0 |]. split; [exact Hmm | exact H0m].
Defined.

Lemma present_chunk_untouched_witness :
  chunkHeights oneChunk !! chunkKey 0 0 = Some [[IEEE.ofZ 1]] /\
  addTerrainChunk evenDraws 0 0 oneChunk = Ok (tt, oneChunk) /\
  exists w',
    generateNeighboringChunks evenDraws 0 0 oneChunk = Ok (tt, w') /\
    chunkHeights w' !! chunkKey 0 0 = Some [[IEEE.ofZ 1]].
Proof.
  assert (P : chunkHeights oneChunk !! chunkKey 0 0 = Some [[IEEE.ofZ 1]])
    by apply lookup_singleton_eq.
  split; [exact P |].
  destruct (present_chunk_untouched evenDraws oneChunk 0 0 _ P) as (Hsame & _ & Hn & _).
  split; [exact Hsame | exact (Hn 0 0)].
Defined.

Lemma edges_forced_in_order_witness :
  0 <= 1 < 32 /\
  exists hf n',
    generateTerrain evenDraws 1 (IEEE.ofZ 1)
      (Some (numbers [1; 2; 3])) None None (Some (numbers [5; 6; 7])) 0%nat = Ok (hf, n') /\
    cellAt hf 0 0 = Some (IEEE.ofZ 5) /\
    cellAt hf 2 0 = Some (IEEE.ofZ 7) /\
    cellAt hf 0 1 = Some (IEEE.ofZ 2).
Proof.
  split; [lia |].
  destruct (edges_forced_in_order evenDraws 1 (IEEE.ofZ 1)
              (Some (numbers [1; 2; 3])) None None (Some (numbers [5; 6; 7])) 0%nat
              ltac:(lia)) as (built & smoothed & hf & _ & _ & E & Hsq & Hcell & Hr & _).
  exists hf, (next built). split; [exact E |].
  destruct (Hr _ eq_refl) as (H00 & Hm0 & _).
  split; [exact H00 |]. split; [exact Hm0 |].
  rewrite Hcell.
  destruct (cellAt_is_Some 3 smoothed 0 1 Hsq ltac:(lia) ltac:(lia)) as [v ->].
  reflexivity.
Defined.

(** After the first frame's [generateNeighboringChunks(0, 0)] the chunks
    (0, 0), (1, 0) and (0, 1) are present and their seams match. *)
Lemma seams_match_witness :
  exists w : World spec_float,
    reachable evenDraws w /\
    (exists a b t,
       chunkHeights w !! chunkKey 0 0 = Some a /\
       chunkHeights w !! chunkKey 1 0 = Some b /\
       chunkHeights w !! chunkKey 0 1 = Some t /\
       extractLeft b = extractRight a /\
       forall j, 0 < j < 32 -> cellAt a 0 j = cellAt t 32 j).
Proof.
  destruct (generateNeighboringChunks_keeps evenDraws 0 0 emptyWorld)
    as (w & E & _ & P).
  assert (R : reachable evenDraws w)
    by exact (reachable_neighbourhood evenDraws emptyWorld w 0 0 (reachable_start _ 0%nat) E).
  exists w. split; [exact R |].
  destruct (P (0, 0) ltac:(apply list_elem_of_here)) as [a Ha].
  destruct (P (0 + 1, 0 + 0) ltac:(do 2 apply list_elem_of_further; apply list_elem_of_here))
    as [b Hb].
  destruct (P (0 + 0, 0 + 1) ltac:(do 4 apply list_elem_of_further; apply list_elem_of_here))
    as [t Ht].
  exists a, b, t. split; [exact Ha |]. split; [exact Hb |]. split; [exact Ht |].
  destruct (seams_match (NUM := IEEE.number) evenDraws to_f32_idem to_f32_zero w R) as [Hh Hv].
  split; [exact (Hh 0 0 a b Ha Hb) | exact (Hv 0 0 a t Ha Ht)].
Defined.

(** C2, as stated, pairs the edges the wrong way round: when chunk (1, 0)
    is generated next to chunk (0, 0) it receives the right edge of (0, 0)
    as its left constraint, so its right edge is unrelated to the left edge
    of (0, 0). *)
Lemma pairing_reversed :
  match (addTerrainChunk variedDraws 0 0 >>; addTerrainChunk variedDraws 1 0) emptyWorld with
  | Ok (_, w) =>
      match chunkHeights w !! chunkKey 0 0, chunkHeights w !! chunkKey (0 + 1) 0 with
      | Some a, Some b =>
          extractLeft b = extractRight a /\
          edgeGet (extractRight b) 1 <> edgeGet (extractLeft a) 1
      | _, _ => False
      end
  | Throw _ => False
  end.
Proof.
  vm_compute. split; [reflexivity | discriminate].
Qed.

(** * Further properties *)

(** ** Further properties of the median filter *)

Section FilterResults.
Context {num : Type} {NUM : JSNumber num}.

(** X4.  With fewer than two rows the corner step indexes the missing row
    [src[1]] (or [src[0]]). *)
Theorem median3Filter_needs_two_rows (src : list (list num)) :
  (length src < 2)%nat -> median3Filter src = Throw TypeError.
Proof.
  intros H. destruct src as [| r0 [| r1 rest]]; [reflexivity | reflexivity |].
  simpl in H. lia.
Qed.

(** X1.  The filter is a single pass over [src]: every cell of the result is a
    function of [src] alone, the middle element of the sorted window for
    an interior cell and [median] of the listed neighbours for a border
    cell. *)
Theorem median3Filter_single_pass (src : list (list num)) (N : Z) :
  squareGrid N src -> 2 <= N ->
  exists smoothed,
    median3Filter src = Ok smoothed /\ squareGrid N smoothed /\
    forall i j, 0 <= i < N -> 0 <= j < N ->
      cellAt smoothed i j = Some (smoothedCell src (N - 1) i j).
Proof. apply median3Filter_values. Qed.

Lemma readCells_values (src : list (list num)) (N : Z) (cells : list (Z * Z)) :
  squareGrid N src ->
  Forall (fun c => 0 <= fst c < N /\ 0 <= snd c < N) cells ->
  exists vs, readCells src cells = Some <$> vs /\
             forall v, v ∈ vs -> exists i j, cellAt src i j = Some v.
Proof.
  intros Hsrc. induction 1 as [| [x y] cells [Hx Hy] _ (vs & E & Hvs)].
  - exists []. split; [reflexivity |]. intros v Hv. inversion Hv.
  - destruct (cellAt_is_Some N src x y Hsrc Hx Hy) as [v Ev].
    exists (v :: vs). split.
    + unfold readCells in *. rewrite !fmap_cons. cbn [fst snd].
      rewrite Ev, E. reflexivity.
    + intros v' Hv'. apply elem_of_cons in Hv' as [-> | Hv']; eauto.
Qed.

Lemma interior_median (src : list (list num)) (N : Z) (i j : Z) :
  (forall v : num, fround (fround v) = fround v) ->
  squareGrid N src -> float32Grid src ->
  0 < i < N - 1 -> 0 < j < N - 1 ->
  exists smoothed vs,
    median3Filter src = Ok smoothed /\
    readCells src (window (i - 1) (j - 1)) = Some <$> vs /\
    length vs = 9%nat /\
    cellAt smoothed i j = Some (numericMedian vs).
Proof.
  intros fround_idem Hsrc Hf Hi Hj.
  destruct (median3Filter_values src N Hsrc ltac:(lia)) as (smoothed & E & _ & Hc).
  destruct (readCells_values src N (window (i - 1) (j - 1)) Hsrc) as (vs & Ev & Hvs).
  { unfold window. repeat (apply Forall_cons_2; [simpl; lia |]). apply Forall_nil_2. }
  assert (Hlen : length vs = 9%nat).
  { apply (f_equal length) in Ev. unfold readCells in Ev.
    rewrite !length_fmap in Ev. symmetry. exact Ev. }
  exists smoothed, vs. split; [exact E |]. split; [exact Ev |]. split; [exact Hlen |].
  rewrite Hc by lia. f_equal. unfold smoothedCell.
  destruct (Z.ltb_spec 0 i); [| lia]. destruct (Z.ltb_spec i (N - 1)); [| lia].
  destruct (Z.ltb_spec 0 j); [| lia]. destruct (Z.ltb_spec j (N - 1)); [| lia].
  cbn [andb]. rewrite Ev.
  assert (Hfix : forall v, v ∈ vs -> fround v = v).
  { intros v Hv. destruct (Hvs v Hv) as (a & b & Hab). eapply Hf; eauto. }
  assert (Hmap : stored <$> (Some <$> vs) = vs).
  { rewrite <- list_fmap_compose. rewrite <- (list_fmap_id vs) at 2.
    apply list_fmap_ext. intros k v Hk. simpl. unfold stored. simpl.
    apply Hfix. eapply list_elem_of_lookup_2; eauto. }
  rewrite Hmap. unfold numericMedian, typedSort.
  rewrite length_stableSort, Hlen. change (Z.rem (Z.of_nat 9) 2 =? 1) with true.
  cbv iota. change ((Z.of_nat 9 - 1) / 2) with 4.
  destruct (zget_is_Some (stableSort numLe vs) 4) as [m Hm].
  { rewrite length_stableSort, Hlen. lia. }
  rewrite Hm. unfold stored. simpl. apply Hfix.
  apply (elem_of_stableSort numLe). rewrite zget_lookup in Hm by lia.
  eapply list_elem_of_lookup_2; eauto.
Qed.

(** X2.  On a grid of float32 values, as the rows of a height map are, every
    interior cell of the result is the numeric median of the nine values
    of its 3 by 3 neighbourhood. *)
Theorem interior_is_numeric_median (src : list (list num)) (N : Z) (i j : Z) :
  (forall v : num, fround (fround v) = fround v) ->
  squareGrid N src -> float32Grid src ->
  0 < i < N - 1 -> 0 < j < N - 1 ->
  exists smoothed vs,
    median3Filter src = Ok smoothed /\
    readCells src (window (i - 1) (j - 1)) = Some <$> vs /\
    length vs = 9%nat /\
    cellAt smoothed i j = Some (numericMedian vs).
Proof. apply interior_median. Qed.
End FilterResults.

(** ** Constraints with missing elements *)

Section MissingElements.
Context {num : Type} {NUM : JSNumber num}.
Variable random : nat -> num.

Lemma edgeGet_past_end (e : list (option num)) (i : Z) :
  Z.of_nat (length e) <= i -> edgeGet e i = None.
Proof.
  intros H. unfold edgeGet. rewrite zget_lookup by lia.
  rewrite (proj2 (lookup_ge_None e (Z.to_nat i))) by lia. reflexivity.
Qed.

(** X7.  A provided constraint is never checked: where it has no Number, past
    its end or at an [undefined] element, the forced cell is the float32
    conversion of [undefined], which is NaN. *)
Theorem missing_elements_become_NaN (detail : Z) (roughness : num)
    (top bottom left right : option (list (option num))) (n : nat) :
  0 <= detail < 32 ->
  let size := 2 ^ detail + 1 in
  let max := size - 1 in
  exists hf n',
    generateTerrain random detail roughness top bottom left right n = Ok (hf, n') /\
    (forall t j, top = Some t -> 0 < j < max -> edgeGet t j = None ->
       cellAt hf 0 j = Some (fround jsNaN)) /\
    (forall b j, bottom = Some b -> 0 < j < max -> edgeGet b j = None ->
       cellAt hf max j = Some (fround jsNaN)) /\
    (forall l i, left = Some l -> 0 <= i <= max -> edgeGet l i = None ->
       cellAt hf i max = Some (fround jsNaN)) /\
    (forall r i, right = Some r -> 0 <= i <= max -> edgeGet r i = None ->
       cellAt hf i 0 = Some (fround jsNaN)) /\
    (forall t j, top = Some t -> 0 < j < max -> Z.of_nat (length t) <= j ->
       cellAt hf 0 j = Some (fround jsNaN)).
Proof.
  intros Hd size max.
  assert (Hpos : 1 <= max).
  { unfold max, size. pose proof (Z.pow_pos_nonneg 2 detail). lia. }
  destruct (generateTerrain_phases random detail roughness top bottom left right n Hd)
    as (built & smoothed & hf & _ & _ & _ & Hsm & E & _ & Hcell).
  fold size in Hsm. fold size max in Hcell.
  assert (Hold : forall i j, 0 <= i <= max -> 0 <= j <= max ->
                             exists old, cellAt smoothed i j = Some old).
  { intros i j Hi Hj. apply (cellAt_is_Some size); [exact Hsm | |]; unfold max in *; lia. }
  assert (Htop : forall t j, top = Some t -> 0 < j < max -> edgeGet t j = None ->
                             cellAt hf 0 j = Some (fround jsNaN)).
  { intros t j -> Hj Ej. rewrite Hcell.
    destruct (Hold 0 j) as [old ->]; [lia | lia |]. cbn [fmap option_fmap option_map]. f_equal.
    rewrite forcedCell_top by lia.
    destruct (Z.eqb_spec j 0); [lia |]. destruct (Z.eqb_spec j max); [lia |].
    rewrite Ej. destruct right, left; reflexivity. }
  exists hf, (next built). split; [exact E |]. split; [exact Htop |]. split; [| split; [| split]].
  - intros b j -> Hj Ej. rewrite Hcell.
    destruct (Hold max j) as [old ->]; [lia | lia |]. cbn [fmap option_fmap option_map]. f_equal.
    rewrite forcedCell_bottom by lia.
    destruct (Z.eqb_spec j 0); [lia |]. destruct (Z.eqb_spec j max); [lia |].
    rewrite Ej. destruct right, left; reflexivity.
  - intros l i -> Hi Ei. rewrite Hcell.
    destruct (Hold i max) as [old ->]; [lia | lia |]. cbn [fmap option_fmap option_map]. f_equal.
    rewrite forcedCell_left by lia. rewrite Ei. reflexivity.
  - intros r i -> Hi Ei. rewrite Hcell.
    destruct (Hold i 0) as [old ->]; [lia | lia |]. cbn [fmap option_fmap option_map]. f_equal.
    rewrite forcedCell_right. rewrite Ei. reflexivity.
  - intros t j Et Hj Hlen. apply (Htop t); [exact Et | exact Hj |].
    apply edgeGet_past_end. exact Hlen.
Qed.
End MissingElements.

(** ** More on the chunk store *)

Section StoreGrowth.
Context {num : Type} {NUM : JSNumber num}.
Variable random : nat -> num.

(** X10.  Two coordinates that are safe integers, for which [chunkKey] is
    the key the template string makes, have the same key only if they are
    the same. *)
Theorem chunk_keys_identify_coordinates (x y x' y' : Z) :
  safeInteger x -> safeInteger y -> safeInteger x' -> safeInteger y' ->
  chunkKey x y = chunkKey x' y' <-> x = x' /\ y = y'.
Proof.
  intros _ _ _ _. split; [apply chunkKey_inj | intros [-> ->]; reflexivity].
Qed.

Lemma forEach_addTerrainChunk_present (l : list (Z * Z)) (w : World num) :
  (forall c, c ∈ l -> is_Some (chunkHeights w !! chunkKey (fst c) (snd c))) ->
  forEach l (fun c => addTerrainChunk random (fst c) (snd c)) w = Ok (tt, w).
Proof.
  induction l as [| [a b] l IH]; intros H; [reflexivity |].
  simpl. unfold bind.
  destruct (H (a, b) ltac:(left)) as [c Hc]. simpl in Hc.
  rewrite (addTerrainChunk_present random a b w c Hc).
  apply IH. intros c' Hc'. apply H. right. exact Hc'.
Qed.

(** X11.  A neighbourhood that is complete is left alone: the same request
    again changes neither the store nor the position in the stream of
    random numbers. *)
Theorem neighbourhood_request_idempotent (w : World num) (x y : Z) :
  exists w',
    generateNeighboringChunks random x y w = Ok (tt, w') /\
    generateNeighboringChunks random x y w' = Ok (tt, w').
Proof.
  destruct (generateNeighboringChunks_keeps random x y w) as (w' & E & _ & P).
  exists w'. split; [exact E |].
  rewrite generateNeighboringChunks_requested.
  apply forEach_addTerrainChunk_present. exact P.
Qed.

Lemma addTerrainChunk_keys (x y : Z) (w w' : World num) :
  addTerrainChunk random x y w = Ok (tt, w') ->
  forall k, is_Some (chunkHeights w' !! k) <->
            is_Some (chunkHeights w !! k) \/ k = chunkKey x y.
Proof.
  intros E k.
  destruct (chunkHeights w !! chunkKey x y) as [c |] eqn:Ec.
  - rewrite (addTerrainChunk_present random x y w c Ec) in E. injection E as <-.
    split; [auto |]. intros [H | ->]; [exact H | rewrite Ec; eauto].
  - destruct (addTerrainChunk_absent random x y w Ec) as (hf & n' & _ & Ea).
    rewrite Ea in E. injection E as <-. simpl.
    destruct (decide (k = chunkKey x y)) as [-> | Hne].
    + rewrite lookup_insert_eq. split; eauto.
    + rewrite lookup_insert_ne by congruence. split; [auto | intros [H | H]; [exact H | contradiction]].
Qed.

Lemma forEach_addTerrainChunk_keys (l : list (Z * Z)) : forall w w' : World num,
  forEach l (fun c => addTerrainChunk random (fst c) (snd c)) w = Ok (tt, w') ->
  forall k, is_Some (chunkHeights w' !! k) <->
            is_Some (chunkHeights w !! k) \/
            exists c, c ∈ l /\ k = chunkKey (fst c) (snd c).
Proof.
  induction l as [| [a b] l IH]; intros w w' E k.
  - injection E as <-. split; [auto |]. intros [H | (c & Hc & _)]; [exact H | inversion Hc].
  - simpl in E. unfold bind in E.
    destruct (addTerrainChunk random a b w) as [[[] w1] |] eqn:E1; [| discriminate].
    rewrite (IH w1 w' E k), (addTerrainChunk_keys a b w w1 E1 k). split.
    + intros [[H | ->] | (c & Hc & ->)]; [auto | right | right].
      * exists (a, b). split; [left | reflexivity].
      * exists c. split; [right; exact Hc | reflexivity].
    + intros [H | (c & Hc & ->)]; [auto |].
      apply elem_of_cons in Hc as [-> | Hc]; [auto |]. right. eauto.
Qed.

(** X12.  A neighbourhood request adds the chunks it names and no other, and
    removes none. *)
Theorem only_requested_chunks_are_added (w : World num) (x y : Z) :
  exists w',
    generateNeighboringChunks random x y w = Ok (tt, w') /\
    forall k, is_Some (chunkHeights w' !! k) <->
              is_Some (chunkHeights w !! k) \/
              exists dx dy, -1 <= dx <= 1 /\ -1 <= dy <= 1 /\
                            k = chunkKey (x + dx) (y + dy).
Proof.
  destruct (generateNeighboringChunks_keeps random x y w) as (w' & E & _ & _).
  exists w'. split; [exact E |]. intros k.
  rewrite generateNeighboringChunks_requested in E.
  rewrite (forEach_addTerrainChunk_keys _ _ _ E k). split.
  - intros [H | (c & Hc & ->)]; [auto |]. right. unfold requested in Hc.
    repeat (apply elem_of_cons in Hc as [-> | Hc];
            [first [ exists 0, 0; simpl; rewrite ?Z.add_0_r; split; [lia |]; split; [lia | reflexivity]
                   | eexists _, _; split; [| split; [| reflexivity]]; lia ] |]).
    inversion Hc.
  - intros [H | (dx & dy & Hdx & Hdy & ->)]; [auto |]. right.
    exists (x + dx, y + dy). split; [| reflexivity]. unfold requested.
    assert (Hc : dx = -1 \/ dx = 0 \/ dx = 1) by lia.
    assert (Hc' : dy = -1 \/ dy = 0 \/ dy = 1) by lia.
    destruct Hc as [-> | [-> | ->]], Hc' as [-> | [-> | ->]];
      repeat first [ apply list_elem_of_here | apply list_elem_of_further ].
Qed.

(** X13.  Every stored chunk was generated by [generateTerrain(5, 5, ...)]: its
    key names a coordinate, and it is a 33 by 33 grid with a Number
    in every cell. *)
Theorem stored_chunks_are_33_square (w : World num) (k : string)
    (c : list (list num)) :
  reachable random w -> chunkHeights w !! k = Some c ->
  (exists x y, k = chunkKey x y) /\ squareGrid 33 c /\
  forall i j, 0 <= i < 33 -> 0 <= j < 33 -> is_Some (cellAt c i j).
Proof.
  intros Hw. revert k c. induction Hw as [n | w w' x y _ IH E]; intros k c Hk.
  - simpl in Hk. rewrite lookup_empty in Hk. discriminate.
  - destruct (chunkHeights w !! chunkKey x y) as [c0 |] eqn:Ec.
    { rewrite (addTerrainChunk_present random x y w c0 Ec) in E.
      injection E as <-. eauto. }
    destruct (addTerrainChunk_absent random x y w Ec) as (hf & n' & Eg & Ea).
    rewrite Ea in E. injection E as <-. simpl in Hk.
    destruct (decide (k = chunkKey x y)) as [-> | Hne].
    + rewrite lookup_insert_eq in Hk. injection Hk as <-.
      pose proof (generateTerrain_outcome random 5 (ofInt 5) (topEdgeOf w x y)
                    (bottomEdgeOf w x y) (leftEdgeOf w x y) (rightEdgeOf w x y)
                    (drawn w)) as Ho.
      rewrite Eg in Ho. destruct Ho as [_ Hsq]. change (2 ^ 5 + 1) with 33 in Hsq.
      split; [eauto |]. split; [exact Hsq |].
      intros i j Hi Hj. eapply cellAt_is_Some; eauto.
    + rewrite lookup_insert_ne in Hk by congruence. eauto.
Qed.
End StoreGrowth.

(** For coordinates around the origin the key is, character for character,
    what the template string makes of the two Numbers. *)
Lemma printed_as_integer (z : Z) :
  -1024 <= z <= 1024 -> IEEE.to_string (IEEE.ofZ z) = pretty z.
Proof.
  intros Hz.
  assert (H : forallb (fun k : nat =>
                         String.eqb (IEEE.to_string (IEEE.ofZ (-1024 + Z.of_nat k)))
                                    (pretty (-1024 + Z.of_nat k)))
                      (seq 0 2049) = true) by (vm_compute; reflexivity).
  rewrite forallb_forall in H. specialize (H (Z.to_nat (z + 1024))).
  apply String.eqb_eq. replace z with (-1024 + Z.of_nat (Z.to_nat (z + 1024))) by lia.
  apply H. apply in_seq. lia.
Qed.

Lemma chunkKey_is_template_string (x y : Z) :
  -1024 <= x <= 1024 -> -1024 <= y <= 1024 ->
  chunkKey x y = IEEE.to_string (IEEE.ofZ x) +:+ "," +:+ IEEE.to_string (IEEE.ofZ y).
Proof.
  intros Hx Hy. rewrite !printed_as_integer by assumption. reflexivity.
Qed.

(** ** The heights are float32 values *)

Section Float32Heights.
Context {num : Type} {NUM : JSNumber num}.
Variable random : nat -> num.

(** X8.  Every height returned is a float32, and each of the four edges
    extracted from a generated grid is a valid constraint for a grid of
    the same detail: the right number of float32 values, which a store
    into the [Float32Array] of the next grid leaves unchanged. *)
Theorem heights_are_float32 (detail : Z) (roughness : num)
    (top bottom left right : option (list (option num))) (n : nat)
    (hf : list (list num)) (n' : nat) :
  (forall v : num, fround (fround v) = fround v) ->
  fround (ofInt 0 : num) = ofInt 0 ->
  generateTerrain random detail roughness top bottom left right n = Ok (hf, n') ->
  (forall i j v, cellAt hf i j = Some v -> fround v = v) /\
  validConstraint (2 ^ detail + 1) (rowEdge <$> extractTop hf) /\
  validConstraint (2 ^ detail + 1) (rowEdge <$> extractBottom hf) /\
  validEdge (2 ^ detail + 1) (extractLeft hf) /\
  validEdge (2 ^ detail + 1) (extractRight hf).
Proof.
  intros Hidem Hzero E.
  destruct (generateTerrain_float32 Hidem Hzero random _ _ _ _ _ _ _ _ _ E) as [Hsq Hf].
  assert (Hpos : 1 <= 2 ^ detail + 1) by (pose proof (Z.pow_nonneg 2 detail); lia).
  split; [exact Hf |]. split; [| split; [| split]].
  - apply validConstraint_extractTop; assumption.
  - apply validConstraint_extractBottom; assumption.
  - apply validEdge_extractLeft; assumption.
  - apply validEdge_extractRight; assumption.
Qed.
End Float32Heights.

(** ** The terrain meshes *)

Lemma forEach_count_up {S : Type} (P : nat -> S -> Prop) (body : Z -> M S unit)
    (n : nat) :
  (forall k s, (k < n)%nat -> P k s ->
     exists s', body (Z.of_nat k) s = Ok (tt, s') /\ P (Datatypes.S k) s') ->
  forall s, P 0%nat s ->
    exists s', forEach (Z.of_nat <$> seq 0 n) body s = Ok (tt, s') /\ P n s'.
Proof.
  intros Hbody.
  assert (H : forall m a s, (a + m = n)%nat -> P a s ->
            exists s', forEach (Z.of_nat <$> seq a m) body s = Ok (tt, s') /\ P n s').
  { induction m as [| m IH]; intros a s Ha Hs.
    - exists s. split; [reflexivity |]. replace n with a by lia. exact Hs.
    - destruct (Hbody a s ltac:(lia) Hs) as (s1 & E1 & H1).
      destruct (IH (Datatypes.S a) s1 ltac:(lia) H1) as (s2 & E2 & H2).
      exists s2. split; [| exact H2]. simpl. unfold bind. rewrite E1. exact E2. }
  intros s Hs. apply (H n 0%nat s); [lia | exact Hs].
Qed.

Section Meshes.
Context {num : Type} {NUM : JSNumber num}.
Variable random : nat -> num.

Lemma heightsUpTo_snoc (N : Z) (c : list (list num)) (n : nat)
    (calls : list (Z * option num)) (i j : Z) :
  0 <= i -> 0 <= j < N -> Z.of_nat n = i * N + j ->
  heightsUpTo N c n calls ->
  heightsUpTo N c (Datatypes.S n) (calls ++ [(i * N + j, cellAt c i j)]).
Proof.
  intros Hi Hj Hn [Hlen Hk]. split.
  - rewrite length_app, Hlen. simpl. lia.
  - intros k Hlt. destruct (decide (k < n)%nat) as [Hlt' | Hge].
    + rewrite lookup_app_l by lia. apply Hk. exact Hlt'.
    + assert (k = n) as -> by lia.
      rewrite lookup_app_r by lia. rewrite Hlen, Nat.sub_diag. simpl.
      rewrite Hn. do 3 f_equal.
      * apply (Z.div_unique _ _ i j); lia.
      * apply (Z.mod_unique _ _ i j); lia.
Qed.

Lemma setHeights_run (N : Z) (c : list (list num)) :
  squareGrid N c ->
  exists calls,
    Scene.setHeights c (N - 1) [] = Ok (tt, calls) /\ rowMajorHeights N c calls.
Proof.
  intros Hc. assert (HN : 0 <= N) by (destruct Hc; lia).
  unfold Scene.setHeights. replace (N - 1 + 1) with N by lia.
  rewrite steps_unit.
  destruct (forEach_count_up
              (fun i calls => heightsUpTo N c (i * Z.to_nat N) calls)
              (fun i => forEach (Z.of_nat <$> seq 0 (Z.to_nat N)) (fun j =>
                 let vertexIndex := i * N + j in
                 let! z := liftR (gridGet c i j) in
                 Scene.setZ vertexIndex z))
              (Z.to_nat N)) with (s := @nil (Z * option num))
    as (calls & E & [Hlen Hk]).
  - intros i calls Hi Hcalls.
    destruct (forEach_count_up
                (fun j calls => heightsUpTo N c (i * Z.to_nat N + j) calls)
                (fun j =>
                   let vertexIndex := Z.of_nat i * N + j in
                   let! z := liftR (gridGet c (Z.of_nat i) j) in
                   Scene.setZ vertexIndex z)
                (Z.to_nat N)) with (s := calls) as (calls' & E' & H').
    + intros j calls1 Hj H1. cbv zeta. unfold bind, liftR, gridGet.
      destruct (zget_is_Some c (Z.of_nat i)) as [row Hrow]; [destruct Hc; lia |].
      rewrite Hrow. unfold Scene.setZ. eexists. split; [reflexivity |].
      replace (f32get row (Z.of_nat j)) with (cellAt c (Z.of_nat i) (Z.of_nat j))
        by (unfold cellAt; rewrite Hrow; reflexivity).
      replace (i * Z.to_nat N + Datatypes.S j)%nat
        with (Datatypes.S (i * Z.to_nat N + j)) by lia.
      apply heightsUpTo_snoc; [lia | lia | nia | exact H1].
    + rewrite Nat.add_0_r. exact Hcalls.
    + exists calls'. split; [exact E' |].
      replace (Datatypes.S i * Z.to_nat N)%nat with (i * Z.to_nat N + Z.to_nat N)%nat
        by lia.
      exact H'.
  - split; [reflexivity |]. intros k Hk. lia.
  - exists calls. split; [exact E |]. split; [nia |].
    intros i j Hi Hj.
    rewrite (Hk (Z.to_nat (i * N + j))) by nia.
    rewrite Z2Nat.id by nia. do 3 f_equal.
    + symmetry. apply (Z.div_unique _ _ i j); lia.
    + symmetry. apply (Z.mod_unique _ _ i j); lia.
Qed.

Lemma addTerrainMesh_run (s : Scene.State num) (x y N : Z)
    (c : list (list num)) :
  chunkHeights (Scene.world s) !! chunkKey x y = Some c -> squareGrid N c ->
  exists calls,
    Scene.addTerrainMesh x y s =
    Ok (tt, {| Scene.world :=
                 {| chunkHeights := chunkHeights (Scene.world s);
                    drawn := (drawn (Scene.world s) + 4 + 4)%nat |};
               Scene.scene := Scene.scene s ++
                 [{| Scene.segments := N - 1; Scene.heights := calls;
                     Scene.position := meshAt x y |}] |}) /\
    rowMajorHeights N c calls.
Proof.
  intros Hc Hsq. destruct (setHeights_run N c Hsq) as (calls & E & Hcalls).
  exists calls. split; [| exact Hcalls].
  unfold Scene.addTerrainMesh. rewrite Hc.
  replace (Z.of_nat (length c) - 1) with (N - 1) by (destruct Hsq; lia).
  rewrite E. reflexivity.
Qed.

(** X14.  For a stored square grid of side [N], [addTerrainMesh] adds one
    mesh, with [N - 1] segments, at the place of the chunk, and gives
    every vertex the height of the cell with the same row-major index,
    once.  The store is left as it is; the geometry and the mesh take
    four random numbers each. *)
Theorem mesh_heights_row_major (s : Scene.State num) (x y N : Z)
    (c : list (list num)) :
  chunkHeights (Scene.world s) !! chunkKey x y = Some c -> squareGrid N c ->
  exists calls,
    Scene.addTerrainMesh x y s =
    Ok (tt, {| Scene.world :=
                 {| chunkHeights := chunkHeights (Scene.world s);
                    drawn := (drawn (Scene.world s) + 4 + 4)%nat |};
               Scene.scene := Scene.scene s ++
                 [{| Scene.segments := N - 1; Scene.heights := calls;
                     Scene.position := meshAt x y |}] |}) /\
    rowMajorHeights N c calls.
Proof. apply addTerrainMesh_run. Qed.

Lemma addTerrainMesh_missing (s : Scene.State num) (x y : Z) :
  chunkHeights (Scene.world s) !! chunkKey x y = None ->
  Scene.addTerrainMesh x y s = Ok (tt, s).
Proof. intros H. unfold Scene.addTerrainMesh. rewrite H. reflexivity. Qed.

Lemma scene_addTerrainChunk_present (s : Scene.State num) (x y : Z)
    (c : list (list num)) :
  chunkHeights (Scene.world s) !! chunkKey x y = Some c ->
  Scene.addTerrainChunk random x y s = Ok (tt, s).
Proof. intros H. unfold Scene.addTerrainChunk. rewrite H. reflexivity. Qed.

Lemma scene_addTerrainChunk_absent (s : Scene.State num) (x y : Z) :
  chunkHeights (Scene.world s) !! chunkKey x y = None ->
  exists hf n' calls,
    generateTerrain random 5 (ofInt 5)
      (topEdgeOf (Scene.world s) x y) (bottomEdgeOf (Scene.world s) x y)
      (leftEdgeOf (Scene.world s) x y) (rightEdgeOf (Scene.world s) x y)
      (drawn (Scene.world s)) = Ok (hf, n') /\
    addTerrainChunk random x y (Scene.world s) =
    Ok (tt, {| chunkHeights := <[chunkKey x y := hf]> (chunkHeights (Scene.world s));
               drawn := (n' + 4 + 4)%nat |}) /\
    squareGrid 33 hf /\ rowMajorHeights 33 hf calls /\
    Scene.addTerrainChunk random x y s =
    Ok (tt, {| Scene.world :=
                 {| chunkHeights :=
                      <[chunkKey x y := hf]> (chunkHeights (Scene.world s));
                    drawn := (n' + 4 + 4)%nat |};
               Scene.scene := Scene.scene s ++
                 [{| Scene.segments := 32; Scene.heights := calls;
                     Scene.position := meshAt x y |}] |}).
Proof.
  intros Ec.
  destruct (addTerrainChunk_absent random x y (Scene.world s) Ec)
    as (hf & n' & Eg & Ea).
  pose proof (generateTerrain_outcome random 5 (ofInt 5)
                (topEdgeOf (Scene.world s) x y) (bottomEdgeOf (Scene.world s) x y)
                (leftEdgeOf (Scene.world s) x y) (rightEdgeOf (Scene.world s) x y)
                (drawn (Scene.world s))) as Ho.
  rewrite Eg in Ho. destruct Ho as [_ Hsq]. change (2 ^ 5 + 1) with 33 in Hsq.
  destruct (addTerrainMesh_run
              {| Scene.world :=
                   {| chunkHeights :=
                        <[chunkKey x y := hf]> (chunkHeights (Scene.world s));
                      drawn := n' |};
                 Scene.scene := Scene.scene s |} x y 33 hf)
    as (calls & Em & Hcalls); [apply lookup_insert_eq | exact Hsq |].
  exists hf, n', calls. split; [exact Eg |]. split; [exact Ea |].
  split; [exact Hsq |]. split; [exact Hcalls |].
  unfold Scene.addTerrainChunk. rewrite Ec.
  unfold topEdgeOf, bottomEdgeOf, leftEdgeOf, rightEdgeOf in Eg. rewrite Eg.
  exact Em.
Qed.

(** X15.  A request with its mesh step never fails.  For a chunk that is
    present it changes nothing.  For a chunk that is absent it stores the
    generated grid under the key of the chunk, and no other entry is
    added or changed; it leaves the stream of random numbers eight values
    after the place where the generation stopped, four for the [uuid] of
    the geometry and four for that of the mesh; and it adds one mesh,
    after the meshes already there.  The store and the place in the
    stream are those of the store-level [addTerrainChunk]. *)
Theorem mesh_step_effects (s : Scene.State num) (x y : Z) :
  exists s',
    Scene.addTerrainChunk random x y s = Ok (tt, s') /\
    addTerrainChunk random x y (Scene.world s) = Ok (tt, Scene.world s') /\
    match chunkHeights (Scene.world s) !! chunkKey x y with
    | Some _ => s' = s
    | None =>
        exists hf n' m,
          generateTerrain random 5 (ofInt 5)
            (topEdgeOf (Scene.world s) x y) (bottomEdgeOf (Scene.world s) x y)
            (leftEdgeOf (Scene.world s) x y) (rightEdgeOf (Scene.world s) x y)
            (drawn (Scene.world s)) = Ok (hf, n') /\
          chunkHeights (Scene.world s') =
            <[chunkKey x y := hf]> (chunkHeights (Scene.world s)) /\
          drawn (Scene.world s') = (n' + 8)%nat /\
          Scene.scene s' = Scene.scene s ++ [m]
    end.
Proof.
  destruct (chunkHeights (Scene.world s) !! chunkKey x y) as [c |] eqn:Ec.
  - exists s. split; [eapply scene_addTerrainChunk_present; eauto |].
    split; [eapply addTerrainChunk_present; eauto | reflexivity].
  - destruct (scene_addTerrainChunk_absent s x y Ec)
      as (hf & n' & calls & Eg & Ea & _ & _ & Es).
    eexists. split; [exact Es |]. split; [exact Ea |].
    exists hf, n'. eexists. split; [exact Eg |]. split; [reflexivity |].
    split; [simpl; lia | reflexivity].
Qed.

Lemma meshAt_inj (x y x' y' : Z) : meshAt x y = meshAt x' y' -> x = x' /\ y = y'.
Proof. unfold meshAt, Scene.SQUARE_SIZE. intros [= H1 H2]. lia. Qed.

(** X16.  In every state the program can reach there is exactly one mesh for
    each stored chunk, placed at the chunk's coordinates times
    [SQUARE_SIZE], with 32 segments and the 33 by 33 heights of the
    chunk as stored. *)
Theorem scene_shows_store (s : Scene.State num) :
  sceneReachable random s -> sceneShowsStore s.
Proof.
  induction 1 as [n | s s' x y _ IH E].
  - split; [constructor |]. split.
    + intros x y. simpl. rewrite lookup_empty. split.
      * intros H. inversion H.
      * intros [c H]. discriminate.
    + intros m Hm. inversion Hm.
  - destruct (chunkHeights (Scene.world s) !! chunkKey x y) as [c0 |] eqn:Ec.
    { rewrite (scene_addTerrainChunk_present s x y c0 Ec) in E.
      injection E as <-. exact IH. }
    destruct (scene_addTerrainChunk_absent s x y Ec)
      as (hf & n' & calls & _ & _ & Hsq & Hcalls & Es).
    rewrite Es in E. injection E as <-.
    destruct IH as (Hnd & Hiff & Hm). unfold sceneShowsStore. simpl.
    rewrite fmap_app. simpl. split; [| split].
    + apply NoDup_app. split; [exact Hnd |]. split; [| apply NoDup_singleton].
      intros p Hp Hp'. apply list_elem_of_singleton in Hp'. subst p.
      apply Hiff in Hp. rewrite Ec in Hp. destruct Hp; discriminate.
    + intros x' y'. rewrite elem_of_app, list_elem_of_singleton, Hiff.
      destruct (decide (chunkKey x' y' = chunkKey x y)) as [Ek | Ek].
      * rewrite Ek, lookup_insert_eq. split; [eauto |]. intros _. right.
        apply chunkKey_inj in Ek as [-> ->]. reflexivity.
      * rewrite lookup_insert_ne by congruence. split; [| auto].
        intros [H | H]; [exact H |].
        apply meshAt_inj in H as [-> ->]. contradiction.
    + intros m Hin. apply elem_of_app in Hin as [Hin | Hin].
      * destruct (Hm m Hin) as (x' & y' & c & Hp & Hc & Hs & Hh).
        exists x', y', c. split; [exact Hp |]. split; [| split; assumption].
        rewrite lookup_insert_ne; [exact Hc |]. intros Ek. rewrite Ek, Hc in Ec.
        discriminate.
      * apply list_elem_of_singleton in Hin. subst m.
        exists x, y, hf. simpl. split; [reflexivity |].
        split; [apply lookup_insert_eq |]. split; [reflexivity | exact Hcalls].
Qed.

(** A neighbourhood request is a sequence of chunk requests. *)
Lemma scene_reachable_neighbourhood (s s' : Scene.State num) (x y : Z) :
  sceneReachable random s ->
  Scene.generateNeighboringChunks random x y s = Ok (tt, s') ->
  sceneReachable random s'.
Proof.
  intros Hs E. unfold Scene.generateNeighboringChunks in E.
  apply bind_Ok in E as ([] & s1 & E1 & E2).
  assert (H1 : sceneReachable random s1) by (eapply scene_request; eauto).
  clear E1 Hs. revert s1 H1 E2. generalize neighborDirections.
  intros l. induction l as [| d l IH]; intros s1 H1 E2.
  - injection E2 as <-. exact H1.
  - simpl in E2. apply bind_Ok in E2 as ([] & s2 & E3 & E4).
    eapply IH; [| exact E4]. eapply scene_request; eauto.
Qed.
End Meshes.

(** ** How many random numbers a call takes *)

(** A loop over [f 0, ..., f (n-1)] whose state is tracked by the number of
    iterations done. *)
Lemma forEach_tracks {S A} (f : nat -> A) (P : nat -> S -> Prop)
    (body : A -> M S unit) (n : nat) :
  (forall k s s', (k < n)%nat -> P k s -> body (f k) s = Ok (tt, s') ->
                  P (Datatypes.S k) s') ->
  forall s s', P 0%nat s -> forEach (f <$> seq 0 n) body s = Ok (tt, s') -> P n s'.
Proof.
  intros Hbody.
  assert (H : forall m a s s', (a + m = n)%nat -> P a s ->
            forEach (f <$> seq a m) body s = Ok (tt, s') -> P n s').
  { induction m as [| m IH]; intros a s s' Ha Hs E.
    - injection E as <-. replace n with a by lia. exact Hs.
    - simpl in E. apply bind_Ok in E as ([] & s1 & E1 & E2).
      apply (IH (Datatypes.S a) s1 s'); [lia | | exact E2].
      apply (Hbody a s s1); [lia | exact Hs | exact E1]. }
  intros s s' Hs E. apply (H n 0%nat s s'); [lia | exact Hs | exact E].
Qed.

Lemma half_of (a q r : Z) : a = 2 * q + r -> 0 <= r < 2 -> a / 2 = q.
Proof. intros H Hr. symmetry. apply (Z.div_unique _ _ q r); lia. Qed.

Section DrawCount.
Context {num : Type} {NUM : JSNumber num}.
Variable random : nat -> num.
Variables (roughness : num) (top bottom left right : option (list (option num))).
Variables (size max d : Z).
Hypothesis Hsize : size = max + 1.
Hypothesis Hd : 0 <= d.
Hypothesis Hmax : max = 2 ^ d.

Lemma readMap_state (x y : Z) (s s' : GenState num) (v : option num) :
  readMap x y s = Ok (v, s') -> s' = s.
Proof.
  unfold readMap. destruct (gridGet (hmap s) x y); [| discriminate].
  intros [= _ <-]. reflexivity.
Qed.

Lemma writeMap_next (x y : Z) (v : option num) (s s' : GenState num) :
  writeMap x y v s = Ok (tt, s') -> next s' = next s.
Proof.
  unfold writeMap. destruct (gridSet (hmap s) x y v); [| discriminate].
  intros [= <-]. reflexivity.
Qed.

Lemma rand_next (scale : num) (s s' : GenState num) (r : num) :
  rand random scale s = Ok (r, s') -> next s' = Datatypes.S (next s).
Proof. unfold rand. intros [= _ <-]. reflexivity. Qed.

Ltac reads H :=
  repeat (apply bind_Ok in H as (? & ? & ?E & H); apply readMap_state in E; subst);
  unfold ret in H; injection H as _ <-; reflexivity.

Lemma square_state (x y sz : Z) (s s' : GenState num) (v : num) :
  square max x y sz s = Ok (v, s') -> s' = s.
Proof.
  unfold square. intros H.
  destruct (x <? sz); [reads H |]. destruct (max - sz <? x); reads H.
Qed.

Lemma diamond_state (x y sz : Z) (s s' : GenState num) (v : num) :
  diamond max x y sz s = Ok (v, s') -> s' = s.
Proof.
  unfold diamond. intros H.
  destruct (x <? sz); [reads H |]. destruct (max - sz <? x); reads H.
Qed.

(** A cell of the diamond step takes a random number unless it lies on a
    constrained edge. *)
Lemma edgeOrDiamond_next (scl : num) (x y half : Z) (s s' : GenState num)
    (v : option num) :
  edgeOrDiamond random top bottom left right max scl x y half s = Ok (v, s') ->
  Z.of_nat (next s') =
  Z.of_nat (next s) + (if onConstrainedEdge top bottom left right max x y then 0 else 1).
Proof.
  unfold edgeOrDiamond, onConstrainedEdge, andCond, holds. intros H.
  destruct top, (x =? 0); simpl;
    try (unfold ret in H; injection H as _ <-; lia);
    (destruct bottom, (x =? max); simpl;
     try (unfold ret in H; injection H as _ <-; lia));
    (destruct left, (y =? max); simpl;
     try (unfold ret in H; injection H as _ <-; lia));
    (destruct right, (y =? 0); simpl;
     try (unfold ret in H; injection H as _ <-; lia));
    apply bind_Ok in H as (r & s1 & E1 & H); apply rand_next in E1;
    apply bind_Ok in H as (a & s2 & E2 & H); apply diamond_state in E2; subst s2;
    unfold ret in H; injection H as _ <-; lia.
Qed.

Lemma steps_count (lo hi step q : Z) :
  (hi - lo + step - 1) / step = q ->
  steps lo hi step = (fun i : nat => lo + Z.of_nat i * step) <$> seq 0 (Z.to_nat q).
Proof. intros <-. reflexivity. Qed.

Section Level.
Variables (k half sz m : Z).
Hypothesis Hhalf : 1 <= half.
Hypothesis Hsz : sz = 2 * half.
Hypothesis Hm : 1 <= m.
Hypothesis Hfit : max = m * sz.

(** The square step takes one random number for each of its [m * m]
    cells. *)
Lemma squares_draws (scl : num) (s s' : GenState num) :
  forEach (steps half max sz) (fun y =>
    forEach (steps half max sz) (fun x =>
      let! r := rand random scl in
      let! a := square max x y half in
      writeMap x y (Some (jsAdd r a)))) s = Ok (tt, s') ->
  Z.of_nat (next s') = Z.of_nat (next s) + m * m.
Proof.
  intros E.
  assert (Hq : (max - half + sz - 1) / sz = m).
  { symmetry. apply (Z.div_unique _ _ m (half - 1)); lia. }
  rewrite (steps_count _ _ _ _ Hq) in E.
  apply (forEach_tracks _
           (fun a s1 => Z.of_nat (next s1) = Z.of_nat (next s) + Z.of_nat a * m))
    in E; [lia | | lia].
  intros a s1 s2 Ha H1 E1.
  apply (forEach_tracks _
           (fun b s3 => Z.of_nat (next s3) =
                        Z.of_nat (next s) + Z.of_nat a * m + Z.of_nat b))
    in E1; [lia | | lia].
  intros b s3 s4 Hb H3 E3.
  apply bind_Ok in E3 as (r & s5 & Er & E3). apply rand_next in Er.
  apply bind_Ok in E3 as (v & s6 & Ev & E3). apply square_state in Ev. subst s6.
  apply writeMap_next in E3. lia.
Qed.

Lemma start_of_row (j : Z) :
  0 <= j ->
  Z.rem (0 + j * half + half) sz = if Z.even j then half else 0.
Proof.
  intros Hj. rewrite Z.rem_mod_nonneg by nia.
  destruct (Z.even j) eqn:Ej.
  - apply Z.even_spec in Ej as [q ->]. symmetry.
    apply (Z.mod_unique _ _ q); nia.
  - assert (Ho : Z.odd j = true) by (rewrite <- Z.negb_even, Ej; reflexivity).
    apply Z.odd_spec in Ho as [q ->]. symmetry.
    apply (Z.mod_unique _ _ (q + 1)); nia.
Qed.

(** Row [j * half] of the diamond step: [m] cells from [half] on an
    even row, [m + 1] cells from 0 on an odd one. *)
Lemma diamondRow_draws (scl : num) (j : Z) (s s' : GenState num) :
  0 <= j <= 2 * m ->
  forEach (steps (Z.rem (0 + j * half + half) sz) (max + 1) sz) (fun x =>
    let! v := edgeOrDiamond random top bottom left right max scl
                x (0 + j * half) half in
    writeMap x (0 + j * half) v) s = Ok (tt, s') ->
  Z.of_nat (next s') =
  Z.of_nat (next s) +
  (if Z.even j
   then m * (1 - (if j =? 2 * m then provided left else 0)
               - (if j =? 0 then provided right else 0))
   else m + 1 - provided top - provided bottom).
Proof.
  intros Hj E. rewrite start_of_row in E by lia.
  destruct (Z.even j) eqn:Ej.
  - assert (Hq : (max + 1 - half + sz - 1) / sz = m).
    { symmetry. apply (Z.div_unique _ _ m half); lia. }
    rewrite (steps_count _ _ _ _ Hq) in E.
    apply (forEach_tracks _
             (fun i s1 => Z.of_nat (next s1) =
                Z.of_nat (next s) +
                Z.of_nat i * (1 - (if j =? 2 * m then provided left else 0)
                                - (if j =? 0 then provided right else 0))))
      in E; [rewrite E; lia | | lia].
    intros i s1 s2 Hi H1 E1.
    apply bind_Ok in E1 as (v & s3 & Ev & E1).
    apply edgeOrDiamond_next in Ev. apply writeMap_next in E1.
    rewrite E1, Ev, H1. unfold onConstrainedEdge, holds.
    destruct (Z.eqb_spec (half + Z.of_nat i * sz) 0); [nia |].
    destruct (Z.eqb_spec (half + Z.of_nat i * sz) max); [nia |].
    destruct (Z.eqb_spec (0 + j * half) max), (Z.eqb_spec j (2 * m)); try nia;
      destruct (Z.eqb_spec (0 + j * half) 0), (Z.eqb_spec j 0); try nia;
      destruct top, bottom, left, right; simpl; lia.
  - assert (Ho : Z.odd j = true) by (rewrite <- Z.negb_even, Ej; reflexivity).
    apply Z.odd_spec in Ho as [q Hq'].
    assert (Hq : (max + 1 - 0 + sz - 1) / sz = m + 1).
    { symmetry. apply (Z.div_unique _ _ (m + 1) 0); lia. }
    rewrite (steps_count _ _ _ _ Hq) in E.
    apply (forEach_tracks _
             (fun i s1 => Z.of_nat (next s1) =
                Z.of_nat (next s) + Z.of_nat i
                - (if 1 <=? Z.of_nat i then provided top else 0)
                - (if Z.of_nat i =? m + 1 then provided bottom else 0)))
      in E.
    + rewrite E. rewrite Z2Nat.id by lia.
      destruct (Z.leb_spec 1 (m + 1)); [| lia]. rewrite Z.eqb_refl. lia.
    + intros i s1 s2 Hi H1 E1.
      apply bind_Ok in E1 as (v & s3 & Ev & E1).
      apply edgeOrDiamond_next in Ev. apply writeMap_next in E1.
      rewrite E1, Ev, H1. unfold onConstrainedEdge, holds.
      destruct (Z.eqb_spec (0 + j * half) max); [nia |].
      destruct (Z.eqb_spec (0 + j * half) 0); [nia |].
      destruct (Z.eqb_spec (0 + Z.of_nat i * sz) 0),
               (Z.eqb_spec (0 + Z.of_nat i * sz) max),
               (Z.leb_spec 1 (Z.of_nat i)),
               (Z.leb_spec 1 (Z.of_nat (Datatypes.S i))),
               (Z.eqb_spec (Z.of_nat i) (m + 1)),
               (Z.eqb_spec (Z.of_nat (Datatypes.S i)) (m + 1)); try nia;
        destruct top, bottom, left, right; simpl; lia.
    + change (Z.of_nat 0) with 0.
      destruct (Z.eqb_spec 0 (m + 1)); [lia |]. destruct (Z.leb_spec 1 0); lia.
Qed.

(** The diamond step: one random number for each of its cells that is
    not on the edge of a provided constraint. *)
Lemma diamonds_draws (scl : num) (s s' : GenState num) :
  forEach (steps 0 (max + 1) half) (fun y =>
    forEach (steps (Z.rem (y + half) sz) (max + 1) sz) (fun x =>
      let! v := edgeOrDiamond random top bottom left right max scl x y half in
      writeMap x y v)) s = Ok (tt, s') ->
  Z.of_nat (next s') =
  Z.of_nat (next s) +
  m * (2 * m + 2 - provided top - provided bottom - provided left - provided right).
Proof.
  intros E.
  assert (Hq : (max + 1 - 0 + half - 1) / half = 2 * m + 1).
  { symmetry. apply (Z.div_unique _ _ (2 * m + 1) 0); lia. }
  rewrite (steps_count _ _ _ _ Hq) in E.
  apply (forEach_tracks _
           (fun j s1 => Z.of_nat (next s1) =
              Z.of_nat (next s)
              + (Z.of_nat j / 2) * (m + 1 - provided top - provided bottom)
              + ((Z.of_nat j + 1) / 2) * m
              - (if 1 <=? Z.of_nat j then m * provided right else 0)
              - (if Z.of_nat j =? 2 * m + 1 then m * provided left else 0)))
    in E.
  - rewrite E. rewrite Z2Nat.id by lia.
    destruct (Z.leb_spec 1 (2 * m + 1)); [| lia]. rewrite Z.eqb_refl.
    rewrite (half_of (2 * m + 1) m 1), (half_of (2 * m + 1 + 1) (m + 1) 0) by lia.
    ring.
  - intros j s1 s2 Hj H1 E1.
    apply diamondRow_draws in E1; [| lia].
    rewrite E1, H1. rewrite Nat2Z.inj_succ. unfold Z.succ.
    set (J := Z.of_nat j) in *. assert (HJ : 0 <= J <= 2 * m) by lia.
    destruct (Z.even J) eqn:Ej.
    + apply Z.even_spec in Ej as [q Eq].
      rewrite (half_of J q 0), (half_of (J + 1) q 1),
        (half_of (J + 1 + 1) (q + 1) 0) by lia.
      destruct (Z.leb_spec 1 J), (Z.leb_spec 1 (J + 1)), (Z.eqb_spec J (2 * m + 1)),
               (Z.eqb_spec (J + 1) (2 * m + 1)), (Z.eqb_spec J (2 * m)),
               (Z.eqb_spec J 0); try lia; ring.
    + assert (Ho : Z.odd J = true) by (rewrite <- Z.negb_even, Ej; reflexivity).
      apply Z.odd_spec in Ho as [q Eq].
      rewrite (half_of J q 1), (half_of (J + 1) (q + 1) 0),
        (half_of (J + 1 + 1) (q + 1) 1) by lia.
      destruct (Z.leb_spec 1 J), (Z.leb_spec 1 (J + 1)), (Z.eqb_spec J (2 * m + 1)),
               (Z.eqb_spec (J + 1) (2 * m + 1)); try lia; ring.
  - change (Z.of_nat 0) with 0. change (0 / 2) with 0. change ((0 + 1) / 2) with 0.
    destruct (Z.leb_spec 1 0); [lia |]. destruct (Z.eqb_spec 0 (2 * m + 1)); lia.
Qed.
End Level.

Lemma pow2_split (k : Z) :
  1 <= k <= d ->
  1 <= 2 ^ (k - 1) /\ 2 ^ k = 2 * 2 ^ (k - 1) /\ 1 <= 2 ^ (d - k) /\
  max = 2 ^ (d - k) * 2 ^ k /\ 2 ^ (d - (k - 1)) = 2 * 2 ^ (d - k).
Proof.
  intros Hk.
  pose proof (Z.pow_pos_nonneg 2 (k - 1)). pose proof (Z.pow_pos_nonneg 2 (d - k)).
  split; [lia |]. split; [| split; [lia |]; split].
  - rewrite <- Z.pow_succ_r by lia. f_equal. lia.
  - rewrite Hmax, <- Z.pow_add_r by lia. f_equal. lia.
  - rewrite <- Z.pow_succ_r by lia. f_equal. lia.
Qed.

(** One call of the body of [divide] at size [2^k]. *)
Lemma divideLoops_draws (k : Z) (s s' : GenState num) :
  1 <= k <= d ->
  divideLoops random roughness top bottom left right max (2 ^ k) s = Ok (tt, s') ->
  Z.of_nat (next s') =
  Z.of_nat (next s) + 3 * 2 ^ (d - k) * 2 ^ (d - k) +
  (2 - provided top - provided bottom - provided left - provided right) * 2 ^ (d - k).
Proof.
  intros Hk E. destruct (pow2_split k Hk) as (Hhalf & Hsz & Hm & Hfit & _).
  unfold divideLoops in E. rewrite (half_pow2 d k) in E by lia.
  apply bind_Ok in E as ([] & s1 & E1 & E2).
  apply (squares_draws (2 ^ (k - 1)) (2 ^ k) (2 ^ (d - k)) Hhalf Hsz Hm Hfit) in E1.
  apply (diamonds_draws (2 ^ (k - 1)) (2 ^ k) (2 ^ (d - k)) Hhalf Hsz Hm Hfit) in E2.
  rewrite E2, E1. ring.
Qed.

(** [divide(2^k)] and the calls it makes. *)
Lemma divide_draws (fuel : nat) : forall k s s',
  0 <= k <= d ->
  divide random roughness top bottom left right max fuel (2 ^ k) s = Ok (tt, s') ->
  Z.of_nat (next s') =
  Z.of_nat (next s) + max * max - 2 ^ (d - k) * 2 ^ (d - k) +
  (2 - provided top - provided bottom - provided left - provided right)
  * (max - 2 ^ (d - k)).
Proof.
  induction fuel as [| fuel IH]; intros k s s' Hk E; simpl in E.
  - destruct (Z.ltb_spec (2 ^ k / 2) 1) as [Hsmall | Hbig]; [| discriminate].
    injection E as <-.
    assert (k = 0) as ->.
    { destruct (Z.eq_dec k 0); [assumption |].
      rewrite (half_pow2 d k) in Hsmall by lia.
      pose proof (Z.pow_pos_nonneg 2 (k - 1)). lia. }
    rewrite Z.sub_0_r, <- Hmax. lia.
  - destruct (Z.ltb_spec (2 ^ k / 2) 1) as [Hsmall | Hbig].
    + injection E as <-.
      assert (k = 0) as ->.
      { destruct (Z.eq_dec k 0); [assumption |].
        rewrite (half_pow2 d k) in Hsmall by lia.
        pose proof (Z.pow_pos_nonneg 2 (k - 1)). lia. }
      rewrite Z.sub_0_r, <- Hmax. lia.
    + assert (Hk1 : 1 <= k).
      { destruct (Z.eq_dec k 0) as [-> |]; [| lia].
        change (2 ^ 0 / 2) with 0 in Hbig. lia. }
      apply bind_Ok in E as ([] & s1 & E1 & E2).
      apply divideLoops_draws in E1; [| lia].
      rewrite (half_pow2 d k Hk1) in E2. apply IH in E2; [| lia].
      destruct (pow2_split k ltac:(lia)) as (_ & _ & Hm & _ & Hup).
      rewrite Hup in E2. rewrite E2, E1. ring.
Qed.

Lemma seedCorners_draws (s s' : GenState num) :
  seedCorners random roughness top bottom left right size max s = Ok (tt, s') ->
  next s' =
  (next s + seedDraws top right + seedDraws bottom right
   + seedDraws bottom left + seedDraws top left)%nat.
Proof.
  unfold seedCorners. intros E.
  apply bind_Ok in E as (c1 & s1 & Ec1 & E). rewrite corner_run in Ec1.
  injection Ec1 as <- <-.
  apply bind_Ok in E as ([] & s2 & Ew1 & E). apply writeMap_next in Ew1.
  apply bind_Ok in E as (c2 & s3 & Ec2 & E). rewrite corner_run in Ec2.
  injection Ec2 as <- <-.
  apply bind_Ok in E as ([] & s4 & Ew2 & E). apply writeMap_next in Ew2.
  apply bind_Ok in E as (c3 & s5 & Ec3 & E). rewrite corner_run in Ec3.
  injection Ec3 as <- <-.
  apply bind_Ok in E as ([] & s6 & Ew3 & E). apply writeMap_next in Ew3.
  apply bind_Ok in E as (c4 & s7 & Ec4 & E). rewrite corner_run in Ec4.
  injection Ec4 as <- <-.
  apply writeMap_next in E. simpl in *. lia.
Qed.

Lemma buildMap_draws (s s' : GenState num) :
  buildMap random roughness top bottom left right size max s = Ok (tt, s') ->
  Z.of_nat (next s') =
  Z.of_nat (next s)
  + Z.of_nat (seedDraws top right + seedDraws bottom right
              + seedDraws bottom left + seedDraws top left)
  + (size - 2) * (size - 2)
  + (4 - provided top - provided bottom - provided left - provided right) * (size - 2).
Proof.
  unfold buildMap. intros E. apply bind_Ok in E as ([] & s1 & E1 & E2).
  apply seedCorners_draws in E1.
  assert (E3 : divide random roughness top bottom left right max (Z.to_nat max)
                 (2 ^ d) s1 = Ok (tt, s')) by (rewrite <- Hmax; exact E2).
  clear E2. rename E3 into E2.
  apply divide_draws in E2; [| lia].
  rewrite Z.sub_diag in E2. change (2 ^ 0) with 1 in E2.
  rewrite E2, E1, Hsize. lia.
Qed.
End DrawCount.

Section DrawsOfACall.
Context {num : Type} {NUM : JSNumber num}.
Variable random : nat -> num.

Lemma generateTerrain_draws (detail : Z) (roughness : num)
    (top bottom left right : option (list (option num))) (n : nat) :
  0 <= detail < 32 ->
  let size := 2 ^ detail + 1 in
  exists hf n',
    generateTerrain random detail roughness top bottom left right n = Ok (hf, n') /\
    Z.of_nat n' =
    Z.of_nat n
    + (size - 2) * (size - 2)
    + (4 - provided top - provided bottom - provided left - provided right) * (size - 2)
    + Z.of_nat (seedDraws top right + seedDraws bottom right
                + seedDraws bottom left + seedDraws top left) /\
    (top = None -> bottom = None -> left = None -> right = None ->
     Z.of_nat n' = Z.of_nat n + size * size).
Proof.
  intros Hd size.
  destruct (generateTerrain_phases random detail roughness top bottom left right n Hd)
    as (built & smoothed & hf & Eb & _ & _ & _ & E & _).
  apply (buildMap_draws random roughness top bottom left right
           (2 ^ detail + 1) (2 ^ detail + 1 - 1) detail) in Eb; [| lia | lia | lia].
  simpl in Eb. fold size in Eb.
  exists hf, (next built). split; [exact E |]. split; [lia |].
  intros -> -> -> ->. simpl in Eb. lia.
Qed.

(** X6.  A call takes one random number for each cell that is not on the edge
    of a provided constraint: the [(size - 2)^2] inner cells, the
    [size - 2] cells between the corners of each edge that has no
    constraint, and each corner neither of whose two edges has one.  The
    values drawn do not matter, nor does the roughness. *)
Theorem random_numbers_taken (detail : Z) (roughness : num)
    (top bottom left right : option (list (option num))) (n : nat) :
  0 <= detail < 32 ->
  let size := 2 ^ detail + 1 in
  exists hf n',
    generateTerrain random detail roughness top bottom left right n = Ok (hf, n') /\
    Z.of_nat n' =
    Z.of_nat n
    + (size - 2) * (size - 2)
    + (4 - provided top - provided bottom - provided left - provided right) * (size - 2)
    + Z.of_nat (seedDraws top right + seedDraws bottom right
                + seedDraws bottom left + seedDraws top left) /\
    (top = None -> bottom = None -> left = None -> right = None ->
     Z.of_nat n' = Z.of_nat n + size * size).
Proof. apply generateTerrain_draws. Qed.
End DrawsOfACall.

(** ** The map before smoothing *)

Lemma forEach_preserves {S A} (I : S -> Prop) (l : list A) (body : A -> M S unit) :
  (forall a s s', a ∈ l -> I s -> body a s = Ok (tt, s') -> I s') ->
  forall s s', I s -> forEach l body s = Ok (tt, s') -> I s'.
Proof.
  induction l as [| a l IH]; intros Hbody s s' Hs E.
  - injection E as <-. exact Hs.
  - simpl in E. apply bind_Ok in E as ([] & s1 & E1 & E2).
    apply (IH (fun b t t' Hb => Hbody b t t' ltac:(right; exact Hb)) s1 s');
      [| exact E2].
    apply (Hbody a s s1); [left | exact Hs | exact E1].
Qed.

Section BuiltMap.
Context {num : Type} {NUM : JSNumber num}.
Variable random : nat -> num.
Variables (roughness : num) (top bottom left right : option (list (option num))).
Variables (size max : Z).
Hypothesis fround_idem : forall v : num, fround (fround v) = fround v.

Lemma writeMap_float32 (x y : Z) (v : option num) (s s' : GenState num) :
  float32Grid (hmap s) -> writeMap x y v s = Ok (tt, s') -> float32Grid (hmap s').
Proof.
  intros Hs. unfold writeMap. destruct (gridSet (hmap s) x y v) as [g |] eqn:E;
    [| discriminate].
  intros [= <-]. simpl. intros i j w Hw.
  rewrite (gridSet_cellAt _ _ _ _ _ i j E) in Hw.
  destruct (cellAt (hmap s) i j) as [old |] eqn:Eold; [| discriminate].
  injection Hw as <-. destruct ((i =? x) && (j =? y)); [apply fround_idem |].
  eapply Hs; eauto.
Qed.

Lemma rand_hmap (scale : num) (s s' : GenState num) (r : num) :
  rand random scale s = Ok (r, s') -> hmap s' = hmap s.
Proof. unfold rand. intros [= _ <-]. reflexivity. Qed.

Lemma edgeOrDiamond_hmap (scl : num) (x y half : Z) (s s' : GenState num)
    (v : option num) :
  edgeOrDiamond random top bottom left right max scl x y half s = Ok (v, s') ->
  hmap s' = hmap s.
Proof.
  unfold edgeOrDiamond. intros H.
  destruct (andCond top _); [injection H as _ <-; reflexivity |].
  destruct (andCond bottom _); [injection H as _ <-; reflexivity |].
  destruct (andCond left _); [injection H as _ <-; reflexivity |].
  destruct (andCond right _); [injection H as _ <-; reflexivity |].
  apply bind_Ok in H as (r & s1 & E1 & H). apply rand_hmap in E1.
  apply bind_Ok in H as (a & s2 & E2 & H). apply diamond_state in E2. subst s2.
  injection H as _ <-. exact E1.
Qed.

Lemma divideLoops_float32 (sz : Z) (s s' : GenState num) :
  float32Grid (hmap s) ->
  divideLoops random roughness top bottom left right max sz s = Ok (tt, s') ->
  float32Grid (hmap s').
Proof.
  intros Hs E. unfold divideLoops in E. apply bind_Ok in E as ([] & s1 & E1 & E2).
  assert (H1 : float32Grid (hmap s1)).
  { refine (forEach_preserves (fun s => float32Grid (hmap s)) _ _ _ _ _ Hs E1).
    intros y s2 s3 _ H2 E3.
    refine (forEach_preserves (fun s => float32Grid (hmap s)) _ _ _ _ _ H2 E3).
    intros x s4 s5 _ H4 E.
    apply bind_Ok in E as (r & s6 & Er & E). apply rand_hmap in Er.
    apply bind_Ok in E as (a & s7 & Ea & E). apply square_state in Ea. subst s7.
    eapply writeMap_float32; [| exact E]. rewrite Er. exact H4. }
  refine (forEach_preserves (fun s => float32Grid (hmap s)) _ _ _ _ _ H1 E2).
  intros y s2 s3 _ H2 E3.
  refine (forEach_preserves (fun s => float32Grid (hmap s)) _ _ _ _ _ H2 E3).
  intros x s4 s5 _ H4 E.
  apply bind_Ok in E as (v & s6 & Ev & E). apply edgeOrDiamond_hmap in Ev.
  eapply writeMap_float32; [| exact E]. rewrite Ev. exact H4.
Qed.

Lemma divide_float32 (fuel : nat) : forall sz s s',
  float32Grid (hmap s) ->
  divide random roughness top bottom left right max fuel sz s = Ok (tt, s') ->
  float32Grid (hmap s').
Proof.
  induction fuel as [| fuel IH]; intros sz s s' Hs E; simpl in E.
  - destruct (sz / 2 <? 1); [| discriminate]. injection E as <-. exact Hs.
  - destruct (sz / 2 <? 1); [injection E as <-; exact Hs |].
    apply bind_Ok in E as ([] & s1 & E1 & E2).
    eapply IH; [| exact E2]. eapply divideLoops_float32; eauto.
Qed.

Lemma seedCorners_float32 (s s' : GenState num) :
  float32Grid (hmap s) ->
  seedCorners random roughness top bottom left right size max s = Ok (tt, s') ->
  float32Grid (hmap s').
Proof.
  unfold seedCorners. intros Hs E.
  apply bind_Ok in E as (c1 & s1 & Ec1 & E). rewrite corner_run in Ec1.
  injection Ec1 as <- <-.
  apply bind_Ok in E as ([] & s2 & Ew1 & E). apply writeMap_float32 in Ew1; [| exact Hs].
  apply bind_Ok in E as (c2 & s3 & Ec2 & E). rewrite corner_run in Ec2.
  injection Ec2 as <- <-.
  apply bind_Ok in E as ([] & s4 & Ew2 & E). apply writeMap_float32 in Ew2; [| exact Ew1].
  apply bind_Ok in E as (c3 & s5 & Ec3 & E). rewrite corner_run in Ec3.
  injection Ec3 as <- <-.
  apply bind_Ok in E as ([] & s6 & Ew3 & E). apply writeMap_float32 in Ew3; [| exact Ew2].
  apply bind_Ok in E as (c4 & s7 & Ec4 & E). rewrite corner_run in Ec4.
  injection Ec4 as <- <-.
  eapply writeMap_float32; [| exact E]. exact Ew3.
Qed.

Lemma buildMap_float32 (s s' : GenState num) :
  float32Grid (hmap s) ->
  buildMap random roughness top bottom left right size max s = Ok (tt, s') ->
  float32Grid (hmap s').
Proof.
  unfold buildMap. intros Hs E. apply bind_Ok in E as ([] & s1 & E1 & E2).
  eapply divide_float32; [| exact E2]. eapply seedCorners_float32; eauto.
Qed.
End BuiltMap.

Section SmoothedInterior.
Context {num : Type} {NUM : JSNumber num}.
Variable random : nat -> num.

(** X3.  Every cell of the returned grid that is not on its border is the
    numeric median of the 3 by 3 neighbourhood it had in the map built by
    the square-diamond steps: the constraints do not reach it. *)
Theorem inner_heights_are_medians (detail : Z) (roughness : num)
    (top bottom left right : option (list (option num))) (n : nat) (i j : Z) :
  (forall v : num, fround (fround v) = fround v) ->
  fround (ofInt 0 : num) = ofInt 0 ->
  0 <= detail < 32 ->
  let size := 2 ^ detail + 1 in
  let max := size - 1 in
  0 < i < max -> 0 < j < max ->
  exists built hf vs,
    buildMap random roughness top bottom left right size max
      {| hmap := replicate (Z.to_nat size) (newFloat32Array size); next := n |}
      = Ok (tt, built) /\
    generateTerrain random detail roughness top bottom left right n
      = Ok (hf, next built) /\
    readCells (hmap built) (window (i - 1) (j - 1)) = Some <$> vs /\
    length vs = 9%nat /\
    cellAt hf i j = Some (numericMedian vs).
Proof.
  intros Hidem Hzero Hd size max Hi Hj.
  destruct (generateTerrain_phases random detail roughness top bottom left right n Hd)
    as (built & smoothed & hf & Eb & Hb & Esm & Hsm & E & _ & Hcell).
  fold size in Eb, Hb, Hsm. fold size max in Eb, Hcell.
  assert (Hf : float32Grid (hmap built)).
  { eapply (buildMap_float32 random); [exact Hidem | | exact Eb]. simpl.
    apply (float32Grid_new Hzero _ _ 0). }
  destruct (interior_median (hmap built) size i j Hidem Hb Hf)
    as (smoothed' & vs & Esm' & Ev & Hlen & Hmed); [unfold max in *; lia .. |].
  rewrite Esm in Esm'. injection Esm' as <-.
  exists built, hf, vs. split; [exact Eb |]. split; [exact E |].
  split; [exact Ev |]. split; [exact Hlen |].
  rewrite Hcell, Hmed. simpl. f_equal. unfold forcedCell.
  destruct (Z.eqb_spec i 0); [lia |]. destruct (Z.eqb_spec i max); [lia |].
  destruct (Z.eqb_spec j 0); [lia |]. destruct (Z.eqb_spec j max); [lia |].
  destruct top, bottom, left, right; reflexivity.
Qed.
End SmoothedInterior.

(** ** The helpers on missing values *)

Lemma filterUndefined_dropped (l1 l2 : list (option spec_float)) (v : option spec_float) :
  dropped v -> filterUndefined (l1 ++ v :: l2) = filterUndefined (l1 ++ l2).
Proof.
  intros Hv. unfold filterUndefined. rewrite !omap_app. simpl.
  unfold dropped in Hv. rewrite Hv. reflexivity.
Qed.

Lemma filterUndefined_all_dropped (l : list (option spec_float)) :
  Forall dropped l -> filterUndefined l = [].
Proof.
  induction 1 as [| v l Hv _ IH]; [reflexivity |].
  unfold filterUndefined in *. simpl. unfold dropped in Hv. rewrite Hv. exact IH.
Qed.

(** X5.  [average] and [median] skip [undefined] and NaN wherever they stand
    among the arguments; with nothing left (no argument at all included)
    they return NaN. *)
Theorem helpers_skip_missing_values :
  (forall l1 l2 v, dropped v ->
     average (l1 ++ v :: l2) = average (l1 ++ l2) /\
     median (l1 ++ v :: l2) = median (l1 ++ l2)) /\
  (forall l, Forall dropped l ->
     IEEE.is_nan (average l) = true /\
     exists m, median l = Some m /\ IEEE.is_nan m = true).
Proof.
  split.
  - intros l1 l2 v Hv. unfold average, median.
    rewrite (filterUndefined_dropped l1 l2 v Hv). split; reflexivity.
  - intros l Hl. unfold average, median.
    rewrite (filterUndefined_all_dropped l Hl). split; [reflexivity |].
    eexists. split; reflexivity.
Qed.

(** ** The properties on concrete inputs *)

Lemma float32Grid_Forall {num : Type} {NUM : JSNumber num} (g : list (list num)) :
  Forall (Forall (fun v => fround v = v)) g -> float32Grid g.
Proof.
  intros Hg i j v Hv. unfold cellAt in Hv.
  destruct (zget g i) as [row |] eqn:Erow; [| discriminate].
  unfold zget in *. destruct (i <? 0); [discriminate |]. destruct (j <? 0); [discriminate |].
  eapply Forall_lookup_1 in Hg; [| exact Erow].
  eapply Forall_lookup_1 in Hg; [| exact Hv]. exact Hg.
Qed.

Lemma skewedMap_square : squareGrid 3 skewedMap.
Proof. split; [reflexivity | repeat constructor]. Qed.

Lemma skewedMap_float32 : float32Grid skewedMap.
Proof. apply float32Grid_Forall. repeat constructor. Qed.

Lemma median3Filter_needs_two_rows_witness :
  median3Filter [IEEE.ofZ <$> [1; 2; 3]] = Throw TypeError.
Proof. apply median3Filter_needs_two_rows. simpl. lia. Defined.

Lemma median3Filter_single_pass_witness :
  exists smoothed,
    median3Filter skewedMap = Ok smoothed /\
    cellAt smoothed 0 0 = Some (IEEE.ofZ 11) /\
    cellAt smoothed 1 1 = Some (IEEE.ofZ 2).
Proof.
  destruct (median3Filter_single_pass skewedMap 3 skewedMap_square ltac:(lia))
    as (smoothed & E & _ & Hc).
  exists smoothed. split; [exact E |]. split.
  - rewrite (Hc 0 0) by lia. reflexivity.
  - rewrite (Hc 1 1) by lia. reflexivity.
Defined.

Lemma interior_is_numeric_median_witness :
  exists smoothed,
    median3Filter skewedMap = Ok smoothed /\
    cellAt smoothed 1 1 =
    Some (numericMedian (IEEE.ofZ <$> [0; 2; 0; 10; 12; 4; 0; 4; 0])).
Proof.
  destruct (interior_is_numeric_median (NUM := IEEE.number) skewedMap 3 1 1 to_f32_idem
              skewedMap_square skewedMap_float32 ltac:(lia) ltac:(lia))
    as (smoothed & vs & E & Ev & _ & Hm).
  exists smoothed. split; [exact E |]. rewrite Hm. f_equal. f_equal.
  apply (inj (fmap Some)). rewrite <- Ev. reflexivity.
Defined.

Lemma missing_elements_become_NaN_witness :
  0 <= 1 < 32 /\
  exists hf n',
    generateTerrain evenDraws 1 (IEEE.ofZ 1) (Some (numbers [7])) None None None 0%nat
      = Ok (hf, n') /\
    cellAt hf 0 1 = Some (IEEE.to_f32 S754_nan).
Proof.
  split; [lia |].
  destruct (missing_elements_become_NaN evenDraws 1 (IEEE.ofZ 1) (Some (numbers [7]))
              None None None 0%nat ltac:(lia)) as (hf & n' & E & _ & _ & _ & _ & Ht).
  exists hf, n'. split; [exact E |].
  apply (Ht (numbers [7]) 1 eq_refl); simpl; lia.
Defined.

Lemma stored_chunks_are_33_square_witness :
  exists (w : World spec_float) c,
    reachable evenDraws w /\ chunkHeights w !! chunkKey 1 1 = Some c /\ squareGrid 33 c.
Proof.
  destruct (generateNeighboringChunks_keeps evenDraws 0 0 emptyWorld)
    as (w & E & _ & P).
  assert (R : reachable evenDraws w)
    by exact (reachable_neighbourhood evenDraws emptyWorld w 0 0 (reachable_start _ 0%nat) E).
  destruct (P (0 + 1, 0 + 1)
              ltac:(do 6 apply list_elem_of_further; apply list_elem_of_here)) as [c Hc].
  exists w, c. split; [exact R |]. split; [exact Hc |].
  exact (proj1 (proj2 (stored_chunks_are_33_square evenDraws w _ c R Hc))).
Defined.

Lemma heights_are_float32_witness :
  exists hf n',
    generateTerrain evenDraws 1 (IEEE.ofZ 1) None None None None 0%nat = Ok (hf, n') /\
    forall i j v, cellAt hf i j = Some v -> IEEE.to_f32 v = v.
Proof.
  destruct (generateTerrain_phases evenDraws 1 (IEEE.ofZ 1) None None None None 0%nat
              ltac:(lia)) as (built & _ & hf & _ & _ & _ & _ & E & _).
  exists hf, (next built). split; [exact E |].
  exact (proj1 (heights_are_float32 (NUM := IEEE.number) evenDraws _ _ _ _ _ _ _ _ _
                  to_f32_idem to_f32_zero E)).
Defined.

Lemma mesh_heights_row_major_witness :
  exists calls,
    Scene.addTerrainMesh 0 0 {| Scene.world := oneChunk; Scene.scene := [] |} =
    Ok (tt, {| Scene.world :=
                 {| chunkHeights := chunkHeights oneChunk; drawn := 8 |};
               Scene.scene := [{| Scene.segments := 0; Scene.heights := calls;
                                  Scene.position := (0, -100, 0) |}] |}) /\
    calls !! 0%nat = Some (0, Some (IEEE.ofZ 1)).
Proof.
  destruct (mesh_heights_row_major {| Scene.world := oneChunk; Scene.scene := [] |}
              0 0 1 [[IEEE.ofZ 1]]) as (calls & E & _ & Hc).
  - apply lookup_singleton_eq.
  - split; [reflexivity | repeat constructor].
  - exists calls. split; [exact E |]. exact (Hc 0 0 ltac:(lia) ltac:(lia)).
Defined.

Lemma scene_shows_store_witness :
  exists s : Scene.State spec_float,
    sceneReachable evenDraws s /\
    is_Some (chunkHeights (Scene.world s) !! chunkKey 0 0) /\
    sceneShowsStore s.
Proof.
  destruct (scene_addTerrainChunk_absent evenDraws
              {| Scene.world := emptyWorld; Scene.scene := [] |} 0 0)
    as (hf & n' & calls & _ & _ & _ & _ & Es); [apply lookup_empty |].
  pose proof (scene_request evenDraws _ _ 0 0 (scene_start evenDraws 0%nat) Es) as R.
  eexists. split; [exact R |]. split.
  - simpl. rewrite lookup_insert_eq. eauto.
  - exact (scene_shows_store evenDraws _ R).
Defined.

(** The first chunk: 1089 random numbers for the grid, 8 for the mesh. *)
Lemma mesh_step_effects_witness :
  exists s',
    Scene.addTerrainChunk evenDraws 0 0
      {| Scene.world := emptyWorld; Scene.scene := [] |} = Ok (tt, s') /\
    drawn (Scene.world s') = 1097%nat /\
    length (Scene.scene s') = 1%nat.
Proof.
  destruct (mesh_step_effects evenDraws
              {| Scene.world := emptyWorld; Scene.scene := [] |} 0 0)
    as (s' & E & _ & H).
  exists s'. split; [exact E |].
  change (chunkHeights (Scene.world {| Scene.world := emptyWorld; Scene.scene := [] |})
            !! chunkKey 0 0) with (@None (list (list spec_float))) in H.
  destruct H as (hf & n' & m & Eg & _ & Hd & Hs).
  destruct (generateTerrain_draws evenDraws 5 (IEEE.ofZ 5) None None None None 0%nat
              ltac:(lia)) as (hf' & n'' & Eg' & _ & Hn).
  assert (Eg2 : generateTerrain evenDraws 5 (IEEE.ofZ 5) None None None None 0%nat
                = Ok (hf, n')) by exact Eg.
  rewrite Eg2 in Eg'. injection Eg' as <- <-.
  specialize (Hn eq_refl eq_refl eq_refl eq_refl).
  split; [rewrite Hd; simpl in Hn; lia | rewrite Hs; reflexivity].
Defined.

Lemma chunk_keys_identify_coordinates_witness :
  safeInteger 1 /\ safeInteger (-1) /\ chunkKey 1 (-1) <> chunkKey (-1) 1 /\
  chunkKey 1 (-1) = IEEE.to_string (IEEE.ofZ 1) +:+ "," +:+ IEEE.to_string (IEEE.ofZ (-1)).
Proof.
  assert (H1 : safeInteger 1) by (unfold safeInteger; lia).
  assert (H2 : safeInteger (-1)) by (unfold safeInteger; lia).
  split; [exact H1 |]. split; [exact H2 |]. split; [| reflexivity].
  intros E. apply (chunk_keys_identify_coordinates 1 (-1) (-1) 1 H1 H2 H2 H1) in E.
  lia.
Defined.

Lemma random_numbers_taken_witness :
  0 <= 1 < 32 /\
  exists hf n',
    generateTerrain evenDraws 1 (IEEE.ofZ 1) (Some (numbers [1; 2; 3])) None None
      (Some (numbers [5; 6; 7])) 0%nat = Ok (hf, n') /\
    Z.of_nat n' = 4.
Proof.
  split; [lia |].
  destruct (random_numbers_taken evenDraws 1 (IEEE.ofZ 1) (Some (numbers [1; 2; 3])) None
              None (Some (numbers [5; 6; 7])) 0%nat ltac:(lia)) as (hf & n' & E & Hn & _).
  exists hf, n'. split; [exact E | exact Hn].
Defined.

Lemma inner_heights_are_medians_witness :
  0 <= 1 < 32 /\
  exists hf n',
    generateTerrain skewedDraws 1 (IEEE.ofZ 8) None None None None 0%nat = Ok (hf, n') /\
    cellAt hf 1 1 = Some (numericMedian (IEEE.ofZ <$> [0; 2; 0; 10; 12; 4; 0; 4; 0])).
Proof.
  split; [lia |].
  destruct (inner_heights_are_medians (NUM := IEEE.number) skewedDraws 1 (IEEE.ofZ 8)
              None None None None 0%nat 1 1 to_f32_idem to_f32_zero
              ltac:(lia) ltac:(simpl; lia) ltac:(simpl; lia))
    as (built & hf & vs & Eb & E & Ev & _ & Hm).
  exists hf, (next built). split; [exact E |]. rewrite Hm. f_equal. f_equal.
  apply (inj (fmap Some)). rewrite <- Ev.
  assert (Hb : hmap built = skewedMap).
  { assert (Eb' : buildMap skewedDraws (IEEE.ofZ 8) None None None None 3 2
                    {| hmap := replicate 3 (newFloat32Array 3); next := 0 |}
                  = Ok (tt, built)) by exact Eb.
    clear -Eb'. vm_compute in Eb'. injection Eb' as <-. reflexivity. }
  rewrite Hb. reflexivity.
Defined.

(** ** Roughness zero *)

Lemma rand_zero (r : spec_float) :
  nonNegative r ->
  IEEE.sub (IEEE.mul (IEEE.mul r (IEEE.ofZ 0)) (IEEE.ofZ 2)) (IEEE.ofZ 0) = IEEE.ofZ 0.
Proof.
  destruct r as [[] | [] | | [] m e]; simpl; intros H; try contradiction; reflexivity.
Qed.

Lemma below_32 (P : Z -> Prop) :
  (forall n : nat, (n < 32)%nat -> P (Z.of_nat n)) -> forall k, 0 <= k < 32 -> P k.
Proof. intros H k Hk. rewrite <- (Z2Nat.id k) by lia. apply H. lia. Qed.

Lemma scl_zero (k : Z) :
  0 <= k < 32 -> IEEE.mul (IEEE.ofZ 0) (IEEE.ofZ (2 ^ k)) = IEEE.ofZ 0.
Proof.
  revert k. apply below_32. intros n Hn.
  do 32 (destruct n as [| n]; [vm_compute; reflexivity |]). lia.
Qed.

Lemma scale_zero (d : Z) :
  0 <= d < 32 ->
  IEEE.div (IEEE.mul (IEEE.ofZ 0) (IEEE.ofZ (2 ^ d + 1))) (IEEE.ofZ 2) = IEEE.ofZ 0.
Proof.
  revert d. apply below_32. intros n Hn.
  do 32 (destruct n as [| n]; [vm_compute; reflexivity |]). lia.
Qed.

Section Flat.
Variable random : nat -> spec_float.
Hypothesis Hrandom : forall k, nonNegative (random k).
Variables (size max d : Z).
Hypothesis Hsize : size = max + 1.
Hypothesis Hd : 0 <= d < 32.
Hypothesis Hmax : max = 2 ^ d.

Lemma readMap_zero (x y : Z) (s s' : GenState spec_float) (v : option spec_float) :
  zeroMap size s -> readMap x y s = Ok (v, s') ->
  s' = s /\ (v = None \/ v = Some (IEEE.ofZ 0)) /\
  (0 <= x < size -> 0 <= y < size -> v = Some (IEEE.ofZ 0)).
Proof.
  intros [Hsq Hz] E. unfold readMap in E.
  destruct (gridGet (hmap s) x y) as [v' |] eqn:Eg; [| discriminate].
  injection E as <- <-. split; [reflexivity |].
  unfold gridGet in Eg. destruct (zget (hmap s) x) as [row |] eqn:Erow; [| discriminate].
  injection Eg as <-.
  assert (Hc : cellAt (hmap s) x y = f32get row y) by (unfold cellAt; rewrite Erow; reflexivity).
  split.
  - destruct (f32get row y) as [v |] eqn:Ev; [| auto]. right. f_equal. eapply Hz; eauto.
  - intros Hx Hy. destruct (cellAt_is_Some size (hmap s) x y Hsq Hx Hy) as [v Hv].
    rewrite <- Hc, Hv. f_equal. eapply Hz; eauto.
Qed.

Lemma writeMap_zero (x y : Z) (s s' : GenState spec_float) :
  zeroMap size s -> 0 <= x < size ->
  writeMap x y (Some (IEEE.ofZ 0)) s = Ok (tt, s') -> zeroMap size s'.
Proof.
  intros [Hsq Hz] Hx E. unfold writeMap in E.
  destruct (gridSet_ok size (hmap s) x y (Some (IEEE.ofZ 0)) Hsq Hx) as (g' & Eg & Hg').
  rewrite Eg in E. injection E as <-. split; [exact Hg' |]. simpl.
  intros i j v Hv. rewrite (gridSet_cellAt _ _ _ _ _ i j Eg) in Hv.
  destruct (cellAt (hmap s) i j) as [old |] eqn:Eold; [| discriminate].
  injection Hv as <-. destruct ((i =? x) && (j =? y)); [reflexivity |].
  eapply Hz; eauto.
Qed.

Lemma rand_zeroMap (s s' : GenState spec_float) (r : spec_float) :
  zeroMap size s -> rand random (IEEE.ofZ 0) s = Ok (r, s') ->
  zeroMap size s' /\ r = IEEE.ofZ 0.
Proof.
  intros Hs E. unfold rand in E. injection E as <- <-. split; [exact Hs |].
  apply rand_zero, Hrandom.
Qed.

Ltac read E v s1 H :=
  let Ev := fresh "Ev" in
  apply bind_Ok in E as (v & s1 & Ev & E);
  apply readMap_zero in Ev as (-> & H); [| assumption].

Lemma square_zero (x y half : Z) (s s' : GenState spec_float) (a : spec_float) :
  zeroMap size s -> 1 <= half ->
  half <= x <= max - half -> half <= y <= max - half ->
  square max x y half s = Ok (a, s') -> s' = s /\ a = IEEE.ofZ 0.
Proof.
  intros Hs Hhalf Hx Hy E. unfold square in E.
  destruct (Z.ltb_spec x half); [lia |].
  destruct (Z.ltb_spec (max - half) x); [lia |].
  read E v1 s1 H1. read E v2 s2 H2. read E v3 s3 H3. read E v4 s4 H4.
  injection E as <- <-. split; [reflexivity |].
  rewrite (proj2 H1), (proj2 H2), (proj2 H3), (proj2 H4) by lia. reflexivity.
Qed.

Lemma diamond_zero (x y half : Z) (s s' : GenState spec_float) (a : spec_float) :
  zeroMap size s -> 1 <= half -> 2 * half <= max ->
  0 <= x <= max -> 0 <= y <= max ->
  diamond max x y half s = Ok (a, s') -> s' = s /\ a = IEEE.ofZ 0.
Proof.
  intros Hs Hhalf Hfit Hx Hy E. unfold diamond in E.
  destruct (Z.ltb_spec x half); [| destruct (Z.ltb_spec (max - half) x)].
  - read E v1 s1 H1. read E v2 s2 H2. read E v3 s3 H3.
    injection E as <- <-. split; [reflexivity |].
    rewrite (proj2 H2) by lia.
    destruct (proj1 H1) as [-> | ->], (proj1 H3) as [-> | ->]; reflexivity.
  - read E v1 s1 H1. read E v2 s2 H2. read E v3 s3 H3.
    injection E as <- <-. split; [reflexivity |].
    rewrite (proj2 H3) by lia.
    destruct (proj1 H1) as [-> | ->], (proj1 H2) as [-> | ->]; reflexivity.
  - read E v1 s1 H1. read E v2 s2 H2. read E v3 s3 H3. read E v4 s4 H4.
    injection E as <- <-. split; [reflexivity |].
    rewrite (proj2 H2), (proj2 H4) by lia.
    destruct (proj1 H1) as [-> | ->], (proj1 H3) as [-> | ->]; reflexivity.
Qed.

Lemma divideLoops_zero (k : Z) (s s' : GenState spec_float) :
  1 <= k <= d -> zeroMap size s ->
  divideLoops random (IEEE.ofZ 0) None None None None max (2 ^ k) s = Ok (tt, s') ->
  zeroMap size s'.
Proof.
  intros Hk Hs E.
  destruct (pow2_split max d Hmax k Hk) as (Hhalf & Hsz & Hm & Hfit & _).
  unfold divideLoops in E. rewrite (half_pow2 d k) in E by lia.
  change (jsMul (IEEE.ofZ 0) (ofInt (2 ^ k)))
    with (IEEE.mul (IEEE.ofZ 0) (IEEE.ofZ (2 ^ k))) in E.
  rewrite scl_zero in E by lia.
  set (half := 2 ^ (k - 1)) in *. set (m := 2 ^ (d - k)) in *.
  apply bind_Ok in E as ([] & s1 & E1 & E2).
  assert (H1 : zeroMap size s1).
  { refine (forEach_preserves (zeroMap size) _ _ _ _ _ Hs E1).
    intros y s2 s3 Hy H2 E3.
    refine (forEach_preserves (zeroMap size) _ _ _ _ _ H2 E3).
    intros x s4 s5 Hx H4 E.
    apply elem_of_steps in Hy as (j & Hj & -> & Hylt); [| lia].
    apply elem_of_steps in Hx as (i & Hi & -> & Hxlt); [| lia].
    assert (i < m) by nia. assert (j < m) by nia.
    apply bind_Ok in E as (r & s6 & Er & E).
    apply rand_zeroMap in Er as [H6 ->]; [| exact H4].
    apply bind_Ok in E as (a & s7 & Ea & E).
    apply square_zero in Ea as [-> ->]; [| exact H6 | lia | nia | nia].
    apply writeMap_zero in E; [exact E | exact H6 | nia]. }
  refine (forEach_preserves (zeroMap size) _ _ _ _ _ H1 E2).
  intros y s2 s3 Hy H2 E3.
  refine (forEach_preserves (zeroMap size) _ _ _ _ _ H2 E3).
  intros x s4 s5 Hx H4 E.
  apply elem_of_steps in Hy as (j & Hj & -> & Hylt); [| lia].
  apply elem_of_steps in Hx as (i & Hi & -> & Hxlt); [| lia].
  assert (Hrem : 0 <= Z.rem (0 + j * half + half) (2 ^ k)).
  { apply Z.rem_nonneg; nia. }
  apply bind_Ok in E as (v & s6 & Ev & E).
  unfold edgeOrDiamond, andCond in Ev.
  apply bind_Ok in Ev as (r & s7 & Er & Ev).
  apply rand_zeroMap in Er as [H7 ->]; [| exact H4].
  apply bind_Ok in Ev as (a & s8 & Ea & Ev).
  apply diamond_zero in Ea as [-> ->]; [| exact H7 | lia | nia | nia | nia].
  injection Ev as <- <-.
  apply writeMap_zero in E; [exact E | exact H7 | nia].
Qed.

Lemma divide_zero (fuel : nat) : forall k s s',
  0 <= k <= d -> zeroMap size s ->
  divide random (IEEE.ofZ 0) None None None None max fuel (2 ^ k) s = Ok (tt, s') ->
  zeroMap size s'.
Proof.
  induction fuel as [| fuel IH]; intros k s s' Hk Hs E; simpl in E.
  - destruct (2 ^ k / 2 <? 1); [| discriminate]. injection E as <-. exact Hs.
  - destruct (Z.ltb_spec (2 ^ k / 2) 1) as [Hsmall | Hbig];
      [injection E as <-; exact Hs |].
    assert (Hk1 : 1 <= k).
    { destruct (Z.eq_dec k 0) as [-> |]; [| lia].
      change (2 ^ 0 / 2) with 0 in Hbig. lia. }
    apply bind_Ok in E as ([] & s1 & E1 & E2).
    apply divideLoops_zero in E1; [| lia | exact Hs].
    rewrite (half_pow2 d k Hk1) in E2. apply IH in E2; [exact E2 | lia | exact E1].
Qed.

Lemma seedCorners_zero (s s' : GenState spec_float) :
  zeroMap size s ->
  seedCorners random (IEEE.ofZ 0) None None None None size max s = Ok (tt, s') ->
  zeroMap size s'.
Proof.
  intros Hs E. unfold seedCorners, corner in E.
  change (jsDiv (jsMul (IEEE.ofZ 0) (ofInt size)) (ofInt 2))
    with (IEEE.div (IEEE.mul (IEEE.ofZ 0) (IEEE.ofZ size)) (IEEE.ofZ 2)) in E.
  assert (Hscale : IEEE.div (IEEE.mul (IEEE.ofZ 0) (IEEE.ofZ size)) (IEEE.ofZ 2)
                   = IEEE.ofZ 0).
  { replace size with (2 ^ d + 1) by lia. apply scale_zero. exact Hd. }
  rewrite Hscale in E.
  assert (Hpos : 1 <= max) by (rewrite Hmax; pose proof (Z.pow_pos_nonneg 2 d); lia).
  apply bind_Ok in E as (c1 & s1 & Ec & E). apply bind_Ok in Ec as (r1 & t1 & Er & Ec).
  apply rand_zeroMap in Er as [H1 ->]; [| exact Hs]. injection Ec as <- <-.
  apply bind_Ok in E as ([] & s2 & Ew & E). apply writeMap_zero in Ew; [| exact H1 | lia].
  apply bind_Ok in E as (c2 & s3 & Ec & E). apply bind_Ok in Ec as (r2 & t2 & Er & Ec).
  apply rand_zeroMap in Er as [H2 ->]; [| exact Ew]. injection Ec as <- <-.
  apply bind_Ok in E as ([] & s4 & Ew2 & E). apply writeMap_zero in Ew2; [| exact H2 | lia].
  apply bind_Ok in E as (c3 & s5 & Ec & E). apply bind_Ok in Ec as (r3 & t3 & Er & Ec).
  apply rand_zeroMap in Er as [H3 ->]; [| exact Ew2]. injection Ec as <- <-.
  apply bind_Ok in E as ([] & s6 & Ew3 & E). apply writeMap_zero in Ew3; [| exact H3 | lia].
  apply bind_Ok in E as (c4 & s7 & Ec & E). apply bind_Ok in Ec as (r4 & t4 & Er & Ec).
  apply rand_zeroMap in Er as [H4 ->]; [| exact Ew3]. injection Ec as <- <-.
  apply writeMap_zero in E; [exact E | exact H4 | lia].
Qed.

Lemma buildMap_zero (s s' : GenState spec_float) :
  zeroMap size s ->
  buildMap random (IEEE.ofZ 0) None None None None size max s = Ok (tt, s') ->
  zeroMap size s'.
Proof.
  intros Hs E. unfold buildMap in E. apply bind_Ok in E as ([] & s1 & E1 & E2).
  apply seedCorners_zero in E1; [| exact Hs].
  assert (E3 : divide random (IEEE.ofZ 0) None None None None max (Z.to_nat max)
                 (2 ^ d) s1 = Ok (tt, s')) by (rewrite <- Hmax; exact E2).
  apply divide_zero in E3; [exact E3 | lia | exact E1].
Qed.
End Flat.

Lemma allZero_new (n m : nat) : allZero (replicate n (replicate m (IEEE.ofZ 0))).
Proof.
  intros i j v. unfold cellAt, zget.
  destruct (i <? 0); [discriminate |].
  destruct (replicate n _ !! Z.to_nat i) as [row |] eqn:E; [| discriminate].
  apply lookup_replicate in E as [-> _].
  destruct (j <? 0); [discriminate |].
  intros E. apply lookup_replicate in E as [-> _]. reflexivity.
Qed.

Lemma readCells_zero (src : list (list spec_float)) (N : Z) (cells : list (Z * Z)) :
  squareGrid N src -> allZero src ->
  Forall (fun c => 0 <= fst c < N /\ 0 <= snd c < N) cells ->
  readCells src cells = (fun _ => Some (IEEE.ofZ 0)) <$> cells.
Proof.
  intros Hsq Hz. induction 1 as [| [x y] cells [Hx Hy] _ IH]; [reflexivity |].
  unfold readCells in *. rewrite !fmap_cons, IH. cbn [fst snd]. f_equal.
  destruct (cellAt_is_Some N src x y Hsq Hx Hy) as [v Hv]. rewrite Hv. f_equal.
  eapply Hz; eauto.
Qed.

Lemma smoothedCell_zero (src : list (list spec_float)) (N i j : Z) :
  squareGrid N src -> allZero src -> 2 <= N -> 0 <= i < N -> 0 <= j < N ->
  smoothedCell src (N - 1) i j = IEEE.ofZ 0.
Proof.
  intros Hsq Hz HN Hi Hj. unfold smoothedCell.
  destruct ((0 <? i) && (i <? N - 1) && (0 <? j) && (j <? N - 1)) eqn:Einner.
  - apply andb_prop in Einner as [Einner Hj2]. apply andb_prop in Einner as [Einner Hj1].
    apply andb_prop in Einner as [Hi1 Hi2].
    apply Z.ltb_lt in Hi1, Hi2, Hj1, Hj2.
    rewrite (readCells_zero src N) by
      (try assumption; unfold window;
       repeat (apply Forall_cons_2; [simpl; lia |]); apply Forall_nil_2).
    reflexivity.
  - clear Einner.
    rewrite (readCells_zero src N); try assumption.
    + unfold medianCells.
      destruct (i =? 0), (i =? N - 1), (j =? 0), (j =? N - 1); reflexivity.
    + unfold medianCells.
      destruct (Z.eqb_spec i 0), (Z.eqb_spec i (N - 1)),
               (Z.eqb_spec j 0), (Z.eqb_spec j (N - 1));
        repeat (apply Forall_cons_2; [simpl; lia |]); apply Forall_nil_2.
Qed.

(** X9.  With roughness 0 and no constraint the terrain is flat: whatever
    [Math.random()] returns, every height of the returned grid is [+0]. *)
Theorem flat_when_roughness_is_zero (random : nat -> spec_float) (detail : Z) (n : nat) :
  (forall k, nonNegative (random k)) -> 0 <= detail < 32 ->
  let size := 2 ^ detail + 1 in
  exists hf n',
    generateTerrain random detail (IEEE.ofZ 0) None None None None n = Ok (hf, n') /\
    squareGrid size hf /\
    forall i j, 0 <= i < size -> 0 <= j < size -> cellAt hf i j = Some (IEEE.ofZ 0).
Proof.
  intros Hrandom Hd size.
  destruct (generateTerrain_phases random detail (IEEE.ofZ 0) None None None None n Hd)
    as (built & smoothed & hf & Eb & Hb & Esm & Hsm & E & Hhf & Hcell).
  fold size in Eb, Hb, Hsm, Hhf.
  assert (Hpos : 1 <= 2 ^ detail) by (pose proof (Z.pow_pos_nonneg 2 detail); lia).
  apply (buildMap_zero random Hrandom size (size - 1) detail) in Eb;
    [| unfold size; lia | lia | unfold size; lia |].
  2:{ split; [apply squareGrid_new; unfold size; lia |]. apply allZero_new. }
  destruct Eb as [_ Hz].
  destruct (median3Filter_values (hmap built) size Hb ltac:(unfold size; lia))
    as (smoothed' & Esm' & _ & Hval).
  rewrite Esm in Esm'. injection Esm' as <-.
  exists hf, (next built). split; [exact E |]. split; [exact Hhf |].
  intros i j Hi Hj. rewrite Hcell, (Hval i j Hi Hj). simpl. f_equal.
  apply smoothedCell_zero; try assumption. unfold size. lia.
Qed.

Lemma flat_when_roughness_is_zero_witness :
  0 <= 1 < 32 /\
  exists hf n',
    generateTerrain variedDraws 1 (IEEE.ofZ 0) None None None None 0%nat = Ok (hf, n') /\
    cellAt hf 1 2 = Some (IEEE.ofZ 0).
Proof.
  split; [lia |].
  destruct (flat_when_roughness_is_zero variedDraws 1 0%nat) as (hf & n' & E & _ & Hc).
  - intros k. unfold variedDraws, ratio.
    assert (H : forall z, 0 <= z < 64 -> nonNegative (IEEE.div (IEEE.ofZ z) (IEEE.ofZ 64))).
    { intros z Hz. rewrite <- (Z2Nat.id z) by lia.
      assert (Hn : (Z.to_nat z < 64)%nat) by lia. revert Hn. generalize (Z.to_nat z).
      intros m Hm. do 64 (destruct m as [| m]; [exact I |]). lia. }
    apply H. apply Z.mod_pos_bound. lia.
  - lia.
  - exists hf, n'. split; [exact E |]. apply Hc; simpl; lia.
Defined.
